(** * wad2pic: a shallow embedding of the level renderer and its properties

    The development follows [wad2pic.py].  Part I translates the functions
    the properties are about; Parts II and III prove the properties.

    Conventions.
    - Python integers are [Z]; [//] and [%] are [Z.div] and [Z.modulo]
      (both round towards minus infinity for a positive divisor, as in Python).
    - NumPy [int16] cells hold a [Z] reduced by [int16].
    - A PIL pixel-access object and a NumPy 2-D array are functions from
      coordinates to values, together with the size of the raster; reads and
      writes go through [locate], which wraps a negative index once and
      raises [IndexError] outside the raster, as both libraries do.
    - Exceptions are values of [result]; loops that the source writes with
      [while] take a fuel argument and are shown to finish within the budget
      they are given. *)

From Stdlib Require Import ZArith Lia String Ascii DecimalString.
From Stdlib Require Import Floats Uint63.
From Stdlib.Strings Require Import Byte.
From stdpp Require Import gmap strings functions list.

Open Scope Z_scope.

(* ================================================================== *)
(** * Part I. The program                                              *)
(* ================================================================== *)

(** ** Exceptions *)

Inductive exn : Type :=
| IndexError | AttributeError | ValueError | OverflowError | ZeroDivisionError.

Inductive result (A : Type) : Type :=
| Ok (a : A)
| Raise (e : exn).
Arguments Ok {A} a.
Arguments Raise {A} e.

#[global] Instance result_ret : MRet result := λ A a, Ok a.
#[global] Instance result_bind : MBind result := λ A B f m,
  match m with Ok a => f a | Raise e => Raise e end.

(** [l[i]] on a Python list. *)
Definition py_index {A} (l : list A) (i : Z) : result A :=
  let j := if decide (i < 0) then i + Z.of_nat (length l) else i in
  if decide (0 ≤ j)
  then match l !! Z.to_nat j with Some a => Ok a | None => Raise IndexError end
  else Raise IndexError.

(** [len(l)]. *)
Definition len {A} (l : list A) : Z := Z.of_nat (length l).

(** A value stored in a NumPy [int16] cell. *)
Definition int16 (v : Z) : Z := (v + 32768) mod 65536 - 32768.

(** ** The level data (classes [Vertex], [LineDef], [SideDef], [Sector]) *)

Module Vertex.
Record t : Type := Make { x : Z; y : Z }.
End Vertex.

Module LineDef.
Record t : Type := Make {
  beg : Z; end_ : Z; front : Z; back : Z;
  topUnpegged : Z; bottomUnpegged : Z }.
End LineDef.

Module SideDef.
Record t : Type := Make {
  xOffset : Z; yOffset : Z;
  upper : string; lower : string; middle : string;
  sector : Z }.
End SideDef.

Module Sector.
Record t : Type := Make {
  floorHeight : Z; ceilingHeight : Z;
  floorTexture : string; ceilingTexture : string;
  light : Z;
  listOfVerteces : list Z;
  HOMpassed : bool }.
End Sector.

(** ** Lumps and the loaders of the level data *)

(** Class [Lump]: the bytes and the reading position ([length] is
    [len(data)]). *)
Module Lump.
Record t : Type := Make { data : list byte; position : Z }.
End Lump.

(** [data[a:b]] for [0 <= a]. *)
Definition py_slice {A} (l : list A) (a b : Z) : list A :=
  take (Z.to_nat (b - a)) (drop (Z.to_nat a) l).

(** [lump.read(nBytes)]: the bytes and the lump with its position moved. *)
Definition lumpRead (nBytes : Z) (lump : Lump.t) : list byte * Lump.t :=
  let newPosition := Z.min (Lump.position lump + nBytes)
                           (len (Lump.data lump)) in
  (py_slice (Lump.data lump) (Lump.position lump) newPosition,
   Lump.Make (Lump.data lump) newPosition).

(** [int.from_bytes(bs, "little", signed=False)] and [signed=True]. *)
Definition fromBytes (bs : list byte) : Z :=
  foldr (λ b acc, Z.of_N (Byte.to_N b) + 256 * acc) 0 bs.

Definition fromBytesSigned (bs : list byte) : Z :=
  let u := fromBytes bs in
  let bits := 8 * len bs in
  if decide (bits = 0) then 0
  else if decide (u < 2 ^ (bits - 1)) then u else u - 2 ^ bits.

Definition NUL : ascii := Ascii.zero.

(** ["\x00" * n]. *)
Fixpoint nuls (n : nat) : string :=
  match n with O => EmptyString | S n' => String NUL (nuls n') end.

(** [trailingZeros]: everything after the first [\x00] becomes [\x00]. *)
Fixpoint trailingZeros (name : string) : string :=
  match name with
  | EmptyString => EmptyString
  | String c rest =>
      if decide (c = NUL) then String c (nuls (String.length rest))
      else String c (trailingZeros rest)
  end.

(** Class [Thing]. *)
Module Thing.
Record t : Type := Make {
  x : Z; y : Z; angle : Z; type : Z; options : Z;
  sprite : string; mirrored : bool }.
End Thing.

Section loaders.
(** [str.upper] of the Python library. *)
Variable upper : string → string.

(** [trailingZeros(lump.read(8).decode("ISO-8859-1").upper())]. *)
Definition readName (lump : Lump.t) : string * Lump.t :=
  let '(bs, lump) := lumpRead 8 lump in
  (trailingZeros (upper (string_of_list_byte bs)), lump).

Fixpoint vertexLoop (n : nat) (lump : Lump.t) (vertexes : list Vertex.t)
    : list Vertex.t :=
  match n with
  | O => vertexes
  | S n' =>
      let '(bx, lump) := lumpRead 2 lump in
      let x := fromBytesSigned bx in
      let '(by_, lump) := lumpRead 2 lump in
      let y := - fromBytesSigned by_ in
      vertexLoop n' lump (vertexes ++ [Vertex.Make x y])
  end.

(** [getVertixes].  [lump.length] on [None] raises [AttributeError]. *)
Definition getVertixes (lump : option Lump.t) : result (list Vertex.t) :=
  match lump with
  | None => Raise AttributeError
  | Some lump =>
      Ok (vertexLoop (Z.to_nat (len (Lump.data lump) / 4)) lump [])
  end.

Fixpoint lineDefLoop (zStyle : bool) (n : nat) (lump : Lump.t)
    (linedefs : list LineDef.t) : list LineDef.t :=
  match n with
  | O => linedefs
  | S n' =>
      let '(b, lump) := lumpRead 2 lump in
      let beg := fromBytes b in
      let '(b, lump) := lumpRead 2 lump in
      let end_ := fromBytes b in
      let '(b, lump) := lumpRead 2 lump in
      let flags := fromBytes b in
      let topUnpegged := Z.land flags 8 / 8 in
      let bottomUnpegged := Z.land flags 16 / 16 in
      let '(_, lump) := lumpRead 4 lump in
      let lump := if zStyle then (lumpRead 2 lump).2 else lump in
      let '(b, lump) := lumpRead 2 lump in
      let front := fromBytes b in
      let '(b, lump) := lumpRead 2 lump in
      let back := fromBytes b in
      lineDefLoop zStyle n' lump
        (linedefs ++ [LineDef.Make beg end_ front back
                        topUnpegged bottomUnpegged])
  end.

(** [getLineDefs]. *)
Definition getLineDefs (lump : option Lump.t) (zStyle : bool)
    : result (list LineDef.t) :=
  match lump with
  | None => Ok []
  | Some lump =>
      let lineDefSize := if zStyle then 16 else 14 in
      Ok (lineDefLoop zStyle (Z.to_nat (len (Lump.data lump) / lineDefSize))
            lump [])
  end.

Fixpoint sideDefLoop (n : nat) (lump : Lump.t) (sidedefs : list SideDef.t)
    : list SideDef.t :=
  match n with
  | O => sidedefs
  | S n' =>
      let '(b, lump) := lumpRead 2 lump in
      let xOffset := fromBytesSigned b in
      let '(b, lump) := lumpRead 2 lump in
      let yOffset := fromBytesSigned b in
      let '(upper_, lump) := readName lump in
      let '(lower, lump) := readName lump in
      let '(middle, lump) := readName lump in
      let '(b, lump) := lumpRead 2 lump in
      let sector := fromBytes b in
      sideDefLoop n' lump
        (sidedefs ++ [SideDef.Make xOffset yOffset upper_ lower middle sector])
  end.

(** [getSideDefs]. *)
Definition getSideDefs (lump : option Lump.t) : result (list SideDef.t) :=
  match lump with
  | None => Ok []
  | Some lump =>
      Ok (sideDefLoop (Z.to_nat (len (Lump.data lump) / 30)) lump [])
  end.

Fixpoint sectorLoop (n : nat) (lump : Lump.t) (sectors : list Sector.t)
    : list Sector.t :=
  match n with
  | O => sectors
  | S n' =>
      let '(b, lump) := lumpRead 2 lump in
      let floorHeight := fromBytesSigned b in
      let '(b, lump) := lumpRead 2 lump in
      let ceilingHeight := fromBytesSigned b in
      let '(floorTexture, lump) := readName lump in
      let '(ceilingTexture, lump) := readName lump in
      let '(b, lump) := lumpRead 2 lump in
      let light := fromBytesSigned b in
      let light := Z.min light 255 in
      let light := Z.max light 0 in
      let '(_, lump) := lumpRead 4 lump in
      sectorLoop n' lump
        (sectors ++ [Sector.Make floorHeight ceilingHeight floorTexture
                       ceilingTexture light [] true])
  end.

(** [getSectors]. *)
Definition getSectors (lump : option Lump.t) : result (list Sector.t) :=
  match lump with
  | None => Ok []
  | Some lump =>
      Ok (sectorLoop (Z.to_nat (len (Lump.data lump) / 26)) lump [])
  end.

Fixpoint thingLoop (zStyle : bool) (n : nat) (lump : Lump.t)
    (things : list Thing.t) : list Thing.t :=
  match n with
  | O => things
  | S n' =>
      let lump := if zStyle then (lumpRead 2 lump).2 else lump in
      let '(b, lump) := lumpRead 2 lump in
      let x := fromBytesSigned b in
      let '(b, lump) := lumpRead 2 lump in
      let y := - fromBytesSigned b in
      let lump := if zStyle then (lumpRead 2 lump).2 else lump in
      let '(b, lump) := lumpRead 2 lump in
      let angle := fromBytesSigned b in
      let '(b, lump) := lumpRead 2 lump in
      let typeID := fromBytesSigned b in
      let '(b, lump) := lumpRead 2 lump in
      let options := fromBytesSigned b in
      let lump := if zStyle then (lumpRead 6 lump).2 else lump in
      thingLoop zStyle n' lump
        (things ++ [Thing.Make x y angle typeID options EmptyString false])
  end.

(** [getThings]. *)
Definition getThings (lump : option Lump.t) (zStyle : bool)
    : result (list Thing.t) :=
  match lump with
  | None => Ok []
  | Some lump =>
      let thingSize := if zStyle then 20 else 10 in
      Ok (thingLoop zStyle (Z.to_nat (len (Lump.data lump) / thingSize))
            lump [])
  end.
End loaders.

(** ** Wall synthesis ([genWalls]) *)

(** The values of [Wall.position]. *)
Inductive wallPosition : Type := Proper | Mid | Top | Bottom.

#[global] Instance wallPosition_eq_dec : EqDecision wallPosition.
Proof. solve_decision. Defined.

(** Class [Wall]. *)
Module Wall.
Record t : Type := Make {
  sx : Z; sy : Z; ex : Z; ey : Z;
  floor : Z; ceiling : Z;
  texture : string; xOffset : Z; yOffset : Z;
  fromTop : bool; position : wallPosition;
  light : Z; isBack : bool }.
End Wall.

(** ["-\x00\x00\x00\x00\x00\x00\x00"]. *)
Definition noTexture : string := String "-" (nuls 7).

(** [s in t] on Python strings. *)
Definition str_in (s t : string) : bool :=
  match String.index 0 s t with Some _ => true | None => false end.

(** The part "Middle part (wall proper)" of one turn of the loop: the
    walls it appends, in order. *)
Definition middleWalls (sidedefs : list SideDef.t) (sectors : list Sector.t)
    (linedef : LineDef.t) (start end_ : Vertex.t) (isBack : bool)
    : result (list Wall.t) :=
  let frontSideDef := LineDef.front linedef in
  let backSideDef := LineDef.back linedef in
  if decide (frontSideDef < len sidedefs) then
    fsd ← py_index sidedefs frontSideDef;
    if decide (SideDef.middle fsd ≠ noTexture) then
      let sector := SideDef.sector fsd in
      fs ← py_index sectors sector;
      let floor := Sector.floorHeight fs in
      let ceiling := Sector.ceilingHeight fs in
      let light := Sector.light fs in
      if decide (backSideDef < len sidedefs ∧ backSideDef ≠ 65535) then
        bsd ← py_index sidedefs backSideDef;
        let backsector := SideDef.sector bsd in
        bs ← py_index sectors backsector;
        let backfloor := Sector.floorHeight bs in
        let backceiling := Sector.ceilingHeight bs in
        let floor := Z.max floor backfloor in
        let ceiling := Z.min ceiling backceiling in
        Ok [Wall.Make (Vertex.x start) (Vertex.y start)
              (Vertex.x end_) (Vertex.y end_) floor ceiling
              (SideDef.middle fsd) (SideDef.xOffset fsd) (SideDef.yOffset fsd)
              false Mid light isBack;
            Wall.Make (Vertex.x end_) (Vertex.y end_)
              (Vertex.x start) (Vertex.y start) floor ceiling
              (SideDef.middle bsd) (SideDef.xOffset bsd) (SideDef.yOffset bsd)
              false Mid (Sector.light bs) isBack]
      else
        Ok [Wall.Make (Vertex.x start) (Vertex.y start)
              (Vertex.x end_) (Vertex.y end_) floor ceiling
              (SideDef.middle fsd) (SideDef.xOffset fsd) (SideDef.yOffset fsd)
              true Proper light isBack]
    else Ok []
  else Ok [].

(** The part "Generate bottom and top sidedefs".  [isBack] is the one
    variable of the loop body that the bottom wall hands on to the top
    wall. *)
Definition stepWalls (sidedefs : list SideDef.t) (sectors : list Sector.t)
    (linedef : LineDef.t) (start end_ : Vertex.t) (isBack : bool)
    : result (list Wall.t) :=
  let frontSideDef := LineDef.front linedef in
  let backSideDef := LineDef.back linedef in
  if decide (frontSideDef < len sidedefs ∧ backSideDef < len sidedefs
             ∧ backSideDef ≠ 65535) then
    fsd ← py_index sidedefs frontSideDef;
    bsd ← py_index sidedefs backSideDef;
    let frontSector := SideDef.sector fsd in
    let backSector := SideDef.sector bsd in
    fs ← py_index sectors frontSector;
    bs ← py_index sectors backSector;
    let frontFloor := Sector.floorHeight fs in
    let frontCeiling := Sector.ceilingHeight fs in
    let backFloor := Sector.floorHeight bs in
    let backCeiling := Sector.ceilingHeight bs in
    let isSky := str_in "F_SKY1" (Sector.ceilingTexture bs)
                 && str_in "F_SKY1" (Sector.ceilingTexture fs) in
    (* Bottom part *)
    bottomPart ←
      (if decide (frontFloor ≠ backFloor) then
         let fromTop := if decide (LineDef.bottomUnpegged linedef ≠ 0)
                        then false else true in
         let top := Z.max frontFloor backFloor in
         let bottom := Z.min frontFloor backFloor in
         let sideDef := if decide (bottom = frontFloor) then fsd else bsd in
         let isBack := if decide (bottom = frontFloor) then isBack else true in
         s ← py_index sectors (SideDef.sector sideDef);
         Ok ([Wall.Make (Vertex.x start) (Vertex.y start)
                (Vertex.x end_) (Vertex.y end_) bottom top
                (SideDef.lower sideDef) (SideDef.xOffset sideDef)
                (SideDef.yOffset sideDef) fromTop Bottom (Sector.light s)
                isBack], isBack)
       else Ok ([], isBack));
    let isBack := bottomPart.2 in
    (* Top part *)
    topPart ←
      (if decide (frontCeiling ≠ backCeiling) then
         if negb isSky then
           let fromTop := if decide (LineDef.topUnpegged linedef = 1)
                          then true else false in
           let top := Z.max frontCeiling backCeiling in
           let bottom := Z.min frontCeiling backCeiling in
           let sideDef := if decide (top = frontCeiling) then fsd else bsd in
           let isBack := if decide (top = frontCeiling) then isBack else true in
           s ← py_index sectors (SideDef.sector sideDef);
           Ok [Wall.Make (Vertex.x start) (Vertex.y start)
                 (Vertex.x end_) (Vertex.y end_) bottom top
                 (SideDef.upper sideDef) (SideDef.xOffset sideDef)
                 (SideDef.yOffset sideDef) fromTop Top (Sector.light s)
                 isBack]
         else Ok []
       else Ok []);
    Ok (bottomPart.1 ++ topPart)
  else Ok [].

(** The walls one linedef contributes, in the order they are appended;
    [None] when the linedef is skipped ([continue]). *)
Definition linedefWalls (vertexes : list Vertex.t) (sidedefs : list SideDef.t)
    (sectors : list Sector.t) (linedef : LineDef.t)
    : result (option (Vertex.t * Vertex.t * list Wall.t)) :=
  if decide (LineDef.beg linedef >= len vertexes
             ∨ LineDef.end_ linedef >= len vertexes)
  then Ok None
  else
    start ← py_index vertexes (LineDef.beg linedef);
    end_ ← py_index vertexes (LineDef.end_ linedef);
    let isBack := false in
    middle ← middleWalls sidedefs sectors linedef start end_ isBack;
    steps ← stepWalls sidedefs sectors linedef start end_ isBack;
    Ok (Some (start, end_, middle ++ steps)).

Section genWalls.
(** The draw distance is a floating-point number; the dictionary only
    compares keys, so the key type and the computation of the key
    [(start.x + end.x)/2 * hCoefX + (start.y + end.y)/2 * hCoefY] stay
    abstract. *)
Context {K : Type} `{Countable K}.
Variable distance : Vertex.t → Vertex.t → K.

(** [walls[distance].append(w)] for each [w], creating the key on the
    first wall. *)
Definition appendWalls (walls : gmap K (list Wall.t)) (d : K)
    (ws : list Wall.t) : gmap K (list Wall.t) :=
  match ws with
  | [] => walls
  | _ => <[d := default [] (walls !! d) ++ ws]> walls
  end.

Fixpoint genWallsFrom (vertexes : list Vertex.t) (sidedefs : list SideDef.t)
    (sectors : list Sector.t) (linedefs : list LineDef.t)
    (walls : gmap K (list Wall.t)) : result (gmap K (list Wall.t)) :=
  match linedefs with
  | [] => Ok walls
  | linedef :: rest =>
      r ← linedefWalls vertexes sidedefs sectors linedef;
      match r with
      | None => genWallsFrom vertexes sidedefs sectors rest walls
      | Some (start, end_, ws) =>
          genWallsFrom vertexes sidedefs sectors rest
            (appendWalls walls (distance start end_) ws)
      end
  end.

Definition genWalls (vertexes : list Vertex.t) (linedefs : list LineDef.t)
    (sidedefs : list SideDef.t) (sectors : list Sector.t)
    : result (gmap K (list Wall.t)) :=
  genWallsFrom vertexes sidedefs sectors linedefs ∅.
End genWalls.

(** ** Object resolution ([parseThings]) *)

(** [str(n)] for a Python integer. *)
Definition str (n : Z) : string := NilZero.string_of_int (Z.to_int n).

(** [s[a:b]] on a Python string, for [0 <= a <= b]. *)
Definition str_slice (s : string) (a b : nat) : string :=
  String.substring a (b - a) s.

(** [angle = (14 - thing.angle//45) % 8 + 1]. *)
Definition spriteAngle (angle : Z) : Z := (14 - angle / 45) mod 8 + 1.

(** [findSprite]; [allLumps] is the set of lump names in the order the
    [for] loop visits it. *)
Definition findSprite (allLumps : list string) (sprite angle : string)
    : string :=
  foldl (λ found lumpName,
           if str_in sprite lumpName && str_in angle lumpName then
             if bool_decide (found = EmptyString)
                || (bool_decide (str_slice lumpName 6 8 = nuls 2)
                    && negb (bool_decide (str_slice found 6 8 = nuls 2)))
             then lumpName else found
           else found)
        EmptyString allLumps.

(** [spriteFrames[spriteFrameCount % 4]] with [spriteFrames = "ABCD"]. *)
Definition spriteFrame (spriteFrameCount : Z) : string :=
  match spriteFrameCount mod 4 with
  | 0 => "A" | 1 => "B" | 2 => "C" | _ => "D"
  end.

(** The part of the loop body of [parseThings] that picks the sprite of a
    thing whose type is in [spriteMap]: [thingName] is [spriteMap[thing.type]]
    and [sprite0] the value the local variable [sprite] has on entry.
    Returns the thing with [sprite] and [mirrored] set, and the new
    [spriteFrameCount]. *)
Definition resolveSprite (allLumps : list string) (thingName : string)
    (sprite0 : string) (spriteFrameCount : Z) (thing : Thing.t)
    : Thing.t * Z :=
  let angle := spriteAngle (Thing.angle thing) in
  let n := String.length thingName in
  let sprite :=
    if decide (n = 4%nat) then findSprite allLumps thingName "A0"
    else if decide (n = 5%nat) then findSprite allLumps thingName "0"
    else sprite0 in
  let '(sprite, spriteFrameCount) :=
    if decide (sprite = EmptyString) then
      if decide (n = 4%nat) then
        (findSprite allLumps thingName
           (spriteFrame spriteFrameCount ++ str angle)%string,
         spriteFrameCount + 1)
      else if decide (n = 5%nat) then
        (findSprite allLumps thingName (str angle), spriteFrameCount)
      else (sprite, spriteFrameCount)
    else (sprite, spriteFrameCount) in
  let mirrored :=
    if decide (String.length sprite = 8%nat
               ∧ str angle = str_slice sprite 7 8)
    then true else Thing.mirrored thing in
  (Thing.Make (Thing.x thing) (Thing.y thing) (Thing.angle thing)
     (Thing.type thing) (Thing.options thing) sprite mirrored,
   spriteFrameCount).

(** ** Palette snapping ([palletizePic]) *)

Definition color : Type := Z * Z * Z.

(** A pixel as the pixel-access object returns it: three bands, or four
    with the alpha band. *)
Inductive pix : Type :=
| RGB (c : color)
| RGBA (c : color) (a : Z).

(** [px[i, j][:3]]. *)
Definition rgb (p : pix) : color :=
  match p with RGB c => c | RGBA c _ => c end.

(** [px[i, j] = (r, g, b, a)]: an image without alpha band drops [a]. *)
Definition storeRGBA (old : pix) (c : color) (a : Z) : pix :=
  match old with RGB _ => RGB c | RGBA _ _ => RGBA c a end.

(** [px[i, j] = (r, g, b)]: an image with alpha band stores alpha 255. *)
Definition storeRGB (old : pix) (c : color) : pix :=
  match old with RGB _ => RGB c | RGBA _ _ => RGBA c 255 end.

(** The sum of the per-channel differences computed by [closestPix]. *)
Definition colorDistance (pixel pal : color) : Z :=
  Z.abs (pixel.1.1 - pal.1.1) + Z.abs (pixel.1.2 - pal.1.2)
  + Z.abs (pixel.2 - pal.2).

(** The [for pal in pallete] loop of [closestPix]: the closest colour so
    far and its distance. *)
Definition closestScan (pixel : color) (pallete : list color)
    : color * Z :=
  foldl (λ st pal,
           let distance := colorDistance pixel pal in
           if decide (distance < st.2) then (pal, distance) else st)
        ((0, 0, 0), 256 * 4) pallete.

(** [closestPix], with the cache [palleteMemory] passed in and out. *)
Definition closestPix (palleteMemory : gmap color color) (pixel : color)
    (pallete : list color) : color * gmap color color :=
  match palleteMemory !! pixel with
  | Some c => (c, palleteMemory)
  | None =>
      let closest := (closestScan pixel pallete).1 in
      (closest, <[pixel := closest]> palleteMemory)
  end.

(** The body of the two [for] loops of [palletizePic]. *)
Definition palletizePixel (pallete : list color)
    (palleteMemory : gmap color color) (p : pix) : pix * gmap color color :=
  let transparency :=
    match p with
    | RGBA _ a => if decide (a < 128) then 0 else 255
    | RGB _ => 255
    end in
  if decide (rgb p ∉ pallete) then
    let '(newpix, palleteMemory) := closestPix palleteMemory (rgb p) pallete in
    (storeRGBA p newpix transparency, palleteMemory)
  else (storeRGBA p (rgb p) transparency, palleteMemory).

Fixpoint palletizeLoop (pallete : list color)
    (palleteMemory : gmap color color) (im : list pix) : list pix :=
  match im with
  | [] => []
  | p :: rest =>
      let '(p', palleteMemory) := palletizePixel pallete palleteMemory p in
      p' :: palletizeLoop pallete palleteMemory rest
  end.

(** [palletizePic]; the image is the list of its pixels in the order the
    loops visit them, and the cache starts empty on every call. *)
Definition palletizePic (im : list pix) (pallete : list color) : list pix :=
  palletizeLoop pallete ∅ im.

(** ** Gamma correction ([gammaCorrection]) *)

(** [int(x)] for a float: [nan] and the infinities raise. *)
Definition truncFloat (x : float) : result Z :=
  match Prim2SF x with
  | S754_zero _ => Ok 0
  | S754_finite s m e =>
      let v := match e with
               | Z0 => Z.pos m
               | Zpos p => Z.pos m * 2 ^ Z.pos p
               | Zneg p => Z.pos m / 2 ^ Z.pos p
               end in
      Ok (if s then - v else v)
  | S754_nan => Raise ValueError
  | S754_infinity _ => Raise OverflowError
  end.

(** [float(n)] for a channel value. *)
Definition floatOfZ (n : Z) : float := PrimFloat.of_uint63 (Uint63.of_Z n).

(** A band value as the image stores it. *)
Definition clip8 (v : Z) : Z := Z.max 0 (Z.min 255 v).

Section gamma.
(** [x ** gamma] on Python floats, which may raise. *)
Variable pow : float → float → result float.

(** [int((data / 255) ** gamma * 255)]. *)
Definition gammaChannel (gamma : float) (data : Z) : result Z :=
  x ← pow (PrimFloat.div (floatOfZ data) (floatOfZ 255)) gamma;
  truncFloat (PrimFloat.mul x (floatOfZ 255)).

(** The body of the two [for] loops of [gammaCorrection]. *)
Definition gammaPixel (gamma : float) (p : pix) : result pix :=
  if decide (rgb p = (0, 0, 0)) then Ok p
  else
    r ← gammaChannel gamma (rgb p).1.1;
    g ← gammaChannel gamma (rgb p).1.2;
    b ← gammaChannel gamma (rgb p).2;
    Ok (storeRGB p (clip8 r, clip8 g, clip8 b)).

(** [gammaCorrection] on the pixels of the image in loop order. *)
Fixpoint gammaCorrection (im : list pix) (gamma : float)
    : result (list pix) :=
  match im with
  | [] => Ok []
  | p :: rest =>
      p' ← gammaPixel gamma p;
      rest' ← gammaCorrection rest gamma;
      Ok (p' :: rest')
  end.
End gamma.

(** ** The blueprint raster of [drawMap] *)

Definition pixel : Type := Z * Z.

Definition black : color := (0, 0, 0).
Definition white : color := (255, 255, 255).
Definition cyan : color := (0, 255, 255).
Definition blue : color := (0, 0, 255).

(** [im] with [px = im.load()] and the array [sectorData] of the same
    shape. *)
Record blueprint : Type := Blueprint {
  size : Z * Z;
  px : pixel → color;
  sectorData : pixel → Z }.

Definition inside (sz : Z * Z) (p : pixel) : Prop :=
  0 ≤ p.1 < sz.1 ∧ 0 ≤ p.2 < sz.2.

#[global] Instance inside_dec sz p : Decision (inside sz p).
Proof. unfold inside. apply _. Defined.

(** Index resolution of [px[x, y]] and [sectorData[x, y]]: a negative
    index counts from the far end, anything still outside raises. *)
Definition locate (sz : Z * Z) (p : pixel) : option pixel :=
  let q := (if decide (p.1 < 0) then p.1 + sz.1 else p.1,
            if decide (p.2 < 0) then p.2 + sz.2 else p.2) in
  if decide (inside sz q) then Some q else None.

Definition getpixel (b : blueprint) (p : pixel) : result color :=
  match locate (size b) p with
  | Some q => Ok (px b q)
  | None => Raise IndexError
  end.

Definition getsector (b : blueprint) (p : pixel) : result Z :=
  match locate (size b) p with
  | Some q => Ok (sectorData b q)
  | None => Raise IndexError
  end.

Definition putpixel (b : blueprint) (p : pixel) (c : color) : result blueprint :=
  match locate (size b) p with
  | Some q => Ok (Blueprint (size b) (<[q := c]> (px b)) (sectorData b))
  | None => Raise IndexError
  end.

Definition putsector (b : blueprint) (p : pixel) (v : Z) : result blueprint :=
  match locate (size b) p with
  | Some q => Ok (Blueprint (size b) (px b) (<[q := int16 v]> (sectorData b)))
  | None => Raise IndexError
  end.

(** *** [floodFill] *)

(** The colour to replace and the colour to fill with. *)
Definition currColor (erase : bool) : color := if erase then cyan else black.
Definition fillColor (erase : bool) : color := if erase then black else cyan.

Definition fillDirs : list (Z * Z) := [(-1, 0); (0, -1); (1, 0); (0, 1)].

Inductive scan : Type :=
| Border                       (* [return False] *)
| Pushed (toGo : list pixel)   (* the [for] loop ran to its end *)
| ScanRaise (e : exn).

(** The [for dx, dy in ...] loop of [floodFill].  [toGo] is the Python
    list used as a stack; its head here is the list's last element. *)
Fixpoint scanNeighbours (b : blueprint) (erase : bool) (thisPix : pixel)
    (ds : list (Z * Z)) (toGo : list pixel) : scan :=
  match ds with
  | [] => Pushed toGo
  | d :: ds' =>
      let nextPix := (thisPix.1 + d.1, thisPix.2 + d.2) in
      if decide (nextPix.1 < 0 ∨ nextPix.1 = (size b).1
                 ∨ nextPix.2 < 0 ∨ nextPix.2 = (size b).2)
      then Border
      else match getpixel b nextPix with
           | Raise e => ScanRaise e
           | Ok c =>
               if decide (c = currColor erase
                          ∧ 0 ≤ nextPix.1 ∧ 0 ≤ nextPix.2
                          ∧ nextPix.1 < (size b).1 ∧ nextPix.2 < (size b).2)
               then scanNeighbours b erase thisPix ds' (nextPix :: toGo)
               else scanNeighbours b erase thisPix ds' toGo
           end
  end.

(** The [while len(toGo) > 0] loop.  [None] means the fuel ran out. *)
Fixpoint fillLoop (fuel : nat) (sector : Z) (erase : bool) (b : blueprint)
    (toGo : list pixel) : option (result (bool * blueprint)) :=
  match fuel with
  | O => None
  | S fuel' =>
      match toGo with
      | [] => Some (Ok (true, b))
      | thisPix :: rest =>
          match putpixel b thisPix (fillColor erase) with
          | Raise e => Some (Raise e)
          | Ok b1 =>
              match putsector b1 thisPix (if erase then -1 else sector) with
              | Raise e => Some (Raise e)
              | Ok b2 =>
                  match scanNeighbours b2 erase thisPix fillDirs rest with
                  | Border => Some (Ok (false, b2))
                  | ScanRaise e => Some (Raise e)
                  | Pushed toGo' => fillLoop fuel' sector erase b2 toGo'
                  end
              end
          end
      end
  end.

(** All coordinates of a raster, in the order of
    [for i in range(W): for j in range(H)]. *)
Definition coords (sz : Z * Z) : list pixel :=
  x ← seqZ 0 sz.1; y ← seqZ 0 sz.2; [(x, y)].

Definition countColor (b : blueprint) (c : color) : nat :=
  length (filter (λ p, px b p = c) (coords (size b))).

(** Fuel that always suffices for the loop started on [toGo]. *)
Definition fillBudget (b : blueprint) (erase : bool) (toGo : list pixel) : nat :=
  (8 * countColor b (currColor erase) + length toGo + 6)%nat.

Definition floodFillFrom (fuel : nat) (sector : Z) (startPix : pixel)
    (erase : bool) (b : blueprint) : option (result (bool * blueprint)) :=
  match getpixel b startPix with
  | Raise e => Some (Raise e)
  | Ok c =>
      fillLoop fuel sector erase b
        (if decide (c = currColor erase) then [startPix] else [])
  end.

Definition floodFill (sector : Z) (startPix : pixel) (erase : bool)
    (b : blueprint) : option (result (bool * blueprint)) :=
  floodFillFrom (fillBudget b erase [startPix]) sector startPix erase b.

(** *** The fill pass of [drawMap] *)

(** Computations that may raise and, through [floodFill], use fuel. *)
Definition run (A : Type) : Type := option (result A).

Definition andThen {A B} (m : run A) (f : A → run B) : run B :=
  match m with
  | None => None
  | Some (Raise e) => Some (Raise e)
  | Some (Ok a) => f a
  end.

Definition noPoint : Z := -1000000.

(** [findFloodPoint]: one pixel sideways from the middle of the linedef. *)
Definition findFloodPoint (linedef : LineDef.t) (vertexes : list Vertex.t)
    (right : bool) : result (Z * Z) :=
  let beg := LineDef.beg linedef in
  let end_ := LineDef.end_ linedef in
  if decide (beg >= len vertexes ∨ end_ >= len vertexes)
  then Ok (noPoint, noPoint)
  else
    v1 ← py_index vertexes beg;
    v2 ← py_index vertexes end_;
    let x1 := Vertex.x v1 in let y1 := Vertex.y v1 in
    let x2 := Vertex.x v2 in let y2 := Vertex.y v2 in
    let x := (x1 + x2) / 2 in
    let y := (y1 + y2) / 2 in
    if decide (Z.abs (x2 - x1) ≤ 2 ∧ Z.abs (y2 - y1) ≤ 2)
    then Ok (noPoint, noPoint)
    else
      let d := 1 in
      if right then
        let y := if decide (x2 > x1) then y + d else y in
        let y := if decide (x2 < x1) then y - d else y in
        let x := if decide (y2 > y1) then x - d else x in
        let x := if decide (y2 < y1) then x + d else x in
        Ok (x, y)
      else
        let y := if decide (x2 > x1) then y - d else y in
        let y := if decide (x2 < x1) then y + d else y in
        let x := if decide (y2 > y1) then x + d else x in
        let x := if decide (y2 < y1) then x - d else x in
        Ok (x, y).

(** [if not floodFill(sector, p): floodFill(sector, p, erase=True)]. *)
Definition fillAttempt (sector : Z) (startPix : pixel) (b : blueprint)
    : run blueprint :=
  andThen (floodFill sector startPix false b) (λ r,
    if r.1 then Some (Ok r.2)
    else andThen (floodFill sector startPix true r.2) (λ r', Some (Ok r'.2))).

Section fill_pass.
Variables (vertexes : list Vertex.t) (sidedefs : list SideDef.t)
          (sectors : list Sector.t) (offsetX offsetY : Z).

(** The body of [for side, sidedef in enumerate([front, back])];
    [right] is [side == 0]. *)
Definition fillSide (linedef : LineDef.t) (right : bool) (sidedef : Z)
    (b : blueprint) : run blueprint :=
  if decide (sidedef ≠ 65535 ∧ sidedef < len sidedefs) then
    match py_index sidedefs sidedef with
    | Raise e => Some (Raise e)
    | Ok sd =>
        let sector := SideDef.sector sd in
        match py_index sectors sector with
        | Raise e => Some (Raise e)
        | Ok s =>
            if Sector.HOMpassed s then
              match findFloodPoint linedef vertexes right with
              | Raise e => Some (Raise e)
              | Ok (x, y) =>
                  if decide (x = noPoint) then Some (Ok b)
                  else fillAttempt sector (x + offsetX, y + offsetY) b
              end
            else Some (Ok b)
        end
    end
  else Some (Ok b).

Definition fillLinedef (linedef : LineDef.t) (b : blueprint) : run blueprint :=
  andThen (fillSide linedef true (LineDef.front linedef) b)
          (fillSide linedef false (LineDef.back linedef)).

(** [for n, linedef in enumerate(linedefs)]. *)
Fixpoint fillSectors (linedefs : list LineDef.t) (b : blueprint)
    : run blueprint :=
  match linedefs with
  | [] => Some (Ok b)
  | linedef :: rest => andThen (fillLinedef linedef b) (fillSectors rest)
  end.
End fill_pass.

(** *** [fillSeams] *)

Definition seamDirs : list (Z * Z) := [(1, 0); (0, 1); (-1, 0); (0, -1)].

(** The [for di, dj in ...] loop; [sectorData[...]] is read before
    [px[...]], and a NumPy value is never [None]. *)
Fixpoint seamNeighbours (b : blueprint) (p : pixel) (ds : list (Z * Z))
    (maxNeighbour : Z) : result Z :=
  match ds with
  | [] => Ok maxNeighbour
  | d :: ds' =>
      v ← getsector b (p.1 + d.1, p.2 + d.2);
      c ← getpixel b (p.1 + d.1, p.2 + d.2);
      if decide (c ≠ blue)
      then seamNeighbours b p ds' (Z.max maxNeighbour v)
      else seamNeighbours b p ds' maxNeighbour
  end.

(** The body of the two nested [for] loops. *)
Definition seamPixel (b : blueprint) (p : pixel) : result blueprint :=
  c ← getpixel b p;
  if decide (c = white) then
    maxNeighbour ← seamNeighbours b p seamDirs (-1);
    if decide (maxNeighbour > -1) then
      b1 ← putsector b p maxNeighbour;
      putpixel b1 p blue
    else Ok b
  else Ok b.

Fixpoint seamLoop (ps : list pixel) (b : blueprint) : result blueprint :=
  match ps with
  | [] => Ok b
  | p :: ps' => b' ← seamPixel b p; seamLoop ps' b'
  end.

Definition fillSeams (b : blueprint) : result blueprint :=
  seamLoop (coords (size b)) b.

(** ** [checkHOM] *)

(** [sectors[sector].listOfVerteces.append(vertex)]. *)
Definition appendVertex (sectors : list Sector.t) (sector vertex : Z)
    : result (list Sector.t) :=
  s ← py_index sectors sector;
  let i := Z.to_nat (if decide (sector < 0) then sector + len sectors else sector) in
  Ok (<[i := Sector.Make (Sector.floorHeight s) (Sector.ceilingHeight s)
               (Sector.floorTexture s) (Sector.ceilingTexture s)
               (Sector.light s) (Sector.listOfVerteces s ++ [vertex])
               (Sector.HOMpassed s)]> sectors).

(** The body of [for sidedef in [linedef.front, linedef.back]]. *)
Definition collectSide (sidedefs : list SideDef.t) (linedef : LineDef.t)
    (sidedef : Z) (sectors : list Sector.t) : result (list Sector.t) :=
  if decide (sidedef ≠ 65535 ∧ sidedef < len sidedefs) then
    sd ← py_index sidedefs sidedef;
    let sector := SideDef.sector sd in
    sectors1 ← appendVertex sectors sector (LineDef.beg linedef);
    appendVertex sectors1 sector (LineDef.end_ linedef)
  else Ok sectors.

Fixpoint collectVertices (sidedefs : list SideDef.t)
    (linedefs : list LineDef.t) (sectors : list Sector.t)
    : result (list Sector.t) :=
  match linedefs with
  | [] => Ok sectors
  | linedef :: rest =>
      sectors1 ← collectSide sidedefs linedef (LineDef.front linedef) sectors;
      sectors2 ← collectSide sidedefs linedef (LineDef.back linedef) sectors1;
      collectVertices sidedefs rest sectors2
  end.

(** [max(l)] and [min(l)] of a list that is not empty. *)
Definition py_max (l : list Z) : Z :=
  match l with [] => 0 | a :: l' => foldl Z.max a l' end.
Definition py_min (l : list Z) : Z :=
  match l with [] => 0 | a :: l' => foldl Z.min a l' end.

(** The [for vertex in sector.listOfVerteces] loop filling [xs], [ys]. *)
Fixpoint sectorPoints (vertexes : list Vertex.t) (vs : list Z)
    (xs ys : list Z) : result (list Z * list Z) :=
  match vs with
  | [] => Ok (xs, ys)
  | vertex :: vs' =>
      if decide (vertex < len vertexes) then
        v ← py_index vertexes vertex;
        sectorPoints vertexes vs' (xs ++ [Vertex.x v]) (ys ++ [Vertex.y v])
      else sectorPoints vertexes vs' xs ys
  end.

Definition failHOM (s : Sector.t) : Sector.t :=
  Sector.Make (Sector.floorHeight s) (Sector.ceilingHeight s)
    (Sector.floorTexture s) (Sector.ceilingTexture s) (Sector.light s)
    (Sector.listOfVerteces s) false.

(** The body of [for sector in sectors]. *)
Definition checkSector (vertexes : list Vertex.t) (s : Sector.t)
    : result Sector.t :=
  if decide (len (Sector.listOfVerteces s) < 6) then Ok (failHOM s)
  else
    pts ← sectorPoints vertexes (Sector.listOfVerteces s) [] [];
    let xs := pts.1 in let ys := pts.2 in
    if decide (len xs = 0 ∨ py_max xs - py_min xs < 2
               ∨ py_max ys - py_min ys < 2)
    then Ok (failHOM s)
    else Ok s.

Fixpoint checkSectors (vertexes : list Vertex.t) (sectors : list Sector.t)
    : result (list Sector.t) :=
  match sectors with
  | [] => Ok []
  | s :: rest =>
      s' ← checkSector vertexes s;
      rest' ← checkSectors vertexes rest;
      Ok (s' :: rest')
  end.

(** [checkHOM] updates the sectors in place; here it returns them. *)
Definition checkHOM (vertexes : list Vertex.t) (linedefs : list LineDef.t)
    (sidedefs : list SideDef.t) (sectors : list Sector.t)
    : result (list Sector.t) :=
  sectors1 ← collectVertices sidedefs linedefs sectors;
  checkSectors vertexes sectors1.

(** ** The depth-tested painters ([drawMap], [pasteWall], [pasteThing]) *)

(** The final image [im2] with [px2 = im2.load()] and the array [zBuffer]
    of the same shape; [zBuffer] is an [int16] array. *)
Record canvas : Type := Canvas {
  shape : Z * Z;
  px2 : pixel → color;
  zBuffer : pixel → Z }.

(** The canvas [drawMap] starts from: a black image and
    [np.full((imSizeX, imSizeY), -32768, dtype=np.int16)]. *)
Definition initialCanvas (sz : Z * Z) : canvas :=
  Canvas sz (λ _, (0, 0, 0)) (λ _, -32768).

(** A colour as an RGB image stores it. *)
Definition clipColor (c : color) : color :=
  (clip8 c.1.1, clip8 c.1.2, clip8 c.2).

(** [px2[t] = c] followed by [zBuffer[t] = z], for [t] inside the image. *)
Definition writePixel (c : canvas) (t : pixel) (col : color) (z : Z) : canvas :=
  Canvas (shape c) (<[t := clipColor col]> (px2 c)) (<[t := int16 z]> (zBuffer c)).

(** The test that makes the painters skip a pixel outside the image. *)
Definition offCanvas (c : canvas) (t : pixel) : Prop :=
  t.1 < 0 ∨ t.2 < 0 ∨ t.1 >= (shape c).1 ∨ t.2 >= (shape c).2.

#[global] Instance offCanvas_dec c t : Decision (offCanvas c t).
Proof. unfold offCanvas. apply _. Defined.

(** The floor painter of [drawMap] at the raster pixel [(i, j)] of a
    resolved sector: [hx], [hy] are [int(floorHeight * hCoefX)] and
    [int(floorHeight * hCoefY)], and [litColor] is the lit colour sampled
    from the flat, [None] when the flat is missing. *)
Definition floorPixel (c : canvas) (i j hx hy : Z) (litColor : option color)
    : canvas :=
  let t := (i - hx, j - hy) in
  if decide (offCanvas c t) then c
  else
    let lastZ := zBuffer c t in
    if decide (j > lastZ) then
      match litColor with
      | None => c
      | Some col => writePixel c t col j
      end
    else c.

(** [(bgpx[k] * (255 - opacity) + px[k] * opacity) // 255] per band. *)
Definition mix (bg fg : color) (opacity : Z) : color :=
  ((bg.1.1 * (255 - opacity) + fg.1.1 * opacity) / 255,
   (bg.1.2 * (255 - opacity) + fg.1.2 * opacity) / 255,
   (bg.2 * (255 - opacity) + fg.2 * opacity) / 255).

(** The body of the inner loop of [pasteWall] for the pixel [t] of the
    connecting line: [y] is the world depth computed for it, [fg] and
    [alpha] the colour and alpha of the resized wall image there. *)
Definition wallPixel (c : canvas) (t : pixel) (y : Z) (fg : color) (alpha : Z)
    (isTransparent : bool) : canvas :=
  if decide (offCanvas c t) then c
  else
    let lastZ := zBuffer c t in
    if decide (y > lastZ) then
      let opacity := alpha in
      if decide (opacity = 0) then c
      else
        let opacity := if isTransparent then 80 else opacity in
        let mixedpix := mix (px2 c t) fg opacity in
        if decide (opacity >= 80) then writePixel c t mixedpix y
        else Canvas (shape c) (<[t := clipColor mixedpix]> (px2 c)) (zBuffer c)
    else c.

(** The body of the two loops of [pasteThing] for the sprite pixel shown
    at [(picX, picY)]: [physY] is [thing.y + offsetY], [sp] and [alpha]
    the colour and alpha of the sprite pixel. *)
Definition thingPixel (c : canvas) (picX picY physY : Z) (sp : color)
    (alpha : Z) : canvas :=
  if decide (alpha ≠ 0) then
    if decide (offCanvas c (picX, picY)) then c
    else
      let lastZ := zBuffer c (picX, picY) in
      if decide (physY > lastZ) then writePixel c (picX, picY) sp physY
      else c
  else c.

(** A sprite image with alpha band. *)
Record sprite : Type := Sprite {
  spriteSize : Z * Z;
  spx : pixel → color * Z }.

(** The two loops of [pasteThing] over the sprite, drawn at [(x, y)]. *)
Definition pasteThingPixels (c : canvas) (x y physY : Z) (s : sprite)
    : canvas :=
  foldl (λ c ij,
           thingPixel c (x - (spriteSize s).1 / 2 + ij.1)
                        (y - (spriteSize s).2 + ij.2)
                        physY (spx s ij).1 (spx s ij).2)
        c (coords (spriteSize s)).

(** One depth-tested pixel of a render. *)
Inductive paintOp : Type :=
| FloorPix (i j hx hy : Z) (litColor : option color)
| WallPix (t : pixel) (y : Z) (fg : color) (alpha : Z) (isTransparent : bool)
| ThingPix (picX picY physY : Z) (sp : color) (alpha : Z).

Definition applyOp (c : canvas) (op : paintOp) : canvas :=
  match op with
  | FloorPix i j hx hy litColor => floorPixel c i j hx hy litColor
  | WallPix t y fg alpha isTransparent => wallPixel c t y fg alpha isTransparent
  | ThingPix picX picY physY sp alpha => thingPixel c picX picY physY sp alpha
  end.

(** The pixel an operation aims at and the world depth it carries. *)
Definition opTarget (op : paintOp) : pixel :=
  match op with
  | FloorPix i j hx hy _ => (i - hx, j - hy)
  | WallPix t _ _ _ _ => t
  | ThingPix picX picY _ _ _ => (picX, picY)
  end.

Definition opDepth (op : paintOp) : Z :=
  match op with
  | FloorPix _ j _ _ _ => j
  | WallPix _ y _ _ _ => y
  | ThingPix _ _ physY _ _ => physY
  end.

(** The opacity a wall pixel is blended with. *)
Definition opOpaque (op : paintOp) : Prop :=
  match op with
  | WallPix _ _ _ alpha isTransparent =>
      (if isTransparent then 80 else alpha) >= 80
  | _ => True
  end.

(** A render: the pixels painted one after the other. *)
Definition render (c : canvas) (ops : list paintOp) : canvas :=
  foldl applyOp c ops.

(** The depth fits a cell of the [int16] buffer. *)
Definition fits16 (z : Z) : Prop := -32768 ≤ z < 32768.

(** ** Vocabulary of the statements about the blueprint *)

(** The cell of a raster position: its colour and its sector index. *)
Definition cell (b : blueprint) (q : pixel) : color * Z :=
  (px b q, sectorData b q).

(** Two blueprints hold the same data. *)
Definition sameState (b b' : blueprint) : Prop :=
  size b' = size b ∧ ∀ q, px b' q = px b q ∧ sectorData b' q = sectorData b q.

(** [px[q] = c] followed by [sectorData[q] = v] at a resolved position. *)
Definition paint (b : blueprint) (q : pixel) (c : color) (v : Z) : blueprint :=
  Blueprint (size b) (<[q := c]> (px b)) (<[q := int16 v]> (sectorData b)).

Definition nbr (p : pixel) (d : Z * Z) : pixel := (p.1 + d.1, p.2 + d.2).

(** The test that makes [floodFill] return [False]. *)
Definition onBorder (sz : Z * Z) (q : pixel) : Prop :=
  q.1 < 0 ∨ q.1 = sz.1 ∨ q.2 < 0 ∨ q.2 = sz.2.

(** A position none of whose four neighbours leaves the raster. *)
Definition interior (sz : Z * Z) (p : pixel) : Prop :=
  0 < p.1 < sz.1 - 1 ∧ 0 < p.2 < sz.2 - 1.

(** Whether the entry on top of the stack still has the colour to replace. *)
Definition topLive (b : blueprint) (erase : bool) (toGo : list pixel) : bool :=
  match toGo with
  | q :: _ =>
      match locate (size b) q with
      | Some q' => bool_decide (px b q' = currColor erase)
      | None => false
      end
  | [] => false
  end.

(** The quantity that every turn of the [while] loop decreases. *)
Definition potential (b : blueprint) (erase : bool) (toGo : list pixel) : nat :=
  (8 * countColor b (currColor erase) + length toGo
   + (if topLive b erase toGo then 0 else 4))%nat.

(** The states a forward fill for [sector] passes through, seen from the
    blueprint [orig] it started on: a cell is untouched, or it was
    background and is now filled. *)
Definition filledFrom (orig : blueprint) (sector : Z) (b : blueprint) : Prop :=
  size b = size orig ∧
  ∀ q, cell b q = cell orig q
       ∨ (inside (size orig) q ∧ px orig q = black
          ∧ cell b q = (cyan, int16 sector)).

(** Stack entries of a forward fill: background positions of [orig]. *)
Definition stackOk (orig : blueprint) (toGo : list pixel) : Prop :=
  Forall (λ q, inside (size orig) q ∧ px orig q = black) toGo.

(** The state [be] of the reverse fill that corresponds to the state [b] of
    the forward fill that ended in [G]: what the forward fill has not yet
    painted is still painted in [be], what it has painted is restored. *)
Definition mirrors (orig G b be : blueprint) : Prop :=
  size be = size orig ∧
  ∀ q, (cell b q = cell orig q → cell be q = cell G q)
       ∧ (cell b q ≠ cell orig q → cell be q = cell orig q).

(** Background pixels carry no sector index. *)
Definition backgroundClear (b : blueprint) : Prop :=
  ∀ q, inside (size b) q → px b q = black → sectorData b q = -1.

(** No background pixel touches a filled pixel. *)
Definition noLeak (b : blueprint) : Prop :=
  ∀ p d, inside (size b) p → d ∈ fillDirs → inside (size b) (nbr p d) →
         px b p = black → px b (nbr p d) ≠ cyan.

(** What holds of the blueprint between two fill attempts of [drawMap]:
    background and outline pixels carry no sector index, the filled
    regions are closed, and no filled pixel lies on the rim of the raster. *)
Definition blueprintInv (b : blueprint) : Prop :=
  backgroundClear b ∧ noLeak b
  ∧ (∀ q, inside (size b) q → px b q = white → sectorData b q = -1)
  ∧ (∀ q, inside (size b) q →
          px b q = black ∨ px b q = white
          ∨ (px b q = cyan ∧ interior (size b) q)).

(** Every sector index in the buffer comes from a sector satisfying [P]. *)
Definition sectorsFrom (P : Z → Prop) (b : blueprint) : Prop :=
  ∀ q, inside (size b) q →
       sectorData b q = -1 ∨ ∃ s, P s ∧ sectorData b q = int16 s.

(** Loop invariants of a forward fill that has not met the rim: what it
    has painted is interior, and every background neighbour of a painted
    pixel waits on the stack. *)
Definition paintedInterior (orig b : blueprint) : Prop :=
  ∀ q, cell b q ≠ cell orig q → interior (size orig) q.

Definition frontier (orig b : blueprint) (toGo : list pixel) : Prop :=
  ∀ p d, inside (size orig) p → d ∈ fillDirs → inside (size orig) (nbr p d) →
         cell b p ≠ cell orig p → px b (nbr p d) = black → nbr p d ∈ toGo.

(** The sectors for which [drawMap] starts flood fills. *)
Definition validSector (sectors : list Sector.t) (s : Z) : Prop :=
  ∃ sec, py_index sectors s = Ok sec ∧ Sector.HOMpassed sec = true.

(** *** Vocabulary for the seam repair *)

(** The sector index that the neighbour of [p] in direction [d] holds,
    [-1] when that neighbour is outside the raster. *)
Definition nbrSector (b : blueprint) (p : pixel) (d : Z * Z) : Z :=
  if decide (inside (size b) (nbr p d)) then sectorData b (nbr p d) else -1.

(** The largest sector index around [p], or [-1]. *)
Definition seamValue (b : blueprint) (p : pixel) : Z :=
  foldl (λ m d, Z.max m (nbrSector b p d)) (-1) seamDirs.

(** The cell that the seam repair leaves at [p]. *)
Definition seamCell (b : blueprint) (p : pixel) : color * Z :=
  if decide (px b p = white ∧ seamValue b p > -1)
  then (blue, seamValue b p) else cell b p.

(** The blueprint as the fill pass leaves it, with the outline clear of the
    last row and the last column of the raster. *)
Definition seamReady (b : blueprint) : Prop :=
  (∀ q, inside (size b) q → px b q ≠ blue)
  ∧ (∀ q, inside (size b) q → px b q = white → sectorData b q = -1)
  ∧ (∀ q, inside (size b) q → ¬ interior (size b) q → sectorData b q = -1)
  ∧ (∀ q, inside (size b) q → int16 (sectorData b q) = sectorData b q)
  ∧ (∀ q, inside (size b) q → px b q = white →
          q.1 < (size b).1 - 1 ∧ q.2 < (size b).2 - 1).

(** The state of the seam repair when the pixels [ps] are still to be
    visited. *)
Definition seamMid (b : blueprint) (ps : list pixel) (bt : blueprint) : Prop :=
  size bt = size b
  ∧ ∀ q, inside (size b) q →
         (q ∈ ps → cell bt q = cell b q) ∧ (q ∉ ps → cell bt q = seamCell b q).

(** [p] touches the resolved sector [s] and no other. *)
Definition adjacentOnly (b : blueprint) (p : pixel) (s : Z) : Prop :=
  s > -1
  ∧ (∃ d, d ∈ seamDirs ∧ inside (size b) (nbr p d)
          ∧ sectorData b (nbr p d) = s)
  ∧ (∀ d, d ∈ seamDirs → inside (size b) (nbr p d) →
          sectorData b (nbr p d) = s ∨ sectorData b (nbr p d) ≤ -1).

(** [p] touches no resolved sector. *)
Definition unresolvedAround (b : blueprint) (p : pixel) : Prop :=
  ∀ d, d ∈ seamDirs → inside (size b) (nbr p d) → sectorData b (nbr p d) ≤ -1.

(** *** Vocabulary for the validity check *)

(** The sector a side index of a linedef resolves to, as [checkHOM] and
    [drawMap] resolve it. *)
Definition sideSector (sidedefs : list SideDef.t) (sidedef : Z) : option Z :=
  if decide (sidedef ≠ 65535 ∧ sidedef < len sidedefs) then
    match py_index sidedefs sidedef with
    | Ok sd => Some (SideDef.sector sd)
    | Raise _ => None
    end
  else None.

Definition sideEntries (sidedefs : list SideDef.t) (linedef : LineDef.t)
    (sidedef : Z) (k : Z) : list Z :=
  if decide (sideSector sidedefs sidedef = Some k)
  then [LineDef.beg linedef; LineDef.end_ linedef] else [].

(** The vertex indices recorded for sector [k]: two per side facing it. *)
Fixpoint boundingEntries (sidedefs : list SideDef.t)
    (linedefs : list LineDef.t) (k : Z) : list Z :=
  match linedefs with
  | [] => []
  | l :: rest =>
      sideEntries sidedefs l (LineDef.front l) k
      ++ sideEntries sidedefs l (LineDef.back l) k
      ++ boundingEntries sidedefs rest k
  end.

(** The recorded vertices that exist. *)
Definition boundingPoints (vertexes : list Vertex.t) (entries : list Z)
    : list Vertex.t :=
  omap (λ v, if decide (0 ≤ v < len vertexes)
             then vertexes !! Z.to_nat v else None) entries.

(** What makes [checkHOM] reject a sector: fewer than three recorded
    sides, or recorded vertices that span less than 2 units in x or in y
    (in particular, no recorded vertex that exists). *)
Definition degenerate (vertexes : list Vertex.t) (entries : list Z) : Prop :=
  len entries < 6
  ∨ (∀ a b, a ∈ boundingPoints vertexes entries →
            b ∈ boundingPoints vertexes entries →
            Vertex.x a - Vertex.x b < 2)
  ∨ (∀ a b, a ∈ boundingPoints vertexes entries →
            b ∈ boundingPoints vertexes entries →
            Vertex.y a - Vertex.y b < 2).

(** A sector as [getSectors] creates it. *)
Definition freshSector (s : Sector.t) : Prop :=
  Sector.listOfVerteces s = [] ∧ Sector.HOMpassed s = true.

(** Index fields as the loaders decode them (unsigned 16-bit), with every
    side pointing at an existing sector. *)
Definition wfLinedef (l : LineDef.t) : Prop :=
  0 ≤ LineDef.beg l ∧ 0 ≤ LineDef.end_ l
  ∧ 0 ≤ LineDef.front l ∧ 0 ≤ LineDef.back l.

Definition wfSidedef (sectors : list Sector.t) (sd : SideDef.t) : Prop :=
  0 ≤ SideDef.sector sd < 65536 ∧ SideDef.sector sd < len sectors.

(** [s] with [es] appended to its vertex list. *)
Definition withEntries (es : list Z) (s : Sector.t) : Sector.t :=
  Sector.Make (Sector.floorHeight s) (Sector.ceilingHeight s)
    (Sector.floorTexture s) (Sector.ceilingTexture s) (Sector.light s)
    (Sector.listOfVerteces s ++ es) (Sector.HOMpassed s).

(** The blueprint before the first fill: outlines on background. *)
Definition freshBlueprint (b : blueprint) : Prop :=
  ∀ q, inside (size b) q →
       (px b q = black ∨ px b q = white) ∧ sectorData b q = -1.

(** The rejection criterion in the words of the specification: fewer than
    three distinct bounding points, or a bounding box that spans 2 units or
    less in x or in y. *)
Definition span (l : list Z) : Z := py_max l - py_min l.

#[global] Instance vertex_eq_dec : EqDecision Vertex.t.
Proof. solve_decision. Defined.

Definition claimedDegenerate (vertexes : list Vertex.t) (entries : list Z)
    : Prop :=
  (length (remove_dups (boundingPoints vertexes entries)) < 3)%nat
  ∨ span (Vertex.x <$> boundingPoints vertexes entries) ≤ 2
  ∨ span (Vertex.y <$> boundingPoints vertexes entries) ≤ 2.

(** The sector-index buffer holds 16-bit values, none of them [k]. *)
Definition avoids (k : Z) (b : blueprint) : Prop :=
  ∀ q, inside (size b) q →
       sectorData b q ≠ k ∧ int16 (sectorData b q) = sectorData b q.

(** *** Vocabulary for wall synthesis *)

(** Index [i] is not negative and [l[i]] is [a]. *)
Definition resolves {A} (l : list A) (i : Z) (a : A) : Prop :=
  0 ≤ i ∧ l !! Z.to_nat i = Some a.

(** A linedef whose vertices, two sides and two sectors all exist. *)
Definition twoSided (vertexes : list Vertex.t) (sidedefs : list SideDef.t)
    (sectors : list Sector.t) (linedef : LineDef.t)
    (start end_ : Vertex.t) (fsd bsd : SideDef.t) (fs bs : Sector.t) : Prop :=
  resolves vertexes (LineDef.beg linedef) start
  ∧ resolves vertexes (LineDef.end_ linedef) end_
  ∧ resolves sidedefs (LineDef.front linedef) fsd
  ∧ resolves sidedefs (LineDef.back linedef) bsd
  ∧ LineDef.back linedef ≠ 65535
  ∧ resolves sectors (SideDef.sector fsd) fs
  ∧ resolves sectors (SideDef.sector bsd) bs.

(** The ceiling texture names the sky. *)
Definition isSkyCeiling (s : Sector.t) : bool :=
  str_in "F_SKY1" (Sector.ceilingTexture s).

(** *** Vocabulary for the colour passes *)

(** The band values of a pixel are bytes. *)
Definition byteColor (c : color) : Prop :=
  0 ≤ c.1.1 ≤ 255 ∧ 0 ≤ c.1.2 ≤ 255 ∧ 0 ≤ c.2 ≤ 255.

(** *** Small concrete inputs *)

(** A 3 x 3 blueprint that is all background. *)
Definition demoBlueprint : blueprint :=
  Blueprint (3, 3) (λ _, black) (λ _, -1).

(** A 4 x 3 blueprint: an outline pixel at (1, 1) next to a pixel of
    sector 5 at (2, 1). *)
Definition demoSeam : blueprint :=
  Blueprint (4, 3)
    (λ q, if decide (q = (1, 1)) then white
          else if decide (q = (2, 1)) then cyan else black)
    (λ q, if decide (q = (2, 1)) then 5 else -1).

(** Two vertices, ten units apart in x and in y, and a sector. *)
Definition demoStart : Vertex.t := Vertex.Make 0 0.
Definition demoEnd : Vertex.t := Vertex.Make 10 10.
Definition demoVertexes : list Vertex.t := [demoStart; demoEnd].
Definition demoFrontSide : SideDef.t := SideDef.Make 0 0 "-" "-" "STONE" 0.
Definition demoBackSide : SideDef.t := SideDef.Make 0 0 "-" "-" "-" 1.
Definition demoSidedefs : list SideDef.t := [demoFrontSide; demoBackSide].
Definition demoFrontSector : Sector.t :=
  Sector.Make 0 128 "FLOOR" "F_SKY1" 160 [] true.
Definition demoBackSector : Sector.t :=
  Sector.Make 16 96 "FLOOR" "CEIL" 128 [] true.
Definition demoSectors : list Sector.t := [demoFrontSector; demoBackSector].

(** One one-sided linedef: sector 0 is bounded by a single side. *)
Definition demoLinedefs1 : list LineDef.t :=
  [LineDef.Make 0 1 0 65535 0 0].

(** Three one-sided linedefs between the same two vertices: six vertex
    entries for sector 0, but only two distinct points. *)
Definition demoLinedefs3 : list LineDef.t :=
  [LineDef.Make 0 1 0 65535 0 0; LineDef.Make 1 0 0 65535 0 0;
   LineDef.Make 0 1 0 65535 0 0].

(** A triangle whose bounding box is exactly 2 by 2. *)
Definition demoTriangle : list Vertex.t :=
  [Vertex.Make 0 0; Vertex.Make 2 0; Vertex.Make 0 2].
Definition demoTriangleLinedefs : list LineDef.t :=
  [LineDef.Make 0 1 0 65535 0 0; LineDef.Make 1 2 0 65535 0 0;
   LineDef.Make 2 0 0 65535 0 0].

(** A two-sided linedef between the two sectors. *)
Definition demoTwoSided : LineDef.t := LineDef.Make 0 1 0 1 0 0.

(** A power function with [x ** gamma = x]; it agrees with Python's at
    [gamma = 1]. *)
Definition demoPow (x gamma : float) : result float := Ok x.

(** Two sprite pixels that land on the same position of a canvas 50000
    rows high, the first at world depth 30000, the second at 40000. *)
Definition demoFar : paintOp := ThingPix 5 39990 30000 (0, 255, 0) 255.
Definition demoNear : paintOp := ThingPix 5 39990 40000 (255, 0, 0) 255.

(** ** Further parts of the program *)

(** ** Lump names and the pseudo-file of a lump *)

(** [addTrailingZeros]: a name shorter than 8 is padded with [\x00]. *)
Definition addTrailingZeros (name : string) : string :=
  if decide (String.length name < 8)%nat
  then (name ++ nuls (8 - String.length name))%string
  else name.

(** [removeTrailingZeros]: the name up to its first [\x00]. *)
Fixpoint removeTrailingZeros (name : string) : string :=
  match name with
  | EmptyString => EmptyString
  | String c rest =>
      if decide (c = NUL) then EmptyString
      else String c (removeTrailingZeros rest)
  end.

(** [l[a:b]] for any two integers: a negative index counts from the end
    and both ends are clamped to the list. *)
Definition py_slice_any {A} (l : list A) (a b : Z) : list A :=
  let bound i :=
    if decide (i < 0) then Z.max (i + len l) 0 else Z.min i (len l) in
  take (Z.to_nat (bound b - bound a)) (drop (Z.to_nat (bound a)) l).

(** [Lump.seek] and [Lump.reset]. *)
Definition Lump_seek (newPosition : Z) (lump : Lump.t) : Lump.t :=
  Lump.Make (Lump.data lump) newPosition.

Definition Lump_reset (lump : Lump.t) : Lump.t :=
  Lump.Make (Lump.data lump) 0.

(** [Lump.read] at any position, also one that [seek] made negative;
    [lumpRead] is its restriction to the positions a sequential reader
    passes through. *)
Definition Lump_read (nBytes : Z) (lump : Lump.t) : list byte * Lump.t :=
  let newPosition := Z.min (Lump.position lump + nBytes)
                           (len (Lump.data lump)) in
  (py_slice_any (Lump.data lump) (Lump.position lump) newPosition,
   Lump.Make (Lump.data lump) newPosition).

(** A string without [\x00]. *)
Fixpoint nulFree (name : string) : Prop :=
  match name with
  | EmptyString => True
  | String c rest => c ≠ NUL ∧ nulFree rest
  end.

(** ** The WAD directory (class [WADData] over the bytes of a WAD) *)

(** A directory entry [[filePos, size, lumpName]]. *)
Module Info.
Record t : Type := Make { filePos : Z; size : Z; lumpName : string }.
End Info.

(** The attributes of a [WADData] object; [fs] is the pseudo-file that
    [WADData(bytedata=...)] wraps around the bytes. *)
Module WADData.
Record t : Type := Make {
  fs : Lump.t; numLumps : Z; infoTableOfs : Z;
  infoTable : list Info.t; mapInfoTable : list Info.t; mapFound : bool }.
End WADData.

(** The [for i in range(self.numLumps)] loop of [readWADdirectory]. *)
Fixpoint directoryLoop (n : nat) (fs : Lump.t) (infoTable : list Info.t)
    : list Info.t * Lump.t :=
  match n with
  | O => (infoTable, fs)
  | S n' =>
      let '(b, fs) := Lump_read 4 fs in
      let filePos := fromBytesSigned b in
      let '(b, fs) := Lump_read 4 fs in
      let size := fromBytesSigned b in
      let '(b, fs) := Lump_read 8 fs in
      let lumpName := string_of_list_byte b in
      directoryLoop n' fs (infoTable ++ [Info.Make filePos size lumpName])
  end.

(** [readWADdirectory]: the directory and the pseudo-file after reading. *)
Definition readWADdirectory (fs : Lump.t) (infoTableOfs numLumps : Z)
    : list Info.t * Lump.t :=
  directoryLoop (Z.to_nat numLumps) (Lump_seek infoTableOfs fs) [].

(** The lumps of a map, as [setMap] names them in the directory. *)
Definition requiredLumps : list string :=
  ["VERTEXES"; "LINEDEFS"; "SIDEDEFS";
   String.append "SECTORS" (nuls 1); String.append "THINGS" (nuls 2)].

(** [del l[l.index(x)]]. *)
Fixpoint removeFirst (x : string) (l : list string) : list string :=
  match l with
  | [] => []
  | y :: l' => if decide (y = x) then l' else y :: removeFirst x l'
  end.

(** The [for info in self.infoTable] loop of [setMap]: the map's
    directory and the value returned. *)
Fixpoint setMapLoop (mapNameFixed : string) (infos : list Info.t)
    (mapInfoTable : list Info.t) (foundMap : bool)
    (requiredLumps : list string) : list Info.t * bool :=
  match infos with
  | [] => (mapInfoTable, false)
  | info :: rest =>
      let foundMap :=
        if str_in mapNameFixed (Info.lumpName info) then true else foundMap in
      let '(mapInfoTable, requiredLumps) :=
        if foundMap && bool_decide (Info.lumpName info ∈ requiredLumps)
        then (mapInfoTable ++ [info],
              removeFirst (Info.lumpName info) requiredLumps)
        else (mapInfoTable, requiredLumps) in
      if decide (len requiredLumps = 0) then (mapInfoTable, true)
      else setMapLoop mapNameFixed rest mapInfoTable foundMap requiredLumps
  end.

(** [setMap]: the value returned and the object afterwards.  [mapFound]
    is only ever set. *)
Definition setMap (wad : WADData.t) (mapName : string) : bool * WADData.t :=
  let r := setMapLoop (addTrailingZeros mapName) (WADData.infoTable wad)
             [] false requiredLumps in
  (r.2,
   WADData.Make (WADData.fs wad) (WADData.numLumps wad)
     (WADData.infoTableOfs wad) (WADData.infoTable wad) r.1
     (if r.2 then true else WADData.mapFound wad)).

(** The first entry of a directory with the given name: the
    [for info in lumpInfo] loop of [getLump]. *)
Fixpoint findLump (fixedLumpName : string) (lumpInfo : list Info.t)
    : option Info.t :=
  match lumpInfo with
  | [] => None
  | info :: rest =>
      if decide (Info.lumpName info = fixedLumpName) then Some info
      else findLump fixedLumpName rest
  end.

Definition mapLumpNames : list string :=
  ["VERTEXES"; "LINEDEFS"; "SIDEDEFS"; "SECTORS"; "THINGS"].

(** [getLump]: the lump, or [None], and the object with its file pointer
    moved. *)
Definition getLump (wad : WADData.t) (lumpName : string)
    : option Lump.t * WADData.t :=
  let lumpInfo :=
    if bool_decide (lumpName ∈ mapLumpNames) then WADData.mapInfoTable wad
    else WADData.infoTable wad in
  let fixedLumpName := addTrailingZeros lumpName in
  match findLump fixedLumpName lumpInfo with
  | Some info =>
      let '(bs, fs) :=
        Lump_read (Info.size info)
                  (Lump_seek (Info.filePos info) (WADData.fs wad)) in
      (Some (Lump.Make bs 0),
       WADData.Make fs (WADData.numLumps wad) (WADData.infoTableOfs wad)
         (WADData.infoTable wad) (WADData.mapInfoTable wad)
         (WADData.mapFound wad))
  | None => (None, wad)
  end.

(** The directory from the first entry whose name contains the map name. *)
Fixpoint fromMarker (mapNameFixed : string) (infos : list Info.t)
    : list Info.t :=
  match infos with
  | [] => []
  | info :: rest =>
      if str_in mapNameFixed (Info.lumpName info) then infos
      else fromMarker mapNameFixed rest
  end.

(** The bytes of a lump laid out at [filePos]. *)
Definition lumpBytes (data : list byte) (info : Info.t) : list byte :=
  py_slice data (Info.filePos info) (Info.filePos info + Info.size info).

(** A directory of one entry, [[12, 4, "E1M1"]], as its sixteen bytes. *)
Definition demoDirectoryBytes : list byte :=
  [x0c; x00; x00; x00; x04; x00; x00; x00;
   x45; x31; x4d; x31; x00; x00; x00; x00].

(** A WAD object whose directory holds the marker of E1M1 and its five
    lumps, each of four bytes, over a file of 32 bytes. *)
Definition demoWAD : WADData.t :=
  WADData.Make (Lump.Make (replicate 32 x07) 0) 6 32
    [Info.Make 0 0 (addTrailingZeros "E1M1");
     Info.Make 12 4 (addTrailingZeros "THINGS");
     Info.Make 16 4 "LINEDEFS"; Info.Make 20 4 "SIDEDEFS";
     Info.Make 24 4 "VERTEXES"; Info.Make 28 4 (addTrailingZeros "SECTORS")]
    [] false.

(** The directory entry stored in the sixteen bytes at
    [infoTableOfs + 16 * k]. *)
Definition directoryEntry (data : list byte) (infoTableOfs : Z) (k : nat)
    : Info.t :=
  let a := infoTableOfs + 16 * Z.of_nat k in
  Info.Make (fromBytesSigned (py_slice data a (a + 4)))
            (fromBytesSigned (py_slice data (a + 4) (a + 8)))
            (string_of_list_byte (py_slice data (a + 8) (a + 16))).

(** ** Palette, colour map and the lighting tables *)

(** [int.from_bytes(lump.read(1), "little", signed=False)]. *)
Definition readByte (lump : Lump.t) : Z * Lump.t :=
  let '(b, lump) := Lump_read 1 lump in (fromBytes b, lump).

(** The [for i in range(256)] loop of [getPallete]. *)
Fixpoint palleteLoop (n : nat) (lump : Lump.t) (pallete : list color)
    : list color :=
  match n with
  | O => pallete
  | S n' =>
      let '(r, lump) := readByte lump in
      let '(g, lump) := readByte lump in
      let '(b, lump) := readByte lump in
      palleteLoop n' lump (pallete ++ [(r, g, b)])
  end.

(** [getPallete]. *)
Definition getPallete (lump : option Lump.t) : list color :=
  match lump with
  | None => []
  | Some lump => palleteLoop 256 lump []
  end.

(** The [for j in range(256)] loop of [getColorMap]. *)
Fixpoint colorMapRow (n : nat) (lump : Lump.t) (row : list Z)
    : list Z * Lump.t :=
  match n with
  | O => (row, lump)
  | S n' =>
      let '(v, lump) := readByte lump in
      colorMapRow n' lump (row ++ [v])
  end.

(** The [for i in range(34)] loop of [getColorMap]. *)
Fixpoint colorMapLoop (n : nat) (lump : Lump.t) (colorMap : list (list Z))
    : list (list Z) :=
  match n with
  | O => colorMap
  | S n' =>
      let '(row, lump) := colorMapRow 256 lump [] in
      colorMapLoop n' lump (colorMap ++ [row])
  end.

(** [getColorMap]. *)
Definition getColorMap (lump : option Lump.t) : list (list Z) :=
  match lump with
  | None => []
  | Some lump => colorMapLoop 34 lump []
  end.

(** The [for j in range(256)] loop of [genColorConversion] for light
    level [i]: [colorConv[-1][pallete[j]] = pallete[colorMap[i][j]]], the
    right-hand side first. *)
Fixpoint conversionRow (pallete : list color) (colorMap : list (list Z))
    (i : Z) (js : list Z) (conv : gmap color color)
    : result (gmap color color) :=
  match js with
  | [] => Ok conv
  | j :: js' =>
      row ← py_index colorMap i;
      idx ← py_index row j;
      v ← py_index pallete idx;
      k ← py_index pallete j;
      conversionRow pallete colorMap i js' (<[k := v]> conv)
  end.

(** The [for i in range(34)] loop of [genColorConversion]. *)
Fixpoint conversionLoop (pallete : list color) (colorMap : list (list Z))
    (levels : list Z) (colorConv : list (gmap color color))
    : result (list (gmap color color)) :=
  match levels with
  | [] => Ok colorConv
  | i :: levels' =>
      conv ← conversionRow pallete colorMap i (seqZ 0 256) ∅;
      conversionLoop pallete colorMap levels' (colorConv ++ [conv])
  end.

(** [genColorConversion]. *)
Definition genColorConversion (pallete : list color)
    (colorMap : list (list Z)) : result (list (gmap color color)) :=
  conversionLoop pallete colorMap (seqZ 0 34) [].

(** The asset code also raises [KeyError], on a colour that a lighting
    table does not hold. *)
Inductive raised : Type :=
| Builtin (e : exn)
| KeyError.

Inductive outcome (A : Type) : Type :=
| Returns (a : A)
| Throws (r : raised).
Arguments Returns {A} a.
Arguments Throws {A} r.

(** The body of the two loops of [lightImage].  [px[i, j][3]] needs the
    alpha band; the lit colour is stored with the alpha that was read. *)
Definition lightPixel (light : Z) (colorConversion : list (gmap color color))
    (p : pix) : outcome pix :=
  match p with
  | RGB _ => Throws (Builtin IndexError)
  | RGBA rawColor opacity =>
      match py_index colorConversion light with
      | Raise e => Throws (Builtin e)
      | Ok table =>
          match table !! rawColor with
          | None => Throws KeyError
          | Some litColor => Returns (RGBA (clipColor litColor) opacity)
          end
      end
  end.

(** [lightImage] on the pixels of the image in loop order. *)
Fixpoint lightImage (im : list pix) (light : Z)
    (colorConversion : list (gmap color color)) : outcome (list pix) :=
  match im with
  | [] => Returns []
  | p :: rest =>
      match lightPixel light colorConversion p with
      | Throws r => Throws r
      | Returns p' =>
          match lightImage rest light colorConversion with
          | Throws r => Throws r
          | Returns rest' => Returns (p' :: rest')
          end
      end
  end.

(** [lightLevel = 31 - light // 8], the index that [getWallImage],
    [pasteThing] and the floor painter pass on. *)
Definition lightLevel (light : Z) : Z := 31 - light / 8.

(** The byte of a lump at offset [a], [0] beyond the end of the data: what
    [int.from_bytes(lump.read(1), ...)] gives there. *)
Definition byteAt (data : list byte) (a : Z) : Z :=
  fromBytes (py_slice data a (a + 1)).

(** The palette colour stored in the three bytes at [3 * k]. *)
Definition palleteEntry (data : list byte) (k : nat) : color :=
  (byteAt data (3 * Z.of_nat k), byteAt data (3 * Z.of_nat k + 1),
   byteAt data (3 * Z.of_nat k + 2)).

(** An image every pixel of which has the alpha band and a colour of the
    palette. *)
Definition palletized (pallete : list color) (im : list pix) : Prop :=
  Forall (λ p, ∃ c a, p = RGBA c a ∧ c ∈ pallete) im.

(** A PLAYPAL lump cut off after two colours, and a COLORMAP lump cut off
    after two entries, which map colours 0 and 1 to colour 1 at the first
    light level. *)
Definition demoPlaypal : Lump.t :=
  Lump.Make [x00; x00; x00; xff; x80; x00] 0.
Definition demoColormap : Lump.t := Lump.Make [x01; x01] 0.

(** The lighting tables of the two lumps. *)
Definition demoConversion : list (gmap color color) :=
  match genColorConversion (getPallete (Some demoPlaypal))
          (getColorMap (Some demoColormap))
        return list (gmap color color) with
  | Ok colorConv => colorConv
  | Raise _ => @nil (gmap color color)
  end.

(** ** [getBasicData] *)

(** The five lists of a level. *)
Module Level.
Record t : Type := Make {
  vertexes : list Vertex.t; linedefs : list LineDef.t;
  sidedefs : list SideDef.t; sectors : list Sector.t;
  things : list Thing.t }.
End Level.

Section getBasicData.
Variable upper : string → string.

(** [getBasicData]: [None] stands for the five [False] returned when the
    map was not found.  Each [getLump] moves the file pointer of [wad]. *)
Definition getBasicData (wad : WADData.t) (zStyle : bool)
    : result (option Level.t * list color * list (list Z)) :=
  let '(lump, wad) := getLump wad "PLAYPAL" in
  let pallete := getPallete lump in
  let '(lump, wad) := getLump wad "COLORMAP" in
  let colorMap := getColorMap lump in
  if negb (WADData.mapFound wad) then Ok (None, pallete, colorMap)
  else
    let '(lump, wad) := getLump wad "VERTEXES" in
    vertexes ← getVertixes lump;
    let '(lump, wad) := getLump wad "LINEDEFS" in
    linedefs ← getLineDefs lump zStyle;
    let '(lump, wad) := getLump wad "SIDEDEFS" in
    sidedefs ← getSideDefs upper lump;
    let '(lump, wad) := getLump wad "SECTORS" in
    sectors ← getSectors upper lump;
    let '(lump, wad) := getLump wad "THINGS" in
    things ← getThings lump zStyle;
    Ok (Some (Level.Make vertexes linedefs sidedefs sectors things),
        pallete, colorMap).
End getBasicData.

(** Two states of a WAD object that differ at most in the file pointer. *)
Definition sameWAD (w1 w2 : WADData.t) : Prop :=
  Lump.data (WADData.fs w1) = Lump.data (WADData.fs w2)
  ∧ WADData.infoTable w1 = WADData.infoTable w2
  ∧ WADData.mapInfoTable w1 = WADData.mapInfoTable w2
  ∧ WADData.mapFound w1 = WADData.mapFound w2.

(** ** The record layout of the level lumps *)

(** The unsigned and the signed 16-bit little-endian number in the two
    bytes at offset [a]. *)
Definition u16At (data : list byte) (a : Z) : Z :=
  fromBytes (py_slice data a (a + 2)).
Definition s16At (data : list byte) (a : Z) : Z :=
  fromBytesSigned (py_slice data a (a + 2)).

(** Record [k] of a VERTEXES lump. *)
Definition vertexAt (data : list byte) (k : nat) : Vertex.t :=
  let a := 4 * Z.of_nat k in
  Vertex.Make (s16At data a) (- s16At data (a + 2)).

(** Record [k] of a LINEDEFS lump, of 14 bytes, or of 16 in the ZDoom
    layout. *)
Definition lineDefAt (zStyle : bool) (data : list byte) (k : nat)
    : LineDef.t :=
  let size := if zStyle then 16 else 14 in
  let a := size * Z.of_nat k in
  LineDef.Make (u16At data a) (u16At data (a + 2))
    (u16At data (a + size - 4)) (u16At data (a + size - 2))
    (Z.b2z (Z.testbit (u16At data (a + 4)) 3))
    (Z.b2z (Z.testbit (u16At data (a + 4)) 4)).

(** Record [k] of a THINGS lump, of 10 bytes, or of 20 in the ZDoom
    layout. *)
Definition thingAt (zStyle : bool) (data : list byte) (k : nat) : Thing.t :=
  if zStyle then
    let a := 20 * Z.of_nat k in
    Thing.Make (s16At data (a + 2)) (- s16At data (a + 4))
      (s16At data (a + 8)) (s16At data (a + 10)) (s16At data (a + 12))
      EmptyString false
  else
    let a := 10 * Z.of_nat k in
    Thing.Make (s16At data a) (- s16At data (a + 2))
      (s16At data (a + 4)) (s16At data (a + 6)) (s16At data (a + 8))
      EmptyString false.

(** A VERTEXES lump of one vertex, (3, 2) in the map, and a stray byte. *)
Definition demoVertexBytes : list byte := [x03; x00; x02; x00; xff].

(** *** Vocabulary for the filled region *)

(** The background region of [p]: the positions that a path of steps to
    one of the four neighbours reaches from [p] through background pixels
    inside the raster. *)
Inductive connected (b : blueprint) (p : pixel) : pixel → Prop :=
| connected_start : connected b p p
| connected_step q d :
    connected b p q → d ∈ fillDirs → inside (size b) (nbr q d) →
    px b (nbr q d) = black → connected b p (nbr q d).

(** A 5 x 5 blueprint with a closed outline around its centre. *)
Definition demoRoom : blueprint :=
  Blueprint (5, 5)
    (λ q, if decide (q = (2, 2)) then black
          else if decide (1 ≤ q.1 ≤ 3 ∧ 1 ≤ q.2 ≤ 3) then white else black)
    (λ _, -1).

(** ** [getImageSizeOffset] *)

(** [float(n)] for a Python integer: the nearest double, ties to even;
    an integer beyond the range of doubles raises. *)
Definition floatOfInt (n : Z) : result float :=
  let f := SF2Prim (binary_normalize prec emax n 0 false) in
  match Prim2SF f with
  | S754_infinity _ => Raise OverflowError
  | _ => Ok f
  end.

(** [int(v - height * hCoef)] for two integers and a float. *)
Definition project (v height : Z) (hCoef : float) : result Z :=
  h ← floatOfInt height;
  f ← floatOfInt v;
  truncFloat (PrimFloat.sub f (PrimFloat.mul h hCoef)).

(** The four running extrema. *)
Record bounds : Type := Bounds { minX : Z; minY : Z; maxX : Z; maxY : Z }.

Section getImageSizeOffset.
Variables (vertexes : list Vertex.t) (sidedefs : list SideDef.t)
          (sectors : list Sector.t).
(** [options["margins"]], [options["coefX"]] and [options["coefY"]], the
    coefficients as floats, which is how [convertDocOptions] passes them. *)
Variables (margins : Z) (hCoefX hCoefY : float).

(** The body of [for vertex in [linedef.beg, linedef.end]]. *)
Definition accountVertex (height : Z) (bd : bounds) (vertex : Z)
    : result bounds :=
  if decide (vertex >= len vertexes) then Ok bd
  else
    v ← py_index vertexes vertex;
    let bd := Bounds (Z.min (minX bd) (Vertex.x v)) (Z.min (minY bd) (Vertex.y v))
                     (Z.max (maxX bd) (Vertex.x v)) (Z.max (maxY bd) (Vertex.y v)) in
    x ← project (Vertex.x v) height hCoefX;
    y ← project (Vertex.y v) height hCoefY;
    Ok (Bounds (Z.min (minX bd) x) (Z.min (minY bd) y)
               (Z.max (maxX bd) x) (Z.max (maxY bd) y)).

(** The body of [for sidedef in [linedef.front, linedef.back]]. *)
Definition accountSide (linedef : LineDef.t) (bd : bounds) (sidedef : Z)
    : result bounds :=
  if decide (sidedef = 65535 ∨ sidedef >= len sidedefs) then Ok bd
  else
    sd ← py_index sidedefs sidedef;
    let sectorN := SideDef.sector sd in
    sector ← py_index sectors sectorN;
    bd ← accountVertex (Sector.floorHeight sector) bd (LineDef.beg linedef);
    bd ← accountVertex (Sector.floorHeight sector) bd (LineDef.end_ linedef);
    bd ← accountVertex (Sector.ceilingHeight sector) bd (LineDef.beg linedef);
    accountVertex (Sector.ceilingHeight sector) bd (LineDef.end_ linedef).

(** [for linedef in linedefs]. *)
Fixpoint accountLinedefs (linedefs : list LineDef.t) (bd : bounds)
    : result bounds :=
  match linedefs with
  | [] => Ok bd
  | linedef :: rest =>
      bd ← accountSide linedef bd (LineDef.front linedef);
      bd ← accountSide linedef bd (LineDef.back linedef);
      accountLinedefs rest bd
  end.

(** [getImageSizeOffset]: the size of the image and the offset that turns
    map coordinates into image coordinates. *)
Definition getImageSizeOffset (linedefs : list LineDef.t)
    : result (Z * Z * Z * Z) :=
  bd ← accountLinedefs linedefs (Bounds 100000 100000 (-100000) (-100000));
  Ok (maxX bd - minX bd + 2 * margins, maxY bd - minY bd + 2 * margins,
      - minX bd + margins, - minY bd + margins).
End getImageSizeOffset.

(** A side of a linedef that [getImageSizeOffset] and the fill pass look
    at. *)
Definition liveSide (sidedefs : list SideDef.t) (linedef : LineDef.t)
    (sidedef : Z) : Prop :=
  (sidedef = LineDef.front linedef ∨ sidedef = LineDef.back linedef)
  ∧ sidedef ≠ 65535 ∧ sidedef < len sidedefs.

(** [bd'] reaches at least as far as [bd]. *)
Definition extends (bd bd' : bounds) : Prop :=
  minX bd' ≤ minX bd ∧ minY bd' ≤ minY bd
  ∧ maxX bd ≤ maxX bd' ∧ maxY bd ≤ maxY bd'.

Definition covers (bd : bounds) (x y : Z) : Prop :=
  minX bd ≤ x ≤ maxX bd ∧ minY bd ≤ y ≤ maxY bd.

(** The blank raster of the size [getImageSizeOffset] gives for the demo
    level with margins 300. *)
Definition demoRaster : blueprint :=
  Blueprint (610, 674) (λ _, black) (λ _, -1).

(** *** Vocabulary for the palette search *)

(** Every cached entry is the result the search would give. *)
Definition cacheOk (pallete : list color) (mem : gmap color color) : Prop :=
  ∀ k c, mem !! k = Some c → c = (closestScan k pallete).1.

(** [c] is a colour of the palette that no other is closer to [pixel]. *)
Definition nearest (pallete : list color) (pixel c : color) : Prop :=
  c ∈ pallete
  ∧ ∀ pal, pal ∈ pallete → colorDistance pixel c ≤ colorDistance pixel pal.

(** A palette of three colours. *)
Definition demoPallete : list color := [(0, 0, 0); (255, 0, 0); (0, 0, 255)].

(** ** Flats *)

(** A PIL image: its size and its pixels, all with or all without the
    alpha band. *)
Record image : Type := Image { imSize : Z * Z; imPx : pixel → pix }.

(** [Image.new("RGB", size, (0, 0, 0))] and
    [Image.new("RGBA", size, (0, 0, 0, 0))]. *)
Definition newRGB (sz : Z * Z) : image := Image sz (λ _, RGB (0, 0, 0)).
Definition newRGBA (sz : Z * Z) : image := Image sz (λ _, RGBA (0, 0, 0) 0).

(** [px[p] = c] for a position inside the image and an RGB triple. *)
Definition setRGB (im : image) (p : pixel) (c : color) : image :=
  Image (imSize im) (<[p := storeRGB (imPx im p) (clipColor c)]> (imPx im)).

(** The [for j in range(height)] loop of [createFlat]: one column and the
    read pointer after it. *)
Fixpoint createFlatColumn (pallete : list color) (rawFlat : list byte)
    (n : nat) (pointer : Z) (column : list color)
    : result (list color * Z) :=
  match n with
  | O => Ok (column, pointer)
  | S n' =>
      b ← py_index rawFlat pointer;
      color ← py_index pallete (Z.of_N (Byte.to_N b));
      createFlatColumn pallete rawFlat n' (pointer + 1) (column ++ [color])
  end.

(** The [for i in range(width)] loop of [createFlat]. *)
Fixpoint createFlatLoop (pallete : list color) (rawFlat : list byte)
    (height : nat) (n : nat) (pointer : Z) (out : list (list color))
    : result (list (list color)) :=
  match n with
  | O => Ok out
  | S n' =>
      r ← createFlatColumn pallete rawFlat height pointer [];
      createFlatLoop pallete rawFlat height n' r.2 (out ++ [r.1])
  end.

(** [createFlat]. *)
Definition createFlat (rawFlat : list byte) (pallete : list color)
    : result (list (list color)) :=
  let width := 64 in
  let height := len rawFlat / width in
  createFlatLoop pallete rawFlat (Z.to_nat height) (Z.to_nat width) 0 [].

(** The two loops of [flat2pic]. *)
Fixpoint flat2picLoop (flat : list (list color)) (ps : list pixel)
    (im : image) : result image :=
  match ps with
  | [] => Ok im
  | p :: rest =>
      column ← py_index flat p.1;
      c ← py_index column p.2;
      flat2picLoop flat rest (setRGB im p c)
  end.

(** [flat2pic]. *)
Definition flat2pic (flat : list (list color)) : result image :=
  let width := len flat in
  column0 ← py_index flat 0;
  let height := len column0 in
  flat2picLoop flat (coords (width, height)) (newRGB (width, height)).

(** [pic2flat]. *)
Definition pic2flat (pic : image) : list (list color) :=
  (λ i, (λ j, rgb (imPx pic (i, j))) <$> seqZ 0 (imSize pic).2)
    <$> seqZ 0 (imSize pic).1.

(** A flat of [height] entries in each column, all of them byte colours. *)
Definition rectangular (height : nat) (flat : list (list color)) : Prop :=
  Forall (λ column, length column = height ∧ Forall byteColor column) flat.

(** The byte of a raw flat at [k] as a palette index. *)
Definition rawIndex (rawFlat : list byte) (k : nat) : option Z :=
  (λ b, Z.of_N (Byte.to_N b)) <$> rawFlat !! k.

Definition demoFlat : list (list color) :=
  [[(1, 2, 3); (4, 5, 6)]; [(7, 8, 9); (10, 11, 12)]; [(0, 0, 0); (255, 255, 255)]].

(** The entry [flat[p.1][p.2]], black where there is none. *)
Definition flatAt (flat : list (list color)) (p : pixel) : color :=
  match flat !! Z.to_nat p.1 with
  | Some column =>
      match column !! Z.to_nat p.2 with
      | Some c => c
      | None => (0, 0, 0)
      end
  | None => (0, 0, 0)
  end.

(** ** Pictures in the Doom format ([getPicture]) *)

#[global] Instance byte_eq_decision : EqDecision byte := Byte.byte_eq_dec.

(** [b'PNG']. *)
Definition pngMark : list byte := [x50; x4e; x47].

(** [px[p] = color] for a palette colour, which raises outside the
    image. *)
Definition putRGB (im : image) (p : pixel) (c : color) : result image :=
  match locate (imSize im) p with
  | Some q => Ok (setRGB im q c)
  | None => Raise IndexError
  end.

(** The [for j in range(length)] loop of [getPicture], from [j]. *)
Fixpoint postPixels (pallete : list color) (i topdelta : Z) (n : nat) (j : Z)
    (im : image) (lump : Lump.t) : result (image * Lump.t) :=
  match n with
  | O => Ok (im, lump)
  | S n' =>
      let '(pixel, lump) := readByte lump in
      color ← py_index pallete pixel;
      im ← putRGB im (i, topdelta + j) color;
      postPixels pallete i topdelta n' (j + 1) im lump
  end.

(** The [while True] loop of [getPicture] for column [i]; [None] means
    the fuel ran out. *)
Fixpoint postLoop (fuel : nat) (pallete : list color) (i : Z) (im : image)
    (lump : Lump.t) : option (result (image * Lump.t)) :=
  match fuel with
  | O => None
  | S fuel' =>
      let '(topdelta, lump) := readByte lump in
      if decide (topdelta = 255) then Some (Ok (im, lump))
      else
        let '(length, lump) := readByte lump in
        let '(_, lump) := Lump_read 1 lump in
        match postPixels pallete i topdelta (Z.to_nat length) 0 im lump with
        | Raise e => Some (Raise e)
        | Ok (im, lump) =>
            let '(_, lump) := Lump_read 1 lump in
            postLoop fuel' pallete i im lump
        end
  end.

(** The [for w in range(width)] loop that reads the column offsets. *)
Fixpoint postOffsetsLoop (n : nat) (lump : Lump.t) (postOffsets : list Z)
    : list Z * Lump.t :=
  match n with
  | O => (postOffsets, lump)
  | S n' =>
      let '(b, lump) := Lump_read 4 lump in
      postOffsetsLoop n' lump (postOffsets ++ [fromBytes b])
  end.

(** The [for i in range(im.size[0])] loop over the columns. *)
Fixpoint columnsLoop (fuel : nat) (pallete : list color) (postOffsets : list Z)
    (columns : list Z) (im : image) (lump : Lump.t)
    : option (result image) :=
  match columns with
  | [] => Some (Ok im)
  | i :: rest =>
      match py_index postOffsets i with
      | Raise e => Some (Raise e)
      | Ok offset =>
          match postLoop fuel pallete i im (Lump_seek offset lump) with
          | None => None
          | Some (Raise e) => Some (Raise e)
          | Some (Ok (im, lump)) =>
              columnsLoop fuel pallete postOffsets rest im lump
          end
      end
  end.

Section getPicture.
(** [png2pic], which decodes with the pypng library. *)
Variable png2pic : list byte → list color → result image.

(** [getPicture] with [fuel] turns for each [while] loop. *)
Definition getPictureFuel (fuel : nat) (lump : option Lump.t)
    (pallete : list color) : option (result (option image)) :=
  match lump with
  | None => Some (Ok (@None image))
  | Some lump =>
      if decide (py_slice_any (Lump.data lump) 1 4 = pngMark) then
        Some (pic ← png2pic (Lump.data lump) pallete; Ok (Some pic))
      else
        let '(b, lump) := Lump_read 2 lump in
        let width := fromBytes b in
        let '(b, lump) := Lump_read 2 lump in
        let height := fromBytes b in
        if decide (width > 2000 ∨ height > 2000) then Some (Ok (@None image))
        else
          let '(_, lump) := Lump_read 4 lump in
          let '(postOffsets, lump) :=
            postOffsetsLoop (Z.to_nat width) lump [] in
          let im := newRGBA (width, height) in
          match columnsLoop fuel pallete postOffsets (seqZ 0 (imSize im).1)
                  im lump with
          | None => None
          | Some (Raise e) => Some (Raise e)
          | Some (Ok im) => Some (Ok (Some im))
          end
  end.

(** [getPicture]: the fuel is one turn more than the lump has bytes, which
    is as many turns as a [while] loop that ends can take. *)
Definition getPicture (lump : option Lump.t) (pallete : list color)
    : option (result (option image)) :=
  getPictureFuel
    (S (length (match lump with Some l => Lump.data l | None => [] end)))
    lump pallete.
End getPicture.

(** A pixel that [getPicture] can leave: transparent, or a colour of the
    palette with full alpha. *)
Definition patchPixel (pallete : list color) (p : pix) : Prop :=
  p = RGBA (0, 0, 0) 0 ∨ ∃ c, c ∈ pallete ∧ p = RGBA (clipColor c) 255.

(** A picture one column wide and one pixel high whose column offset, 12,
    points just behind the last byte. *)
Definition demoTruncated : list byte :=
  [x01; x00; x01; x00; x00; x00; x00; x00; x0c; x00; x00; x00].

(** The same header with the column at offset 12: one pixel of colour 1
    at row 0, then the end mark. *)
Definition demoPatch : list byte :=
  [x01; x00; x01; x00; x00; x00; x00; x00; x0c; x00; x00; x00;
   x00; x01; x00; x01; x00; xff].

(** Reading moved the pointer of the lump forward, not beyond its end. *)
Definition advances (lump lump' : Lump.t) : Prop :=
  Lump.data lump' = Lump.data lump
  ∧ Lump.position lump ≤ Lump.position lump' ≤ len (Lump.data lump).

(** ** The loop of [parseThings] *)

(** [spriteMap], entry by entry. *)
Definition spriteMapEntries : list (Z * string) :=
  [(1, "PLAY"); (3004, "POSS"); (84, "SSWV"); (9, "SPOS");
   (65, "CPOS"); (3001, "TROO"); (3002, "SARG"); (58, "SARG");
   (3006, "SKUL"); (3005, "HEAD"); (69, "BOS2"); (3003, "BOSS");
   (68, "BSPI"); (71, "PAIN"); (66, "SKEL"); (67, "FATT");
   (64, "VILE"); (7, "SPID"); (16, "CYBR"); (88, "BBRN");
   (2005, "CSAW"); (2001, "SHOT"); (82, "SGN2"); (2002, "MGUN");
   (2003, "LAUN"); (2004, "PLAS"); (2006, "BFUG"); (2007, "CLIP");
   (2008, "SHEL"); (2010, "ROCK"); (2047, "CELL"); (2048, "AMMO");
   (2049, "SBOX"); (2046, "BROK"); (17, "CELP"); (8, "BPAK");
   (2011, "STIM"); (2012, "MEDI"); (2014, "BON1"); (2015, "BON2");
   (2018, "ARM1"); (2019, "ARM2"); (83, "MEGA"); (2013, "SOUL");
   (2022, "PINV"); (2023, "PSTR"); (2024, "PINS"); (2025, "SUIT");
   (2026, "PMAP"); (2045, "PVIS"); (5, "BKEY"); (40, "BSKU");
   (13, "RKEY"); (38, "RSKU"); (6, "YKEY"); (39, "YSKU");
   (2035, "BAR1"); (72, "KEEN"); (48, "ELEC"); (30, "COL1");
   (32, "COL3"); (31, "COL2"); (36, "COL5"); (33, "COL4");
   (37, "COL6"); (47, "SMIT"); (43, "TRE1"); (54, "TRE2");
   (2028, "COLU"); (85, "TLMP"); (86, "TLP2"); (34, "CAND");
   (35, "CBRA"); (44, "TBLU"); (45, "TGRN"); (46, "TRED");
   (55, "SMBT"); (56, "SMGT"); (57, "SMRT"); (70, "FCAN");
   (41, "CEYE"); (42, "FSKU"); (49, "GOR1"); (63, "GOR1");
   (50, "GOR2"); (59, "GOR2"); (52, "GOR4"); (60, "GOR4");
   (51, "GOR3"); (61, "GOR3"); (53, "GOR5"); (62, "GOR5");
   (73, "HDB1"); (74, "HDB2"); (75, "HDB3"); (76, "HDB4");
   (77, "HDB5"); (78, "HDB6"); (25, "POL1"); (26, "POL6");
   (27, "POL4"); (28, "POL2"); (29, "POL3"); (24, "POL5");
   (79, "POB1"); (80, "POB2"); (81, "BRS1"); (15, "PLAYN");
   (18, "POSSL"); (19, "SPOSL"); (20, "TROOM"); (21, "SARGN");
   (22, "HEADL"); (10, "PLAYW"); (12, "PLAYW")].

(** [statsNames], entry by entry. *)
Definition statsNameEntries : list (string * string) :=
  [("POSS", "21Zombieman"); ("SPOS", "22Shotgunner");
   ("TROO", "23Imp"); ("SSWV", "24Wolfenstein SS");
   ("CPOS", "25Chaingunner"); ("SARG", "26Pinky");
   ("SKUL", "28Lost Soul"); ("HEAD", "29Cacodemon");
   ("BOS2", "30Hell Knight"); ("BOSS", "31Baron of Hell");
   ("BSPI", "32Arachnotron"); ("PAIN", "33Pain Elemental");
   ("SKEL", "34Revenant"); ("FATT", "35Mancubus");
   ("VILE", "36Arch-vile"); ("SPID", "37Spider Mastermind");
   ("CYBR", "38Cyberdemon"); ("BBRN", "39John Romero")].

(** [spriteMap] after the [if deathmatch:] correction. *)
Definition spriteMap (deathmatch : bool) : gmap Z string :=
  let spriteMap : gmap Z string := list_to_map spriteMapEntries in
  if deathmatch then <[11 := "PLAY"]> (delete 1 spriteMap) else spriteMap.

Definition statsNames : gmap string string := list_to_map statsNameEntries.

(** The test in front of [continue]:
    [thing.options & 16 == 16 and not deathmatch
     or thing.options & difficulty != difficulty]. *)
Definition skipThing (deathmatch : bool) (difficulty : Z) (thing : Thing.t)
    : bool :=
  (bool_decide (Z.land (Thing.options thing) 16 = 16) && negb deathmatch)
  || negb (bool_decide (Z.land (Thing.options thing) difficulty = difficulty)).

(** The [if thingName in statsNames:] block; [stats] is the dictionary of
    the caller, which holds nothing but the counts made here when
    [parseThings] runs. *)
Definition countThing (stats : gmap string Z) (thingName : string)
    (type : Z) : gmap string Z :=
  match statsNames !! thingName with
  | None => stats
  | Some commonName =>
      let commonName :=
        if decide (type = 58) then "27Spectre" else commonName in
      match stats !! commonName with
      | Some n => <[commonName := n + 1]> stats
      | None => <[commonName := 1]> stats
      end
  end.

(** [distance = thing.x * hCoefX + thing.y * hCoefY], the coefficients
    being floats. *)
Definition thingDistance (hCoefX hCoefY : float) (thing : Thing.t)
    : result float :=
  x ← floatOfInt (Thing.x thing);
  y ← floatOfInt (Thing.y thing);
  Ok (PrimFloat.add (PrimFloat.mul x hCoefX) (PrimFloat.mul y hCoefY)).

(** [thingsList], a dictionary with float keys, as the list of its items
    in insertion order.  A key is found when it compares equal ([==]) to a
    key of the dictionary; a not-a-number key never is, and gets an entry
    of its own.
      [if distance not in thingsList: thingsList[distance] = []]
      [thingsList[distance].append(thing)] *)
Definition addThing (thingsList : list (float * list Thing.t))
    (distance : float) (thing : Thing.t) : list (float * list Thing.t) :=
  match list_find (λ e, PrimFloat.eqb e.1 distance = true) thingsList with
  | Some (i, (k, l)) => <[i := (k, l ++ [thing])]> thingsList
  | None => thingsList ++ [(distance, [thing])]
  end.

(** The variables the loop of [parseThings] updates. *)
Module Parse.
Record t : Type := Make {
  thingsList : list (float * list Thing.t);
  sprites : gset string;
  stats : gmap string Z;
  spriteFrameCount : Z;
  sprite : string }.
End Parse.

(** The body of [for thing in things:]. *)
Definition parseThing (allLumps : list string) (hCoefX hCoefY : float)
    (difficulty : Z) (deathmatch : bool) (st : Parse.t) (thing : Thing.t)
    : result Parse.t :=
  if skipThing deathmatch difficulty thing then Ok st
  else
    match spriteMap deathmatch !! Thing.type thing with
    | None => Ok st
    | Some thingName =>
        let stats := countThing (Parse.stats st) thingName (Thing.type thing) in
        let '(thing, spriteFrameCount) :=
          resolveSprite allLumps thingName (Parse.sprite st)
            (Parse.spriteFrameCount st) thing in
        match thingDistance hCoefX hCoefY thing with
        | Raise e => Raise e
        | Ok distance =>
            Ok (Parse.Make (addThing (Parse.thingsList st) distance thing)
                  ({[Thing.sprite thing]} ∪ Parse.sprites st) stats
                  spriteFrameCount (Thing.sprite thing))
        end
    end.

Fixpoint parseLoop (allLumps : list string) (hCoefX hCoefY : float)
    (difficulty : Z) (deathmatch : bool) (things : list Thing.t)
    (st : Parse.t) : result Parse.t :=
  match things with
  | [] => Ok st
  | thing :: rest =>
      match parseThing allLumps hCoefX hCoefY difficulty deathmatch st thing with
      | Raise e => Raise e
      | Ok st => parseLoop allLumps hCoefX hCoefY difficulty deathmatch rest st
      end
  end.

(** [parseThings]; [options] is read at ["coefX"], ["coefY"],
    ["difficulty"] and ["deathmatch"].  The local variable [sprite] is not
    bound before the loop and never read unbound: every name of [spriteMap]
    has four or five letters.  The second result is the set [sprites],
    which the code returns as a list in the order of the set; the third is
    [stats] as the call leaves it. *)
Definition parseThings (things : list Thing.t) (allLumps : list string)
    (hCoefX hCoefY : float) (difficulty : Z) (deathmatch : bool)
    (stats : gmap string Z)
    : result (list (float * list Thing.t) * gset string * gmap string Z) :=
  match parseLoop allLumps hCoefX hCoefY difficulty deathmatch things
          (Parse.Make [] ∅ stats 0 EmptyString) with
  | Raise e => Raise e
  | Ok st => Ok (Parse.thingsList st, Parse.sprites st, Parse.stats st)
  end.

(** A thing the loop does not pass over. *)
Definition shown (deathmatch : bool) (difficulty : Z) (thing : Thing.t)
    : bool :=
  negb (skipThing deathmatch difficulty thing)
  && bool_decide (is_Some (spriteMap deathmatch !! Thing.type thing)).

(** The items of the dictionary, one per thing. *)
Definition placed (thingsList : list (float * list Thing.t))
    : list (float * Thing.t) :=
  e ← thingsList; (λ thing, (e.1, thing)) <$> e.2.

(** What [parseThings] makes of an input thing: the same position, angle,
    type and flags, a sprite that is empty or the name of a lump, under a
    key that is its distance or compares equal to it. *)
Definition enriched (allLumps : list string) (hCoefX hCoefY : float)
    (thing : Thing.t) (e : float * Thing.t) : Prop :=
  Thing.x e.2 = Thing.x thing ∧ Thing.y e.2 = Thing.y thing
  ∧ Thing.angle e.2 = Thing.angle thing ∧ Thing.type e.2 = Thing.type thing
  ∧ Thing.options e.2 = Thing.options thing
  ∧ (Thing.sprite e.2 = EmptyString ∨ Thing.sprite e.2 ∈ allLumps)
  ∧ ∃ d, thingDistance hCoefX hCoefY thing = Ok d
         ∧ (e.1 = d ∨ PrimFloat.eqb e.1 d = true).

(** The name under which [stats] counts a thing, if it counts it. *)
Definition countedAs (deathmatch : bool) (difficulty : Z) (thing : Thing.t)
    : option string :=
  if skipThing deathmatch difficulty thing then None
  else
    thingName ← spriteMap deathmatch !! Thing.type thing;
    commonName ← statsNames !! thingName;
    Some (if decide (Thing.type thing = 58) then "27Spectre"
          else commonName).

(** The number of things counted under [c]. *)
Definition counted (deathmatch : bool) (difficulty : Z) (c : string)
    (things : list Thing.t) : Z :=
  len (filter (λ t, countedAs deathmatch difficulty t = Some c) things).

(** The sprites of placed things, as a set. *)
Definition spritesOf (es : list (float * Thing.t)) : gset string :=
  list_to_set ((λ e, Thing.sprite e.2) <$> es).

Definition demoThings : list Thing.t :=
  [Thing.Make 10 20 90 3004 7 "" false;
   Thing.Make 10 20 0 58 7 "" false;
   Thing.Make 0 0 0 3002 23 "" false;
   Thing.Make 5 5 0 9999 7 "" false].

(** ** [getLinePixels] *)

(** [a / b] on two Python integers: the double nearest to the quotient,
    ties to even.  The quotient is cut to at least 56 bits, with one more
    bit that tells whether anything was cut off, and rounded once. *)
Definition trueDiv (a b : Z) : result float :=
  if decide (b = 0) then Raise ZeroDivisionError
  else
    let negate := xorb (a <? 0) (b <? 0) in
    let k := Z.max 0 (Z.log2 (Z.abs b) - Z.log2 (Z.abs a) + 56) in
    let n := Z.abs a * 2 ^ k in
    let sticky := if decide (n mod Z.abs b = 0) then 0 else 1 in
    let m := 2 * (n / Z.abs b) + sticky in
    let f := SF2Prim (binary_normalize prec emax (if negate then - m else m)
                        (- k - 1) negate) in
    match Prim2SF f with
    | S754_infinity _ => Raise OverflowError
    | _ => Ok f
    end.

(** [a // b] on two Python integers. *)
Definition floorDiv (a b : Z) : result Z :=
  if decide (b = 0) then Raise ZeroDivisionError else Ok (a / b).

(** [range(start, stop, step)] for a step other than 0. *)
Definition pyRange (start stop step : Z) : list Z :=
  if decide (0 < step)
  then (λ i, start + step * i) <$> seqZ 0 ((stop - start + step - 1) / step)
  else (λ i, start + step * i) <$> seqZ 0 ((start - stop - step - 1) / - step).

(** [int(v1 + d * (t / dt))]. *)
Definition interpolate (v1 d t dt : Z) : result Z :=
  q ← trueDiv t dt;
  fd ← floatOfInt d;
  fv ← floatOfInt v1;
  truncFloat (PrimFloat.add fv (PrimFloat.mul fd q)).

(** The body of [for x in range(x1, x2 + s, s)]. *)
Definition stepX (x1 y1 dx dy : Z) (pixels : list pixel) (x : Z)
    : result (list pixel) :=
  y ← interpolate y1 dy (x - x1) dx;
  pixels ←
    (if decide (x ≠ x1) then
       last ← py_index pixels (-1);
       if decide (x ≠ last.1 ∧ y ≠ last.2)
       then Ok (pixels ++ [(last.1, y)]) else Ok pixels
     else Ok pixels);
  Ok (pixels ++ [(x, y)]).

(** The body of [for y in range(y1, y2 + s, s)]. *)
Definition stepY (x1 y1 dx dy : Z) (pixels : list pixel) (y : Z)
    : result (list pixel) :=
  x ← interpolate x1 dx (y - y1) dy;
  pixels ←
    (if decide (y ≠ y1) then
       last ← py_index pixels (-1);
       if decide (x ≠ last.1 ∧ y ≠ last.2)
       then Ok (pixels ++ [(x, last.2)]) else Ok pixels
     else Ok pixels);
  Ok (pixels ++ [(x, y)]).

(** A [for] loop whose body may raise. *)
Fixpoint forEach {A S} (body : S → A → result S) (l : list A) (s : S)
    : result S :=
  match l with
  | [] => Ok s
  | a :: rest =>
      match body s a with
      | Raise e => Raise e
      | Ok s => forEach body rest s
      end
  end.

Definition getLinePixels (beg end_ : pixel) : result (list pixel) :=
  if decide (beg = end_) then Ok [beg]
  else
    let '(x1, y1) := beg in
    let '(x2, y2) := end_ in
    let dx := x2 - x1 in
    let dy := y2 - y1 in
    if decide (Z.abs dx > Z.abs dy) then
      s ← floorDiv dx (Z.abs dx);
      forEach (stepX x1 y1 dx dy) (pyRange x1 (x2 + s) s) []
    else
      s ← floorDiv dy (Z.abs dy);
      forEach (stepY x1 y1 dx dy) (pyRange y1 (y2 + s) s) [].

(** Two pixels next to each other in a line: they share a row or a column,
    and differ. *)
Definition straightStep (p q : pixel) : Prop :=
  (p.1 = q.1 ∧ p.2 ≠ q.2) ∨ (p.2 = q.2 ∧ p.1 ≠ q.1).

(** Every pixel of the list and the one after it make a straight step. *)
Fixpoint straight (pixels : list pixel) : Prop :=
  match pixels with
  | p :: (q :: _) as rest => straightStep p q ∧ straight rest
  | _ => True
  end.

(** The coordinate the loop of [getLinePixels] runs over: x when
    [abs(dx) > abs(dy)], else y. *)
Definition axis (beg end_ : pixel) : pixel → Z :=
  if decide (Z.abs (end_.1 - beg.1) > Z.abs (end_.2 - beg.2))
  then fst else snd.

(** A call that returns, or raises what a conversion between integers and
    floats raises. *)
Definition benign {A} (r : result A) : Prop :=
  match r with
  | Ok _ => True
  | Raise e => e = OverflowError ∨ e = ValueError
  end.

(** What one turn of either loop does: [main] is the coordinate the loop
    runs over, [v1] its first value and [s] the step. *)
Definition turn (main : pixel → Z) (v1 s : Z)
    (step : list pixel → Z → result (list pixel)) : Prop :=
  ∀ pixels v,
    (pixels = [] ∧ v = v1)
    ∨ (v ≠ v1 ∧ ∃ p, last pixels = Some p ∧ main p = v - s) →
    straight pixels →
    match step pixels v with
    | Ok pixels' =>
        ∃ more q, pixels' = pixels ++ more ∧ straight pixels'
          ∧ 1 ≤ len more ≤ (if decide (v = v1) then 1 else 2)
          ∧ last more = Some q ∧ main q = v
          ∧ (main <$> head more = Some (if decide (v = v1) then v1 else v - s)
             ∨ main <$> head more = Some v)
    | Raise e => e = OverflowError ∨ e = ValueError
    end.

(** ** The sides of a linedef ([findFloodPoint]) *)

(** Twice the signed area of the triangle [v1], [v2], [p]: its sign tells
    on which side of the line through [v1] and [v2] the point [p] lies. *)
Definition side (v1 v2 : Vertex.t) (p : pixel) : Z :=
  (Vertex.x v2 - Vertex.x v1) * (p.2 - Vertex.y v1)
  - (Vertex.y v2 - Vertex.y v1) * (p.1 - Vertex.x v1).

(** ** The facing test of [pasteWall] *)

(** [a / b] on two Python floats. *)
Definition floatDiv (a b : float) : result float :=
  if PrimFloat.eqb b 0 then Raise ZeroDivisionError
  else Ok (PrimFloat.div a b).

(** The condition of the [if] that sets [isTransparent], with the order
    and the short cuts of [and] and [or]; the coefficients are floats. *)
Definition facesAway (x1 y1 x2 y2 : Z) (hCoefX hCoefY : float)
    : result bool :=
  if decide (x2 ≤ x1 ∧ y2 >= y1) then Ok true
  else
    second ←
      (if negb (PrimFloat.eqb hCoefY 0) && bool_decide (x2 < x1) then
         q ← trueDiv (x1 - x2) (y1 - y2);
         r ← floatDiv hCoefX hCoefY;
         Ok (PrimFloat.ltb r q)
       else Ok false);
    if second : bool then Ok true
    else if negb (PrimFloat.eqb hCoefY 0) && bool_decide (y2 > y1) then
      q ← trueDiv (x2 - x1) (y2 - y1);
      r ← floatDiv hCoefX hCoefY;
      Ok (PrimFloat.ltb q r)
    else Ok false.

(** The part of [pasteWall] between the resize and the copying of pixels:
    [None] when the function returns there, else [isTransparent] as the
    copying finds it. *)
Definition wallFacing (x1 y1 x2 y2 : Z) (hCoefX hCoefY : float)
    (wall : Wall.t) : result (option bool) :=
  facesAway x1 y1 x2 y2 hCoefX hCoefY ≫= λ away : bool,
  let mid := bool_decide (Wall.position wall = Mid) in
  if (if away then mid && Wall.isBack wall
      else mid && negb (Wall.isBack wall))
  then Ok None
  else
    let isTransparent := away in
    let isTransparent :=
      if Wall.isBack wall then negb isTransparent else isTransparent in
    let isTransparent := if mid then false else isTransparent in
    Ok (Some isTransparent).

(** ** The ground of a thing ([drawMap]) *)

(** The start of the body of [for thing in thingsList[distance]]: [None]
    when the thing is passed over, else its pixel, [atHeight] and [light].
    [sectorData] holds integers, so neither [sector is None] test holds. *)
Definition thingGround (b : blueprint) (sectors : list Sector.t)
    (offsetX offsetY : Z) (thing : Thing.t)
    : result (option (pixel * Z * Z)) :=
  let picX := Thing.x thing + offsetX in
  let picY := Thing.y thing + offsetY in
  if decide (picX < 0 ∨ picX >= (size b).1 ∨ picY < 0 ∨ picY >= (size b).2)
  then Ok None
  else
    sector ← getsector b (picX, picY);
    s ← py_index sectors sector;
    Ok (Some ((picX, picY), Sector.floorHeight s, Sector.light s)).

Definition demoLongSide : LineDef.t := LineDef.Make 0 1 0 0 65535 0.
Definition demoWall : Wall.t :=
  Wall.Make 0 0 10 10 0 128 "STONE" 0 0 false Proper 160 false.
Definition demoOrigin : Thing.t := Thing.Make 1 1 0 3004 7 "" false.

(* ================================================================== *)
(** * Part II. Properties                                              *)
(* ================================================================== *)

(** ** Rasters and index resolution *)

Lemma locate_inside sz p : inside sz p → locate sz p = Some p.
Proof.
  intros [Hx Hy]. unfold locate, inside. destruct p as [x y]; simpl in *.
  repeat case_decide; simpl in *; try done; lia.
Qed.

Lemma locate_Some sz p q : locate sz p = Some q → inside sz q.
Proof. unfold locate. intros H. case_decide; naive_solver. Qed.

Lemma locate_outside sz p q :
  locate sz p = Some q → ¬ inside sz p → p.1 < 0 ∨ p.2 < 0.
Proof.
  unfold locate. intros H Hn. case_decide as Hq; [|done].
  destruct (decide (p.1 < 0)); [lia|]. destruct (decide (p.2 < 0)); [lia|].
  destruct p; simpl in *. done.
Qed.

Lemma elem_of_coords sz p : p ∈ coords sz ↔ inside sz p.
Proof.
  unfold coords, inside. rewrite list_elem_of_bind. split.
  - intros (x & Hp & Hx). apply list_elem_of_bind in Hp as (y & Hp & Hy).
    apply elem_of_seqZ in Hx, Hy. apply list_elem_of_singleton in Hp as ->.
    simpl. lia.
  - intros [Hx Hy]. exists p.1. split; [|apply elem_of_seqZ; lia].
    apply list_elem_of_bind. exists p.2. split; [|apply elem_of_seqZ; lia].
    destruct p. by apply list_elem_of_singleton.
Qed.

(** Closes goals that rest on two colour names being different. *)
Ltac colours :=
  unfold black, white, cyan, blue, currColor, fillColor in *;
  first [congruence | done].

Lemma int16_minus_one : int16 (-1) = -1.
Proof. reflexivity. Qed.

Lemma fillColor_neq erase : fillColor erase ≠ currColor erase.
Proof. by destruct erase. Qed.

(** ** The neighbour scan of [floodFill] *)

Lemma nbr_inside sz p d :
  inside sz p → d ∈ fillDirs → ¬ onBorder sz (nbr p d) → inside sz (nbr p d).
Proof.
  unfold inside, onBorder, nbr, fillDirs. intros Hp Hd Hb.
  repeat (apply elem_of_cons in Hd as [->|Hd]); simpl in *; try lia.
  by apply elem_of_nil in Hd.
Qed.

(** What the scan pushes: the entries satisfy the colour test and lie
    inside the raster; at most one entry per direction. *)
Lemma scan_pushed b erase p ds rest t :
  scanNeighbours b erase p ds rest = Pushed t →
  ∃ ps, t = ps ++ rest ∧ (length ps ≤ length ds)%nat
        ∧ Forall (λ q, inside (size b) q ∧ px b q = currColor erase) ps.
Proof.
  revert rest. induction ds as [|d ds IH]; intros rest; simpl.
  - intros [= <-]. exists []. split; [done|]. split; [done|constructor].
  - case_decide as Hb; [done|].
    destruct (getpixel b _) as [c|e] eqn:Hg; [|done].
    case_decide as Hc.
    + intros H. apply IH in H as (ps & -> & Hl & Hf).
      exists (ps ++ [(p.1 + d.1, p.2 + d.2)]). rewrite <- app_assoc. split; [done|].
      rewrite length_app. simpl. split; [lia|].
      apply Forall_app. split; [done|]. constructor; [|constructor].
      assert (inside (size b) (p.1 + d.1, p.2 + d.2)) as Hin
        by (unfold inside; simpl; lia).
      split; [done|]. unfold getpixel in Hg. rewrite locate_inside in Hg by done.
      destruct Hc as [Hc _]. congruence.
    + intros H. apply IH in H as (ps & -> & Hl & Hf).
      exists ps. split; [done|]. split; [lia|done].
Qed.

(** From a position inside the raster the scan is determined by the border
    test and by the colours of the four neighbours. *)
Lemma scan_inside b erase p ds rest :
  inside (size b) p → ds ⊆ fillDirs →
  scanNeighbours b erase p ds rest =
    if decide (Exists (λ d, onBorder (size b) (nbr p d)) ds) then Border
    else Pushed (reverse (filter (λ q, px b q = currColor erase) (nbr p <$> ds))
                 ++ rest).
Proof.
  intros Hp. revert rest.
  induction ds as [|d ds IH]; intros rest Hds; cbn [scanNeighbours].
  - destruct (decide _) as [He|He]; [by apply Exists_nil in He|done].
  - assert (d ∈ fillDirs) as Hd by set_solver.
    assert (ds ⊆ fillDirs) as Hds' by set_solver.
    fold (nbr p d). fold (onBorder (size b) (nbr p d)).
    destruct (decide (onBorder (size b) (nbr p d))) as [Hb|Hb].
    + rewrite decide_True; [done|]. by constructor.
    + pose proof (nbr_inside _ _ _ Hp Hd Hb) as Hin.
      unfold getpixel. rewrite locate_inside by done.
      rewrite fmap_cons, filter_cons.
      destruct (decide (px b (nbr p d) = currColor erase)) as [Hc|Hc].
      * rewrite decide_True by (unfold inside in Hin; simpl in *; tauto).
        rewrite IH by done.
        destruct (decide (Exists _ ds)) as [He|He].
        -- rewrite decide_True; [done|]. by constructor.
        -- rewrite decide_False by (by intros [?|?]%Exists_cons).
           rewrite reverse_cons, <- app_assoc. done.
      * rewrite decide_False by tauto.
        rewrite IH by done.
        destruct (decide (Exists _ ds)) as [He|He].
        -- rewrite decide_True; [done|]. by constructor.
        -- rewrite decide_False by (by intros [?|?]%Exists_cons). done.
Qed.

Lemma scan_fillDirs b erase p rest :
  inside (size b) p →
  scanNeighbours b erase p fillDirs rest =
    if decide (Exists (λ d, onBorder (size b) (nbr p d)) fillDirs) then Border
    else Pushed (reverse (filter (λ q, px b q = currColor erase)
                            (nbr p <$> fillDirs)) ++ rest).
Proof. intros Hp. by apply scan_inside. Qed.

(** A start pixel given by a negative index sits on the border. *)
Lemma scan_wrapped b erase p q rest :
  locate (size b) p = Some q → ¬ inside (size b) p →
  scanNeighbours b erase p fillDirs rest = Border.
Proof.
  intros Hl Hn. pose proof (locate_outside _ _ _ Hl Hn) as Hneg.
  pose proof (locate_Some _ _ _ Hl) as Hq.
  unfold locate in Hl. case_decide as Hi; [|done].
  unfold inside in Hi, Hn. simpl in *.
  rewrite decide_True; [done|].
  destruct (decide (p.1 < 0)); [lia|]. right. right. left. lia.
Qed.

(** ** Termination of the [while] loop *)

Lemma filter_insert_le (f : pixel → color) q c c0 (l : list pixel) :
  c ≠ c0 →
  (length (filter (λ p, <[q := c]> f p = c0) l)
   ≤ length (filter (λ p, f p = c0) l))%nat.
Proof.
  intros Hc. induction l as [|a l IH]; [done|].
  rewrite !filter_cons.
  destruct (decide (q = a)) as [->|Hqa].
  - rewrite fn_lookup_insert. rewrite decide_False by done.
    case_decide; simpl; lia.
  - rewrite fn_lookup_insert_ne by done. case_decide; simpl; lia.
Qed.

Lemma filter_insert_lt (f : pixel → color) q c c0 (l : list pixel) :
  c ≠ c0 → q ∈ l → f q = c0 →
  (length (filter (λ p, <[q := c]> f p = c0) l)
   < length (filter (λ p, f p = c0) l))%nat.
Proof.
  intros Hc Hq Hf. induction l as [|a l IH]; [by apply elem_of_nil in Hq|].
  rewrite !filter_cons.
  destruct (decide (q = a)) as [->|Hqa].
  - rewrite fn_lookup_insert. rewrite decide_False by done.
    rewrite decide_True by done. simpl.
    pose proof (filter_insert_le f a c c0 l Hc). lia.
  - apply elem_of_cons in Hq as [?|Hq]; [done|].
    rewrite fn_lookup_insert_ne by done. specialize (IH Hq).
    case_decide; simpl; lia.
Qed.

Lemma countColor_paint_le b q c v c0 :
  c ≠ c0 → (countColor (paint b q c v) c0 ≤ countColor b c0)%nat.
Proof. intros Hc. unfold countColor, paint; simpl. by apply filter_insert_le. Qed.

Lemma countColor_paint_lt b q c v c0 :
  c ≠ c0 → inside (size b) q → px b q = c0 →
  (countColor (paint b q c v) c0 < countColor b c0)%nat.
Proof.
  intros Hc Hq Hp. unfold countColor, paint; simpl.
  apply filter_insert_lt; [done| |done]. by apply elem_of_coords.
Qed.

(** One turn of the loop, with the two writes folded into [paint]. *)
Lemma fillLoop_step n sector erase b p q rest :
  locate (size b) p = Some q →
  fillLoop (S n) sector erase b (p :: rest) =
    let b2 := paint b q (fillColor erase) (if erase then -1 else sector) in
    match scanNeighbours b2 erase p fillDirs rest with
    | Border => Some (Ok (false, b2))
    | ScanRaise e => Some (Raise e)
    | Pushed toGo' => fillLoop n sector erase b2 toGo'
    end.
Proof.
  intros Hl. cbn [fillLoop]. unfold putpixel. rewrite Hl.
  unfold putsector. cbn [size]. rewrite Hl. done.
Qed.

Lemma fillLoop_raise n sector erase b p rest :
  locate (size b) p = None →
  fillLoop (S n) sector erase b (p :: rest) = Some (Raise IndexError).
Proof. intros Hl. cbn [fillLoop]. unfold putpixel. by rewrite Hl. Qed.

Lemma fillLoop_terminates sector erase n b toGo :
  (potential b erase toGo < n)%nat →
  is_Some (fillLoop n sector erase b toGo).
Proof.
  revert b toGo. induction n as [|n IH]; intros b toGo Hn; [lia|].
  destruct toGo as [|p rest]; [by eexists|].
  destruct (locate (size b) p) as [q|] eqn:Hl;
    [|rewrite fillLoop_raise by done; by eexists].
  rewrite (fillLoop_step _ _ _ _ _ _ _ Hl). cbn zeta.
  set (b2 := paint b q (fillColor erase) (if erase then -1 else sector)).
  destruct (scanNeighbours b2 erase p fillDirs rest) as [|t|e] eqn:Hs;
    [by eexists| |by eexists].
  apply IH. apply scan_pushed in Hs as (ps & -> & Hlen & Hps).
  assert (length fillDirs = 4%nat) as Hd by done. rewrite Hd in Hlen.
  pose proof (locate_Some _ _ _ Hl) as Hq.
  pose proof (countColor_paint_le b q (fillColor erase)
    (if erase then -1 else sector) _ (fillColor_neq erase)) as Hle.
  fold b2 in Hle.
  unfold potential in *. rewrite length_app. cbn [length] in Hn.
  cbn [topLive] in Hn. rewrite Hl in Hn.
  assert (topLive b2 erase (ps ++ rest) = true ∨ ps = []) as Htop.
  { destruct ps as [|q' ps]; [by right|left].
    apply Forall_cons_1 in Hps as [[Hin Hc] _].
    cbn [app topLive]. rewrite locate_inside by done.
    by apply bool_decide_eq_true. }
  destruct (bool_decide (px b q = currColor erase)) eqn:Hlive.
  - apply bool_decide_eq_true in Hlive.
    pose proof (countColor_paint_lt b q (fillColor erase)
      (if erase then -1 else sector) _ (fillColor_neq erase) Hq Hlive) as Hlt.
    fold b2 in Hlt. destruct (topLive b2 erase (ps ++ rest)); lia.
  - destruct Htop as [->| ->]; [lia|]. simpl.
    destruct (topLive b2 erase rest); lia.
Qed.

Lemma fillLoop_fuel_mono sector erase n m b toGo r :
  fillLoop n sector erase b toGo = Some r → (n ≤ m)%nat →
  fillLoop m sector erase b toGo = Some r.
Proof.
  revert m b toGo. induction n as [|n IH]; intros m b toGo H Hm; [done|].
  destruct m as [|m]; [lia|].
  destruct toGo as [|p rest]; [done|].
  destruct (locate (size b) p) as [q|] eqn:Hl;
    [|rewrite fillLoop_raise in H by done; by rewrite fillLoop_raise].
  rewrite (fillLoop_step _ _ _ _ _ _ _ Hl) in H.
  rewrite (fillLoop_step _ _ _ _ _ _ _ Hl). cbn zeta in *.
  destruct (scanNeighbours _ erase p fillDirs rest); [done| |done].
  apply IH; [done|lia].
Qed.

(** [floodFill] always comes back: with a result or with an exception. *)
Lemma floodFill_terminates sector startPix erase b :
  is_Some (floodFill sector startPix erase b).
Proof.
  unfold floodFill, floodFillFrom.
  destruct (getpixel b startPix) as [c|e]; [|by eexists].
  apply fillLoop_terminates. unfold potential, fillBudget.
  case_decide; cbn [length].
  - destruct (topLive b erase [startPix]); lia.
  - cbn [topLive]. lia.
Qed.

(** ** The forward fill *)

Lemma cell_paint_eq b q c v : cell (paint b q c v) q = (c, int16 v).
Proof. unfold cell, paint; simpl. by rewrite !fn_lookup_insert. Qed.

Lemma cell_paint_ne b q q' c v : q ≠ q' → cell (paint b q c v) q' = cell b q'.
Proof. intros. unfold cell, paint; simpl. by rewrite !fn_lookup_insert_ne. Qed.

Lemma cell_eq b b' q :
  cell b q = cell b' q ↔ px b q = px b' q ∧ sectorData b q = sectorData b' q.
Proof. unfold cell. split; [by intros [= -> ->]|by intros [-> ->]]. Qed.

Lemma filledFrom_paint orig sector b p :
  filledFrom orig sector b → inside (size orig) p → px orig p = black →
  filledFrom orig sector (paint b p cyan sector).
Proof.
  intros [Hsz Hb] Hp Hc. split; [done|]. intros q.
  destruct (decide (p = q)) as [<-|Hne].
  - right. by rewrite cell_paint_eq.
  - rewrite cell_paint_ne by done. apply Hb.
Qed.

Lemma stackOk_pushed orig sector b ps rest :
  filledFrom orig sector b → stackOk orig rest →
  Forall (λ q, inside (size b) q ∧ px b q = currColor false) ps →
  stackOk orig (ps ++ rest).
Proof.
  intros [Hsz Hb] Hrest Hps. apply Forall_app. split; [|done].
  eapply Forall_impl; [exact Hps|]. intros q [Hin Hc]. simpl in Hc.
  rewrite Hsz in Hin. split; [done|].
  destruct (Hb q) as [He|(_ & Ho & _)]; [|done].
  apply cell_eq in He as [He _]. congruence.
Qed.

Lemma fwd_filledFrom orig sector n b toGo r G :
  filledFrom orig sector b → stackOk orig toGo →
  fillLoop n sector false b toGo = Some (Ok (r, G)) →
  filledFrom orig sector G.
Proof.
  revert b toGo. induction n as [|n IH]; intros b toGo Hb Hst H; [done|].
  destruct toGo as [|p rest]; [by injection H as <- <-|].
  apply Forall_cons_1 in Hst as [[Hp Hc] Hrest].
  assert (locate (size b) p = Some p) as Hl
    by (apply locate_inside; by rewrite (proj1 Hb)).
  rewrite (fillLoop_step _ _ _ _ _ _ _ Hl) in H. cbn zeta in H.
  pose proof (filledFrom_paint _ _ _ _ Hb Hp Hc) as Hb2.
  destruct (scanNeighbours _ false p fillDirs rest) as [|t|e] eqn:Hs;
    [by injection H as <- <-| |done].
  apply scan_pushed in Hs as (ps & -> & _ & Hps).
  eapply IH; [exact Hb2| |exact H]. by eapply stackOk_pushed.
Qed.

(** What the forward fill has painted stays painted. *)
Lemma fwd_mono sector n b toGo r G q :
  fillLoop n sector false b toGo = Some (Ok (r, G)) →
  cell b q = (cyan, int16 sector) → cell G q = (cyan, int16 sector).
Proof.
  revert b toGo. induction n as [|n IH]; intros b toGo H Hq; [done|].
  destruct toGo as [|p rest]; [by injection H as <- <-|].
  destruct (locate (size b) p) as [p'|] eqn:Hl;
    [|by rewrite fillLoop_raise in H].
  rewrite (fillLoop_step _ _ _ _ _ _ _ Hl) in H. cbn zeta in H.
  assert (cell (paint b p' cyan sector) q = (cyan, int16 sector)) as Hq2.
  { destruct (decide (p' = q)) as [<-|Hne];
      [apply cell_paint_eq|by rewrite cell_paint_ne]. }
  destruct (scanNeighbours _ false p fillDirs rest) as [|t|e] eqn:Hs;
    [by injection H as <- <-| |done].
  by eapply IH.
Qed.

Lemma fwd_top_painted sector n b p p' rest r G :
  locate (size b) p = Some p' →
  fillLoop n sector false b (p :: rest) = Some (Ok (r, G)) →
  cell G p' = (cyan, int16 sector).
Proof.
  intros Hl H. destruct n as [|n]; [done|].
  rewrite (fillLoop_step _ _ _ _ _ _ _ Hl) in H. cbn zeta in H.
  destruct (scanNeighbours _ false p fillDirs rest) as [|t|e] eqn:Hs;
    [injection H as <- <-; apply cell_paint_eq| |done].
  eapply fwd_mono; [exact H|]. apply cell_paint_eq.
Qed.

(** Writes stay inside the raster, whatever the direction of the fill. *)
Lemma fillLoop_frame sector erase n b toGo r G :
  fillLoop n sector erase b toGo = Some (Ok (r, G)) →
  size G = size b ∧ ∀ q, ¬ inside (size b) q → cell G q = cell b q.
Proof.
  revert b toGo. induction n as [|n IH]; intros b toGo H; [done|].
  destruct toGo as [|p rest]; [by injection H as <- <-|].
  destruct (locate (size b) p) as [p'|] eqn:Hl;
    [|by rewrite fillLoop_raise in H].
  rewrite (fillLoop_step _ _ _ _ _ _ _ Hl) in H. cbn zeta in H.
  pose proof (locate_Some _ _ _ Hl) as Hp'.
  assert (∀ q, ¬ inside (size b) q →
    cell (paint b p' (fillColor erase) (if erase then -1 else sector)) q
    = cell b q) as Hpaint.
  { intros q Hq. apply cell_paint_ne. by intros ->. }
  destruct (scanNeighbours _ erase p fillDirs rest) as [|t|e] eqn:Hs;
    [by injection H as <- <-| |done].
  apply IH in H as [Hsz Hq]. split; [done|].
  intros q Hn. rewrite Hq by done. by apply Hpaint.
Qed.

(** ** The reverse fill retraces the forward fill *)

Lemma filter_iff_elem {A} (P1 P2 : A → Prop)
    `{!∀ x, Decision (P1 x)} `{!∀ x, Decision (P2 x)} (l : list A) :
  (∀ x, x ∈ l → P1 x ↔ P2 x) → filter P1 l = filter P2 l.
Proof.
  induction l as [|a l IH]; intros Hl; [done|].
  rewrite !filter_cons.
  assert (filter P1 l = filter P2 l) as ->
    by (apply IH; intros x Hx; apply Hl; by right).
  assert (P1 a ↔ P2 a) as Ha by (apply Hl; by left).
  destruct (decide (P1 a)), (decide (P2 a)); tauto || done.
Qed.

Lemma mirrors_paint orig sector G b be p :
  backgroundClear orig → inside (size orig) p → px orig p = black →
  mirrors orig G b be →
  mirrors orig G (paint b p cyan sector) (paint be p black (-1)).
Proof.
  intros Hclear Hp Hc [Hsz Hm]. split; [done|]. intros q.
  destruct (decide (p = q)) as [<-|Hne].
  - rewrite !cell_paint_eq, int16_minus_one.
    assert (cell orig p = (black, -1)) as ->
      by (unfold cell; by rewrite Hc, (Hclear p Hp Hc)).
    split; [intros [=]|done].
  - rewrite !cell_paint_ne by done. apply Hm.
Qed.

(** On the neighbours of a pixel the forward fill has just painted, the
    reverse fill pushes exactly those entries of the forward fill that the
    forward fill went on to paint. *)
Lemma mirror_push_iff orig sector G b be p d :
  noLeak orig → filledFrom orig sector b → filledFrom orig sector G →
  (∀ q, cell b q = (cyan, int16 sector) → cell G q = (cyan, int16 sector)) →
  mirrors orig G b be →
  inside (size orig) p → px orig p = black → d ∈ fillDirs →
  inside (size orig) (nbr p d) →
  (px G (nbr p d) = cyan ∧ px b (nbr p d) = currColor false)
  ↔ px be (nbr p d) = currColor true.
Proof.
  intros Hleak [_ Hb] [_ HG] Hmono [_ Hm] Hp Hc Hd Hq. simpl.
  set (q := nbr p d) in *.
  pose proof (Hleak p d Hp Hd Hq Hc) as Hnc. fold q in Hnc.
  destruct (Hm q) as [Hm1 Hm2]. split.
  - intros [HGq Hbq].
    destruct (Hb q) as [He|(_ & _ & He)].
    + apply Hm1 in He. apply cell_eq in He as [-> _]. done.
    + unfold cell in He. injection He as He _. colours.
  - intros Hbe. destruct (Hb q) as [He|(_ & Ho & He)].
    + pose proof (Hm1 He) as Hbe'. apply cell_eq in Hbe' as [Hbe' _].
      split; [congruence|].
      apply cell_eq in He as [He _]. rewrite He.
      destruct (HG q) as [HGe|(_ & Ho & _)]; [|done].
      apply cell_eq in HGe as [HGe _]. congruence.
    + assert (cell b q ≠ cell orig q) as Hne.
      { rewrite He. unfold cell. rewrite Ho. by intros [=]. }
      apply Hm2 in Hne. apply cell_eq in Hne as [Hne _]. colours.
Qed.

Lemma mirror_fill orig sector n :
  backgroundClear orig → noLeak orig →
  ∀ b toGo be G,
    filledFrom orig sector b → stackOk orig toGo →
    fillLoop n sector false b toGo = Some (Ok (false, G)) →
    mirrors orig G b be →
    ∃ E, fillLoop n sector true be (filter (λ q, px G q = cyan) toGo)
         = Some (Ok (false, E))
         ∧ sameState orig E.
Proof.
  intros Hclear Hleak.
  induction n as [|n IH]; intros b toGo be G Hb Hst H Hm; [done|].
  destruct toGo as [|p rest]; [done|].
  pose proof (fwd_filledFrom _ _ _ _ _ _ _ Hb Hst H) as HG.
  apply Forall_cons_1 in Hst as [[Hp Hc] Hrest].
  assert (locate (size b) p = Some p) as Hl
    by (apply locate_inside; by rewrite (proj1 Hb)).
  assert (locate (size be) p = Some p) as Hle
    by (apply locate_inside; by rewrite (proj1 Hm)).
  pose proof (fwd_top_painted _ _ _ _ _ _ _ _ Hl H) as Htop.
  rewrite filter_cons, decide_True
    by (unfold cell in Htop; by injection Htop as -> _).
  rewrite (fillLoop_step _ _ _ _ _ _ _ Hl) in H.
  rewrite (fillLoop_step _ _ _ _ _ _ _ Hle).
  cbn beta iota zeta delta [fillColor] in H |- *.
  pose proof (filledFrom_paint _ _ _ _ Hb Hp Hc) as Hb2.
  pose proof (mirrors_paint _ sector _ _ _ _ Hclear Hp Hc Hm) as Hm2.
  set (b2 := paint b p cyan sector) in *.
  set (be2 := paint be p black (-1)) in *.
  assert (size b2 = size orig) as Hsz2 by apply Hb2.
  assert (size be2 = size orig) as Hsze2 by apply Hm2.
  rewrite scan_fillDirs in H by (by rewrite Hsz2).
  rewrite scan_fillDirs by (by rewrite Hsze2).
  rewrite Hsz2 in H. rewrite Hsze2.
  destruct (decide (Exists (λ d, onBorder (size orig) (nbr p d)) fillDirs))
    as [He|He].
  - injection H as <-. eexists. split; [done|].
    split; [done|]. intros q. apply cell_eq.
    destruct (proj2 Hm2 q) as [Hm1 Hm2'].
    destruct (decide (cell b2 q = cell orig q)) as [Heq|Hne].
    + rewrite <- Heq. by apply Hm1.
    + by apply Hm2'.
  - assert (∀ q, cell b2 q = (cyan, int16 sector) →
                 cell G q = (cyan, int16 sector)) as Hmono.
    { intros q. by eapply fwd_mono. }
    assert (filter (λ q, px be2 q = currColor true) (nbr p <$> fillDirs)
            = filter (λ q, px G q = cyan)
                (filter (λ q, px b2 q = currColor false) (nbr p <$> fillDirs)))
      as Hpush.
    { rewrite list_filter_filter. apply filter_iff_elem.
      intros q (d & -> & Hd)%list_elem_of_fmap. symmetry.
      eapply mirror_push_iff; try done.
      apply nbr_inside; [done..|].
      intros Hbd. apply He. apply Exists_exists. by exists d. }
    rewrite Hpush.
    rewrite <- filter_reverse, <- filter_app.
    eapply IH; [exact Hb2| |exact H|exact Hm2].
    eapply stackOk_pushed; [exact Hb2|done|].
    apply Forall_reverse, Forall_forall.
    intros q [Hq (d & -> & Hd)%list_elem_of_fmap]%list_elem_of_filter.
    split; [|done]. rewrite Hsz2. apply nbr_inside; [done..|].
    intros Hbd. apply He. apply Exists_exists. by exists d.
Qed.

(** ** The overflow guard *)

Lemma fillLoop_fuel_agree sector erase n m b toGo r :
  fillLoop n sector erase b toGo = Some r →
  is_Some (fillLoop m sector erase b toGo) →
  fillLoop m sector erase b toGo = Some r.
Proof.
  intros Hn [r' Hm]. destruct (decide (n ≤ m)%nat) as [Hle|Hgt].
  - by eapply fillLoop_fuel_mono.
  - pose proof (fillLoop_fuel_mono _ _ _ n _ _ _ Hm ltac:(lia)). congruence.
Qed.

Lemma fillBudget_terminates sector erase b toGo :
  is_Some (fillLoop (fillBudget b erase toGo) sector erase b toGo).
Proof.
  apply fillLoop_terminates. unfold potential, fillBudget.
  destruct (topLive b erase toGo); lia.
Qed.

Lemma sameState_refl b : sameState b b.
Proof. by split. Qed.

Lemma sameState_cell b b' q : sameState b b' → cell b' q = cell b q.
Proof. intros [_ H]. apply cell_eq. apply H. Qed.

(** The forward fill from a start pixel that lies inside the raster,
    undone by the reverse fill. *)
Lemma undo_inside b sector p n b1 :
  backgroundClear b → noLeak b → inside (size b) p → px b p = black →
  fillLoop n sector false b [p] = Some (Ok (false, b1)) →
  ∃ b2, fillLoop n sector true b1 [p] = Some (Ok (false, b2)) ∧ sameState b b2.
Proof.
  intros Hclear Hleak Hp Hc H.
  pose proof (fillLoop_frame _ _ _ _ _ _ _ H) as [Hsz _].
  assert (filledFrom b sector b) as Hb by (split; [done|by left]).
  assert (stackOk b [p]) as Hst by (by apply Forall_singleton).
  assert (mirrors b b1 b b1) as Hm by (split; [done|by intros q; split]).
  destruct (mirror_fill b sector n Hclear Hleak _ _ _ _ Hb Hst H Hm)
    as (E & HE & Hsame).
  pose proof (fwd_top_painted _ _ _ _ _ _ _ _ (locate_inside _ _ Hp) H) as Htop.
  rewrite filter_cons, decide_True in HE
    by (unfold cell in Htop; by injection Htop as -> _).
  by exists E.
Qed.

(** The same for a start pixel addressed by a negative index. *)
Lemma undo_wrapped b sector p p' n b1 :
  backgroundClear b → locate (size b) p = Some p' → ¬ inside (size b) p →
  px b p' = black →
  fillLoop (S n) sector false b [p] = Some (Ok (false, b1)) →
  ∃ b2, fillLoop (S n) sector true b1 [p] = Some (Ok (false, b2))
        ∧ sameState b b2.
Proof.
  intros Hclear Hl Hn Hc H.
  rewrite (fillLoop_step _ _ _ _ _ _ _ Hl) in H.
  cbn beta iota zeta delta [fillColor] in H.
  rewrite (scan_wrapped _ _ _ p') in H by done. injection H as <-.
  rewrite (fillLoop_step _ _ _ _ _ p') by done.
  cbn beta iota zeta delta [fillColor].
  rewrite (scan_wrapped _ _ _ p') by done.
  eexists. split; [done|]. split; [done|]. intros q. apply cell_eq.
  pose proof (locate_Some _ _ _ Hl) as Hp'.
  destruct (decide (p' = q)) as [<-|Hne].
  - rewrite cell_paint_eq, int16_minus_one. unfold cell.
    by rewrite Hc, (Hclear p' Hp' Hc).
  - by rewrite !cell_paint_ne.
Qed.

Lemma floodFill_undo b sector startPix b1 :
  backgroundClear b → noLeak b →
  floodFill sector startPix false b = Some (Ok (false, b1)) →
  ∃ b2, floodFill sector startPix true b1 = Some (Ok (false, b2))
        ∧ sameState b b2.
Proof.
  intros Hclear Hleak. unfold floodFill, floodFillFrom, getpixel.
  destruct (locate (size b) startPix) as [p'|] eqn:Hl; [|done].
  case_decide as Hc; simpl in Hc; cycle 1.
  { unfold fillBudget. rewrite Nat.add_succ_r. done. }
  intros H.
  pose proof (fillLoop_frame _ _ _ _ _ _ _ H) as [Hsz _].
  pose proof (fwd_top_painted _ _ _ _ _ _ _ _ Hl H) as Htop.
  rewrite Hsz, Hl.
  rewrite decide_True by (unfold cell in Htop; by injection Htop as -> _).
  enough (∃ n b2, fillLoop n sector true b1 [startPix] = Some (Ok (false, b2))
                  ∧ sameState b b2) as (n & b2 & Hn & Hs).
  { exists b2. split; [|done].
    eapply fillLoop_fuel_agree; [exact Hn|apply fillBudget_terminates]. }
  destruct (decide (inside (size b) startPix)) as [Hin|Hout].
  - rewrite (locate_inside _ _ Hin) in Hl. injection Hl as <-.
    eexists. by eapply undo_inside.
  - unfold fillBudget in H. rewrite Nat.add_succ_r in H.
    eexists. by eapply undo_wrapped.
Qed.

(** C1.  A flood fill changes no cell outside the raster, in either
    direction and from any blueprint; and during the fill pass of
    [drawMap] (where [blueprintInv] holds) a fill that reaches the rim of
    the raster returns [False], after which the reverse fill from the same
    start pixel returns with [px] and [sectorData] exactly as they were
    before the attempt. *)
Theorem floodFill_overflow_undone (b : blueprint) (sector : Z)
    (startPix : pixel) :
  blueprintInv b →
  (∀ b0 erase r b', floodFill sector startPix erase b0 = Some (Ok (r, b')) →
     size b' = size b0
     ∧ ∀ q, ¬ inside (size b0) q →
            px b' q = px b0 q ∧ sectorData b' q = sectorData b0 q)
  ∧ (∀ b1, floodFill sector startPix false b = Some (Ok (false, b1)) →
       ∃ b2, floodFill sector startPix true b1 = Some (Ok (false, b2))
             ∧ sameState b b2).
Proof.
  intros (Hclear & Hleak & _). split.
  - intros b0 erase r b'. unfold floodFill, floodFillFrom.
    destruct (getpixel b0 startPix); [|done].
    intros H. apply fillLoop_frame in H as [Hsz Hq]. split; [done|].
    intros q Hn. apply cell_eq. by apply Hq.
  - intros b1. by apply floodFill_undo.
Qed.

(** ** A fill that stays inside closes its region *)

Lemma inside_interior sz p :
  inside sz p → ¬ Exists (λ d, onBorder sz (nbr p d)) fillDirs → interior sz p.
Proof.
  intros [Hx Hy] He. unfold interior.
  assert (∀ d, d ∈ fillDirs → ¬ onBorder sz (nbr p d)) as Hd.
  { intros d Hd Hb. apply He. apply Exists_exists. by exists d. }
  pose proof (Hd (-1, 0) ltac:(set_solver)) as H1.
  pose proof (Hd (0, -1) ltac:(set_solver)) as H2.
  pose proof (Hd (1, 0) ltac:(set_solver)) as H3.
  pose proof (Hd (0, 1) ltac:(set_solver)) as H4.
  unfold onBorder, nbr in *. simpl in *. lia.
Qed.

Lemma fwd_closed orig sector n b toGo G :
  filledFrom orig sector b → stackOk orig toGo →
  paintedInterior orig b → frontier orig b toGo →
  fillLoop n sector false b toGo = Some (Ok (true, G)) →
  paintedInterior orig G ∧ frontier orig G [].
Proof.
  revert b toGo. induction n as [|n IH]; intros b toGo Hb Hst Hint Hfr H; [done|].
  destruct toGo as [|p rest]; [by injection H as <-|].
  pose proof Hst as Hst'.
  apply Forall_cons_1 in Hst' as [[Hp Hc] Hrest].
  assert (locate (size b) p = Some p) as Hl
    by (apply locate_inside; by rewrite (proj1 Hb)).
  rewrite (fillLoop_step _ _ _ _ _ _ _ Hl) in H.
  cbn beta iota zeta delta [fillColor] in H.
  pose proof (filledFrom_paint _ _ _ _ Hb Hp Hc) as Hb2.
  set (b2 := paint b p cyan sector) in *.
  assert (size b2 = size orig) as Hsz2 by apply Hb2.
  rewrite scan_fillDirs in H by (by rewrite Hsz2). rewrite Hsz2 in H.
  destruct (decide (Exists _ fillDirs)) as [He|He]; [done|].
  eapply IH; [exact Hb2| | | |exact H].
  - eapply stackOk_pushed; [exact Hb2|done|].
    apply Forall_reverse, Forall_forall.
    intros q [Hq (d & -> & Hd)%list_elem_of_fmap]%list_elem_of_filter.
    split; [|done]. rewrite Hsz2. apply nbr_inside; [done..|].
    intros Hbd. apply He. apply Exists_exists. by exists d.
  - intros q Hq. destruct (decide (p = q)) as [<-|Hne].
    + by apply inside_interior.
    + apply Hint. unfold b2 in Hq. by rewrite cell_paint_ne in Hq.
  - intros p0 d Hp0 Hd Hq0 Hpainted Hblack.
    apply elem_of_app.
    destruct (decide (p = p0)) as [<-|Hne].
    + left. apply elem_of_reverse, list_elem_of_filter. split; [done|].
      apply list_elem_of_fmap. by exists d.
    + right. unfold b2 in Hpainted. rewrite cell_paint_ne in Hpainted by done.
      assert (p ≠ nbr p0 d) as Hne'.
      { intros Heq. rewrite <- Heq in Hblack. unfold b2, paint in Hblack.
        simpl in Hblack. rewrite fn_lookup_insert in Hblack. colours. }
      assert (px b (nbr p0 d) = black) as Hblack'.
      { unfold b2, paint in Hblack. simpl in Hblack.
        by rewrite fn_lookup_insert_ne in Hblack. }
      pose proof (Hfr p0 d Hp0 Hd Hq0 Hpainted Hblack') as Hin.
      apply elem_of_cons in Hin as [Heq|Hin]; [by symmetry in Heq|done].
Qed.

Lemma fillDirs_opposite d :
  d ∈ fillDirs → (- d.1, - d.2) ∈ fillDirs.
Proof.
  unfold fillDirs. intros Hd.
  repeat (apply elem_of_cons in Hd as [->|Hd]); simpl;
    [set_solver..|by apply elem_of_nil in Hd].
Qed.

Lemma nbr_opposite p d : nbr (nbr p d) (- d.1, - d.2) = p.
Proof. destruct p, d. unfold nbr. simpl. f_equal; lia. Qed.

Lemma sameState_sym b b' : sameState b b' → sameState b' b.
Proof. intros [Hsz H]. split; [done|]. intros q. by destruct (H q) as [-> ->]. Qed.

Lemma blueprintInv_sameState b b' :
  sameState b b' → blueprintInv b → blueprintInv b'.
Proof.
  intros [Hsz Hq] (Hclear & Hleak & Hwhite & Hpal).
  assert (∀ q, px b' q = px b q) as Hpx by (intros q; apply Hq).
  assert (∀ q, sectorData b' q = sectorData b q) as Hsd by (intros q; apply Hq).
  unfold blueprintInv, backgroundClear, noLeak.
  rewrite Hsz. setoid_rewrite Hpx. setoid_rewrite Hsd. done.
Qed.

Lemma sectorsFrom_sameState P b b' :
  sameState b b' → sectorsFrom P b → sectorsFrom P b'.
Proof.
  intros [Hsz Hq] H q. rewrite Hsz. intros Hin.
  destruct (Hq q) as [_ ->]. by apply H.
Qed.

(** A fill that returns [True] keeps the invariant of the fill pass. *)
Lemma fill_success_inv b sector startPix G :
  blueprintInv b →
  floodFill sector startPix false b = Some (Ok (true, G)) →
  blueprintInv G ∧ filledFrom b sector G.
Proof.
  intros (Hclear & Hleak & Hwhite & Hpal).
  unfold floodFill, floodFillFrom, getpixel.
  destruct (locate (size b) startPix) as [p'|] eqn:Hl; [|done].
  case_decide as Hc; simpl in Hc; cycle 1.
  { unfold fillBudget. rewrite Nat.add_succ_r. simpl. intros [= <-].
    split; [done|]. split; [done|by left]. }
  intros H.
  destruct (decide (inside (size b) startPix)) as [Hin|Hout]; cycle 1.
  { unfold fillBudget in H. rewrite Nat.add_succ_r in H.
    rewrite (fillLoop_step _ _ _ _ _ _ _ Hl) in H. cbn zeta in H.
    by rewrite (scan_wrapped _ _ _ p') in H. }
  rewrite (locate_inside _ _ Hin) in Hl. injection Hl as <-.
  assert (filledFrom b sector b) as Hb by (split; [done|by left]).
  assert (stackOk b [startPix]) as Hst by (by apply Forall_singleton).
  pose proof (fwd_filledFrom _ _ _ _ _ _ _ Hb Hst H) as HG.
  destruct (fwd_closed b sector _ b [startPix] G Hb Hst
              ltac:(by intros q) ltac:(by intros p d _ _ _ ?) H) as [Hint Hfr].
  split; [|done]. destruct HG as [Hsz HG].
  split; [|split; [|split]].
  - intros q Hq Hblack. rewrite Hsz in Hq.
    destruct (HG q) as [He|(_ & _ & He)].
    + apply cell_eq in He as [Hpx ->]. apply Hclear; [done|congruence].
    + unfold cell in He. injection He as He _. colours.
  - intros p d Hp Hd Hq Hblack Hcyan. rewrite Hsz in Hp, Hq.
    assert (cell G p = cell b p) as Hpe.
    { destruct (HG p) as [He|(_ & _ & He)]; [done|].
      unfold cell in He. injection He as He _. colours. }
    destruct (decide (cell G (nbr p d) = cell b (nbr p d))) as [He|Hne].
    + apply cell_eq in He as [He _]. apply cell_eq in Hpe as [Hpe _].
      apply (Hleak p d Hp Hd Hq); congruence.
    + pose proof (Hfr (nbr p d) (- d.1, - d.2) Hq (fillDirs_opposite _ Hd)) as Hx.
      rewrite nbr_opposite in Hx. specialize (Hx Hp Hne Hblack).
      by apply elem_of_nil in Hx.
  - intros q Hq Hw. rewrite Hsz in Hq.
    destruct (HG q) as [He|(_ & _ & He)].
    + apply cell_eq in He as [Hpx ->]. apply Hwhite; [done|congruence].
    + unfold cell in He. injection He as He _. colours.
  - intros q Hq. rewrite Hsz in Hq |- *.
    destruct (decide (cell G q = cell b q)) as [He|Hne].
    + apply cell_eq in He as [-> _]. by apply Hpal.
    + right. right. split; [|by apply Hint].
      destruct (HG q) as [He|(_ & _ & He)]; [done|].
      unfold cell in He. by injection He as He _.
Qed.

(** ** Python list indexing *)

Lemma py_index_nonneg {A} (l : list A) (i : Z) :
  0 ≤ i →
  py_index l i = match l !! Z.to_nat i with
                 | Some a => Ok a
                 | None => Raise IndexError
                 end.
Proof.
  intros Hi. unfold py_index. destruct (decide (i < 0)); [lia|].
  cbn zeta. by rewrite decide_True by lia.
Qed.

Lemma py_index_Ok_nonneg {A} (l : list A) (i : Z) :
  0 ≤ i < len l → ∃ a, l !! Z.to_nat i = Some a ∧ py_index l i = Ok a.
Proof.
  intros Hi. rewrite py_index_nonneg by lia.
  destruct (lookup_lt_is_Some_2 l (Z.to_nat i)) as [a Ha];
    [unfold len in Hi; lia|].
  exists a. by rewrite Ha.
Qed.

Lemma py_index_elem {A} (l : list A) (i : Z) a : py_index l i = Ok a → a ∈ l.
Proof.
  unfold py_index. case_decide; [|done].
  destruct (l !! _) eqn:Hl; [|done]. intros [= <-].
  by eapply list_elem_of_lookup_2.
Qed.

(** ** The fill pass keeps its invariant *)

Lemma fillAttempt_terminates sector startPix b :
  is_Some (fillAttempt sector startPix b).
Proof.
  unfold fillAttempt, andThen.
  destruct (floodFill_terminates sector startPix false b) as [[[ok b1]|e] ->];
    [|by eexists].
  destruct ok; simpl; [by eexists|].
  destruct (floodFill_terminates sector startPix true b1) as [[r|e] ->];
    by eexists.
Qed.

Lemma fillAttempt_inv P b sector startPix b' :
  blueprintInv b → sectorsFrom P b → P sector →
  fillAttempt sector startPix b = Some (Ok b') →
  blueprintInv b' ∧ sectorsFrom P b' ∧ size b' = size b.
Proof.
  intros Hinv Hfrom HP. unfold fillAttempt, andThen.
  destruct (floodFill sector startPix false b) as [[[ok b1]|e]|] eqn:Hf;
    [|done..].
  destruct ok; simpl.
  - intros [= <-].
    destruct (fill_success_inv _ _ _ _ Hinv Hf) as [Hinv' [Hsz HG]].
    split; [done|]. split; [|done].
    intros q Hq. rewrite Hsz in Hq.
    destruct (HG q) as [He|(_ & _ & He)].
    + apply cell_eq in He as [_ ->]. by apply Hfrom.
    + right. exists sector. split; [done|].
      unfold cell in He. by injection He as _ He.
  - destruct Hinv as (Hclear & Hleak & Hrest).
    destruct (floodFill_undo _ _ _ _ Hclear Hleak Hf) as (b2 & -> & Hsame).
    simpl. intros [= <-]. split; [|split].
    + by eapply blueprintInv_sameState.
    + by eapply sectorsFrom_sameState.
    + apply Hsame.
Qed.

Section fill_pass_facts.
Context (vertexes : list Vertex.t) (sidedefs : list SideDef.t)
        (sectors : list Sector.t) (offsetX offsetY : Z).
Context (P : Z → Prop).
Hypothesis HP : ∀ sd, sd ∈ sidedefs →
  validSector sectors (SideDef.sector sd) → P (SideDef.sector sd).

Lemma fillSide_terminates linedef right sidedef b :
  is_Some (fillSide vertexes sidedefs sectors offsetX offsetY
             linedef right sidedef b).
Proof.
  unfold fillSide. case_decide; [|by eexists].
  destruct (py_index sidedefs sidedef); [|by eexists].
  destruct (py_index sectors _) as [s|]; [|by eexists].
  destruct (Sector.HOMpassed s); [|by eexists].
  destruct (findFloodPoint _ _ _) as [[x y]|]; [|by eexists].
  case_decide; [by eexists|]. apply fillAttempt_terminates.
Qed.

Lemma fillSide_inv linedef right sidedef b b' :
  blueprintInv b → sectorsFrom P b →
  fillSide vertexes sidedefs sectors offsetX offsetY linedef right sidedef b
    = Some (Ok b') →
  blueprintInv b' ∧ sectorsFrom P b' ∧ size b' = size b.
Proof.
  intros Hinv Hfrom. unfold fillSide.
  case_decide; [|by intros [= <-]].
  destruct (py_index sidedefs sidedef) as [sd|] eqn:Hsd; [|done].
  destruct (py_index sectors _) as [s|] eqn:Hs; [|done].
  destruct (Sector.HOMpassed s) eqn:Hhom; [|by intros [= <-]].
  destruct (findFloodPoint _ _ _) as [[x y]|]; [|done].
  case_decide; [by intros [= <-]|].
  apply fillAttempt_inv; [done..|].
  apply HP; [by eapply py_index_elem|]. by exists s.
Qed.

Lemma fillSectors_terminates linedefs b :
  is_Some (fillSectors vertexes sidedefs sectors offsetX offsetY linedefs b).
Proof.
  revert b. induction linedefs as [|l ls IH]; intros b; [by eexists|].
  cbn [fillSectors]. unfold fillLinedef, andThen.
  destruct (fillSide_terminates l true (LineDef.front l) b) as [[b1|e] ->];
    [|by eexists].
  destruct (fillSide_terminates l false (LineDef.back l) b1) as [[b2|e] ->];
    [|by eexists].
  apply IH.
Qed.

Lemma fillSectors_inv linedefs b b' :
  blueprintInv b → sectorsFrom P b →
  fillSectors vertexes sidedefs sectors offsetX offsetY linedefs b
    = Some (Ok b') →
  blueprintInv b' ∧ sectorsFrom P b' ∧ size b' = size b.
Proof.
  revert b. induction linedefs as [|l ls IH]; intros b Hinv Hfrom.
  - by intros [= <-].
  - cbn [fillSectors]. unfold fillLinedef, andThen.
    destruct (fillSide _ _ _ _ _ l true _ b) as [[b1|e]|] eqn:H1; [|done..].
    destruct (fillSide _ _ _ _ _ l false _ b1) as [[b2|e]|] eqn:H2; [|done..].
    apply fillSide_inv in H1 as (Hinv1 & Hfrom1 & Hsz1); [|done..].
    apply fillSide_inv in H2 as (Hinv2 & Hfrom2 & Hsz2); [|done..].
    intros H. apply IH in H as (? & ? & ?); [|done..].
    split; [done|]. split; [done|]. congruence.
Qed.
End fill_pass_facts.

(** The blueprint [drawMap] starts from: outlines on background, no
    sector index anywhere. *)
Lemma blueprintInv_initial b :
  (∀ q, inside (size b) q →
        (px b q = black ∨ px b q = white) ∧ sectorData b q = -1) →
  blueprintInv b.
Proof.
  intros H. split; [|split; [|split]].
  - intros q Hq _. by apply H.
  - intros p d Hp Hd Hq _. destruct (H _ Hq) as [[Hc|Hc] _]; rewrite Hc; colours.
  - intros q Hq _. by apply H.
  - intros q Hq. destruct (H _ Hq) as [[Hc|Hc] _]; auto.
Qed.

(** ** The seam repair *)

Lemma NoDup_coords sz : NoDup (coords sz).
Proof.
  unfold coords. apply NoDup_bind; [| |apply NoDup_seqZ].
  - intros x1 x2 y _ _ H1 H2.
    apply list_elem_of_bind in H1 as (y1 & ->%list_elem_of_singleton & _).
    apply list_elem_of_bind in H2 as (y2 & [= -> _]%list_elem_of_singleton & _).
    done.
  - intros x _. apply NoDup_bind; [| |apply NoDup_seqZ].
    + intros y1 y2 y _ _ ->%list_elem_of_singleton [= ->]%list_elem_of_singleton.
      done.
    + intros y _. apply NoDup_singleton.
Qed.

(** Where the index of a neighbour of an outline pixel resolves. *)
Lemma seam_locate sz p d :
  inside sz p → p.1 < sz.1 - 1 → p.2 < sz.2 - 1 → d ∈ seamDirs →
  ∃ q', locate sz (nbr p d) = Some q' ∧ inside sz q'
        ∧ (inside sz (nbr p d) ∧ q' = nbr p d
           ∨ ¬ inside sz (nbr p d) ∧ ¬ interior sz q').
Proof.
  intros [Hx Hy] Hx' Hy' Hd. unfold seamDirs in Hd.
  destruct p as [x y]. simpl in *.
  repeat (apply elem_of_cons in Hd as [->|Hd]);
    [| | | |by apply elem_of_nil in Hd]; unfold nbr; cbn [fst snd].
  - exists (x + 1, y + 0). rewrite locate_inside by (unfold inside; simpl; lia).
    split; [done|]. split; [unfold inside; simpl; lia|]. left.
    split; [unfold inside; simpl; lia|done].
  - exists (x + 0, y + 1). rewrite locate_inside by (unfold inside; simpl; lia).
    split; [done|]. split; [unfold inside; simpl; lia|]. left.
    split; [unfold inside; simpl; lia|done].
  - destruct (decide (x = 0)) as [->|Hx0].
    + exists (sz.1 - 1, y). split; [|split].
      * unfold locate, inside; cbn [fst snd].
        repeat (case_decide; try lia). do 2 f_equal; lia.
      * unfold inside; simpl; lia.
      * right. unfold inside, interior; simpl. lia.
    + exists (x + -1, y + 0).
      rewrite locate_inside by (unfold inside; simpl; lia).
      split; [done|]. split; [unfold inside; simpl; lia|]. left.
      split; [unfold inside; simpl; lia|done].
  - destruct (decide (y = 0)) as [->|Hy0].
    + exists (x, sz.2 - 1). split; [|split].
      * unfold locate, inside; cbn [fst snd].
        repeat (case_decide; try lia). do 2 f_equal; lia.
      * unfold inside; simpl; lia.
      * right. unfold inside, interior; simpl. lia.
    + exists (x + 0, y + -1).
      rewrite locate_inside by (unfold inside; simpl; lia).
      split; [done|]. split; [unfold inside; simpl; lia|]. left.
      split; [unfold inside; simpl; lia|done].
Qed.

Lemma seamCell_cases b q :
  seamCell b q = cell b q
  ∨ (px b q = white ∧ ∃ m, seamCell b q = (blue, m)).
Proof. unfold seamCell. case_decide as H; [right|by left]. split; [apply H|by eexists]. Qed.

Lemma seamMid_cell b ps bt q :
  seamMid b ps bt → inside (size b) q →
  cell bt q = cell b q ∨ (px b q = white ∧ px bt q = blue).
Proof.
  intros [_ H] Hq. destruct (H q Hq) as [H1 H2].
  destruct (decide (q ∈ ps)) as [Hin|Hout]; [left; by apply H1|].
  rewrite (H2 Hout).
  destruct (seamCell_cases b q) as [He|(Hw & m & He)]; [by left|right].
  split; [done|]. specialize (H2 Hout). rewrite He in H2.
  unfold cell in H2. by injection H2 as ->.
Qed.

(** The neighbour loop computes the largest original sector index around
    the pixel, whatever has been repaired so far. *)
Lemma seamNeighbours_value b ps bt p ds acc :
  seamReady b → seamMid b ps bt →
  inside (size b) p → px b p = white → ds ⊆ seamDirs → -1 ≤ acc →
  seamNeighbours bt p ds acc
  = Ok (foldl (λ m d, Z.max m (nbrSector b p d)) acc ds).
Proof.
  intros (Hblue & Hwhite & Hrim & _ & Hfar) Hmid Hp Hw.
  destruct (Hfar p Hp Hw) as [Hx Hy].
  revert acc. induction ds as [|d ds IH]; intros acc Hds Hacc; [done|].
  assert (d ∈ seamDirs) as Hd by (apply Hds; by left).
  assert (ds ⊆ seamDirs) as Hds' by (intros x Hx'; apply Hds; by right).
  cbn [seamNeighbours foldl]. fold (nbr p d).
  destruct (seam_locate _ _ _ Hp Hx Hy Hd) as (q' & Hl & Hq' & Hcase).
  unfold getsector, getpixel. rewrite (proj1 Hmid), Hl. simpl.
  assert (nbrSector b p d = sectorData b q') as Hn.
  { unfold nbrSector. destruct Hcase as [[Hin ->]|[Hout Hni]].
    - by rewrite decide_True.
    - rewrite decide_False by done. symmetry. by apply Hrim. }
  destruct (seamMid_cell _ _ _ _ Hmid Hq') as [He|[Hqw Hqb]].
  - apply cell_eq in He as [Hpx Hsd].
    rewrite decide_True by (rewrite Hpx; by apply Hblue).
    rewrite Hsd, Hn. apply IH; [done|lia].
  - rewrite decide_False by (by intros []).
    rewrite Hn, (Hwhite q' Hq' Hqw).
    replace (Z.max acc (-1)) with acc by lia. by apply IH.
Qed.

Lemma seamValue_int16 b p :
  seamReady b → inside (size b) p → int16 (seamValue b p) = seamValue b p.
Proof.
  intros (_ & _ & _ & Hint & _) Hp. unfold seamValue.
  assert (∀ d, int16 (nbrSector b p d) = nbrSector b p d) as Hn.
  { intros d. unfold nbrSector. case_decide; [by apply Hint|done]. }
  assert (∀ ds acc, int16 acc = acc →
    int16 (foldl (λ m d, Z.max m (nbrSector b p d)) acc ds)
    = foldl (λ m d, Z.max m (nbrSector b p d)) acc ds) as Hfold.
  { induction ds as [|d ds IH]; intros acc Hacc; [done|].
    cbn [foldl]. apply IH.
    destruct (Z.max_spec acc (nbrSector b p d)) as [[_ ->]|[_ ->]]; auto. }
  by apply Hfold.
Qed.

Lemma seamPixel_unfold bt p :
  locate (size bt) p = Some p →
  seamPixel bt p =
    if decide (px bt p = white) then
      match seamNeighbours bt p seamDirs (-1) with
      | Ok m =>
          if decide (m > -1)
          then Ok (Blueprint (size bt) (<[p := blue]> (px bt))
                     (<[p := int16 m]> (sectorData bt)))
          else Ok bt
      | Raise e => Raise e
      end
    else Ok bt.
Proof.
  intros Hl. unfold seamPixel, getpixel. rewrite Hl.
  cbn [mbind result_bind]. case_decide; [|done].
  destruct (seamNeighbours bt p seamDirs (-1)) as [m|e]; [|done].
  cbn [mbind result_bind]. case_decide; [|done].
  unfold putsector. rewrite Hl. cbn [mbind result_bind].
  unfold putpixel. cbn [size px sectorData]. by rewrite Hl.
Qed.

Lemma seamLoop_spec b :
  seamReady b →
  ∀ ps bt, NoDup ps → (∀ q, q ∈ ps → inside (size b) q) → seamMid b ps bt →
           ∃ b', seamLoop ps bt = Ok b' ∧ seamMid b [] b'.
Proof.
  intros Hready. induction ps as [|p ps IH]; intros bt Hnd Hin Hmid.
  { by exists bt. }
  apply NoDup_cons in Hnd as [Hp Hnd].
  assert (inside (size b) p) as Hpin by (apply Hin; by left).
  assert (locate (size bt) p = Some p) as Hl
    by (rewrite (proj1 Hmid); by apply locate_inside).
  assert (cell bt p = cell b p) as Hcp
    by (apply (proj2 Hmid p Hpin); by left).
  pose proof Hcp as Hcp'. apply cell_eq in Hcp' as [Hpx Hsd].
  assert (∀ bt', size bt' = size b → cell bt' p = seamCell b p →
            (∀ q, q ≠ p → cell bt' q = cell bt q) → seamMid b ps bt') as Hnext.
  { intros bt' Hsz Hc Hq. split; [done|]. intros q Hqin.
    destruct (decide (q = p)) as [->|Hne]; [by split|].
    rewrite (Hq q Hne). destruct (proj2 Hmid q Hqin) as [H1 H2]. split.
    - intros Hqps. apply H1. by right.
    - intros Hqps. apply H2. by intros [?|?]%elem_of_cons. }
  cbn [seamLoop]. rewrite (seamPixel_unfold _ _ Hl).
  rewrite Hpx. unfold seamCell in Hnext.
  destruct (decide (px b p = white)) as [Hw|Hw]; cycle 1.
  { cbn [mbind result_bind].
    apply IH; [done|intros q Hq; apply Hin; by right|].
    apply Hnext; [apply Hmid| |done].
    rewrite decide_False by (by intros []). done. }
  rewrite (seamNeighbours_value b (p :: ps)) by done.
  fold (seamValue b p).
  destruct (decide (seamValue b p > -1)) as [Hm|Hm]; cycle 1.
  { cbn [mbind result_bind].
    apply IH; [done|intros q Hq; apply Hin; by right|].
    apply Hnext; [apply Hmid| |done].
    rewrite decide_False by (by intros []). done. }
  cbn [mbind result_bind].
  apply IH; [done|intros q Hq; apply Hin; by right|].
  apply Hnext; [apply Hmid| |].
  - rewrite decide_True by done. unfold cell. simpl.
    rewrite !fn_lookup_insert. by rewrite seamValue_int16.
  - intros q Hne. unfold cell. simpl. by rewrite !fn_lookup_insert_ne.
Qed.

Lemma fillSeams_spec b :
  seamReady b →
  ∃ b', fillSeams b = Ok b' ∧ size b' = size b
        ∧ ∀ q, inside (size b) q → cell b' q = seamCell b q.
Proof.
  intros Hready. unfold fillSeams.
  destruct (seamLoop_spec b Hready (coords (size b)) b) as (b' & Hb' & Hsz & Hq).
  - apply NoDup_coords.
  - intros q. apply elem_of_coords.
  - split; [done|]. intros q Hq. split; [done|].
    intros Hn. exfalso. apply Hn. by apply elem_of_coords.
  - exists b'. split; [done|]. split; [done|].
    intros q Hin. apply Hq; [done|]. apply not_elem_of_nil.
Qed.

Lemma int16_range v : -32768 ≤ int16 v < 32768.
Proof. unfold int16. pose proof (Z.mod_pos_bound (v + 32768) 65536). lia. Qed.

Lemma int16_small v : -32768 ≤ v < 32768 → int16 v = v.
Proof. intros Hv. unfold int16. rewrite Z.mod_small; lia. Qed.

Lemma int16_idem v : int16 (int16 v) = int16 v.
Proof. apply int16_small, int16_range. Qed.

(** The fill pass leaves the blueprint ready for the seam repair, as long
    as the outline keeps off the last row and column (the margins do that). *)
Lemma seamReady_after_fill P b :
  blueprintInv b → sectorsFrom P b →
  (∀ q, inside (size b) q → px b q = white →
        q.1 < (size b).1 - 1 ∧ q.2 < (size b).2 - 1) →
  seamReady b.
Proof.
  intros (Hclear & _ & Hwhite & Hpal) Hfrom Hfar.
  split; [|split; [done|split; [|split; [|done]]]].
  - intros q Hq. destruct (Hpal q Hq) as [->|[->|[-> _]]]; colours.
  - intros q Hq Hni. destruct (Hpal q Hq) as [Hc|[Hc|[_ Hi]]]; [|by auto..].
    by apply Hclear.
  - intros q Hq. destruct (Hfrom q Hq) as [->|(s & _ & ->)];
      [done|apply int16_idem].
Qed.

Lemma nbrSector_adjacentOnly b p s d :
  adjacentOnly b p s → d ∈ seamDirs →
  nbrSector b p d = s ∨ nbrSector b p d ≤ -1.
Proof.
  intros (_ & _ & H) Hd. unfold nbrSector. case_decide; [by apply H|right; lia].
Qed.

Lemma seamValue_adjacentOnly b p s : adjacentOnly b p s → seamValue b p = s.
Proof.
  intros Hadj. pose proof Hadj as (Hs & (d & Hd & Hin & Hv) & _).
  assert (nbrSector b p d = s) as Hd'
    by (unfold nbrSector; by rewrite decide_True).
  pose proof (nbrSector_adjacentOnly b p s (1, 0) Hadj ltac:(set_solver)) as H1.
  pose proof (nbrSector_adjacentOnly b p s (0, 1) Hadj ltac:(set_solver)) as H2.
  pose proof (nbrSector_adjacentOnly b p s (-1, 0) Hadj ltac:(set_solver)) as H3.
  pose proof (nbrSector_adjacentOnly b p s (0, -1) Hadj ltac:(set_solver)) as H4.
  unfold seamValue, seamDirs in *. cbn [foldl].
  repeat (apply elem_of_cons in Hd as [->|Hd]);
    [lia..|by apply elem_of_nil in Hd].
Qed.

Lemma seamValue_unresolved b p : unresolvedAround b p → seamValue b p = -1.
Proof.
  intros H.
  assert (∀ d, d ∈ seamDirs → nbrSector b p d ≤ -1) as Hn.
  { intros d Hd. unfold nbrSector. case_decide; [by apply H|lia]. }
  pose proof (Hn (1, 0) ltac:(set_solver)) as H1.
  pose proof (Hn (0, 1) ltac:(set_solver)) as H2.
  pose proof (Hn (-1, 0) ltac:(set_solver)) as H3.
  pose proof (Hn (0, -1) ltac:(set_solver)) as H4.
  unfold seamValue, seamDirs. cbn [foldl]. lia.
Qed.

(** C3.  On the blueprint the fill pass leaves, the seam repair returns,
    every outline pixel that touches exactly one resolved sector holds that
    sector's index afterwards, and a pixel without a sector index that
    touches no resolved sector still has none. *)
Theorem fillSeams_inherits (b : blueprint) :
  seamReady b →
  ∃ b', fillSeams b = Ok b'
        ∧ ∀ p, inside (size b) p →
               (∀ s, px b p = white → adjacentOnly b p s →
                     sectorData b' p = s)
               ∧ (sectorData b p = -1 → unresolvedAround b p →
                  sectorData b' p = -1).
Proof.
  intros Hready.
  destruct (fillSeams_spec b Hready) as (b' & Hb' & _ & Hcell).
  exists b'. split; [done|]. intros p Hp. specialize (Hcell p Hp).
  unfold seamCell in Hcell. split.
  - intros s Hw Hadj. pose proof (seamValue_adjacentOnly _ _ _ Hadj) as Hv.
    rewrite Hv in Hcell. rewrite decide_True in Hcell by (split; [done|apply Hadj]).
    unfold cell in Hcell. by injection Hcell as _ ->.
  - intros Hsd Hun. pose proof (seamValue_unresolved _ _ Hun) as Hv.
    rewrite Hv in Hcell. rewrite decide_False in Hcell by (intros [_ ?]; lia).
    unfold cell in Hcell. injection Hcell as _ ->. done.
Qed.

(** ** The validity check *)

Lemma withEntries_nil s : withEntries [] s = s.
Proof. destruct s. unfold withEntries. simpl. by rewrite app_nil_r. Qed.

Lemma withEntries_app es1 es2 s :
  withEntries es2 (withEntries es1 s) = withEntries (es1 ++ es2) s.
Proof. unfold withEntries. simpl. by rewrite app_assoc. Qed.

Lemma appendVertex_spec sectors sector v :
  0 ≤ sector < len sectors →
  appendVertex sectors sector v
  = Ok (imap (λ k, withEntries (if decide (Z.of_nat k = sector) then [v] else []))
          sectors).
Proof.
  intros Hs. unfold appendVertex.
  destruct (py_index_Ok_nonneg sectors sector Hs) as (s & Hl & ->).
  cbn [mbind result_bind]. f_equal. rewrite decide_False by lia.
  apply list_eq. intros k. rewrite list_lookup_imap.
  destruct (decide (k = Z.to_nat sector)) as [->|Hne].
  - rewrite list_lookup_insert_eq by (by eapply lookup_lt_Some).
    rewrite Hl. simpl. by rewrite decide_True by lia.
  - rewrite list_lookup_insert_ne by done.
    destruct (sectors !! k) as [s'|]; [|done]. simpl.
    rewrite decide_False by lia. by rewrite withEntries_nil.
Qed.

Lemma imap_withEntries (f g : nat → list Z) (sectors : list Sector.t) :
  imap (λ k, withEntries (g k)) (imap (λ k, withEntries (f k)) sectors)
  = imap (λ k, withEntries (f k ++ g k)) sectors.
Proof.
  apply list_eq. intros k. rewrite !list_lookup_imap.
  destruct (sectors !! k); [|done]. simpl. by rewrite withEntries_app.
Qed.

Lemma len_imap {A B} (f : nat → A → B) (l : list A) : len (imap f l) = len l.
Proof. unfold len. by rewrite length_imap. Qed.

Lemma sideSector_Some sidedefs sectors sidedef :
  Forall (wfSidedef sectors) sidedefs → 0 ≤ sidedef →
  sidedef ≠ 65535 ∧ sidedef < len sidedefs →
  ∃ sd, py_index sidedefs sidedef = Ok sd
        ∧ sideSector sidedefs sidedef = Some (SideDef.sector sd)
        ∧ wfSidedef sectors sd.
Proof.
  intros Hwf H0 Hs.
  destruct (py_index_Ok_nonneg sidedefs sidedef ltac:(lia)) as (sd & Hl & Hp).
  exists sd. split; [done|]. split.
  - unfold sideSector. rewrite decide_True by done. by rewrite Hp.
  - eapply Forall_forall; [exact Hwf|]. by eapply list_elem_of_lookup_2.
Qed.

Lemma collectSide_spec sidedefs sectors linedef sidedef :
  Forall (wfSidedef sectors) sidedefs → 0 ≤ sidedef →
  collectSide sidedefs linedef sidedef sectors
  = Ok (imap (λ k, withEntries (sideEntries sidedefs linedef sidedef (Z.of_nat k)))
          sectors).
Proof.
  intros Hwf H0. unfold collectSide, sideEntries.
  destruct (decide (sidedef ≠ 65535 ∧ sidedef < len sidedefs)) as [Hs|Hs].
  - destruct (sideSector_Some _ _ _ Hwf H0 Hs) as (sd & -> & -> & Hsd1 & Hsd2).
    cbn [mbind result_bind].
    rewrite appendVertex_spec by lia.
    cbn [mbind result_bind].
    rewrite appendVertex_spec by (rewrite len_imap; lia).
    rewrite imap_withEntries. f_equal. apply imap_ext. intros k s _. simpl.
    f_equal. destruct (decide (Z.of_nat k = SideDef.sector sd)) as [->|Hne].
    + by rewrite decide_True.
    + rewrite decide_False; [done|]. by intros [=].
  - f_equal. apply list_eq. intros k. rewrite list_lookup_imap.
    destruct (sectors !! k); [|done]. simpl.
    unfold sideSector. rewrite (decide_False (P := _ ∧ _)) by done.
    rewrite decide_False by done. by rewrite withEntries_nil.
Qed.

Lemma wfSidedef_len sectors sectors' sidedefs :
  len sectors' = len sectors →
  Forall (wfSidedef sectors) sidedefs → Forall (wfSidedef sectors') sidedefs.
Proof.
  intros Hl H. eapply Forall_impl; [exact H|].
  intros sd. unfold wfSidedef. by rewrite Hl.
Qed.

Lemma collectVertices_spec sidedefs linedefs sectors :
  Forall (wfSidedef sectors) sidedefs → Forall wfLinedef linedefs →
  collectVertices sidedefs linedefs sectors
  = Ok (imap (λ k, withEntries (boundingEntries sidedefs linedefs (Z.of_nat k)))
          sectors).
Proof.
  revert sectors. induction linedefs as [|l ls IH]; intros sectors Hsd Hld.
  - cbn [collectVertices boundingEntries]. f_equal. apply list_eq. intros k.
    rewrite list_lookup_imap. destruct (sectors !! k); [|done].
    simpl. by rewrite withEntries_nil.
  - apply Forall_cons_1 in Hld as [(_ & _ & Hf & Hb) Hld].
    cbn [collectVertices boundingEntries].
    rewrite collectSide_spec by done. cbn [mbind result_bind].
    rewrite collectSide_spec;
      [|eapply wfSidedef_len; [apply len_imap|done]|done].
    cbn [mbind result_bind].
    rewrite IH; [|eapply wfSidedef_len; [by rewrite !len_imap|done]|done].
    by rewrite !imap_withEntries.
Qed.

Lemma boundingEntries_nonneg sidedefs linedefs k :
  Forall wfLinedef linedefs →
  Forall (λ v, 0 ≤ v) (boundingEntries sidedefs linedefs k).
Proof.
  induction 1 as [|l ls (Hb & He & _) _ IH]; [constructor|].
  cbn [boundingEntries]. unfold sideEntries.
  repeat case_decide; repeat (apply Forall_app; split);
    repeat (apply Forall_cons; split); done.
Qed.

Lemma sectorPoints_spec vertexes vs xs ys :
  Forall (λ v, 0 ≤ v) vs →
  sectorPoints vertexes vs xs ys
  = Ok (xs ++ (Vertex.x <$> boundingPoints vertexes vs),
        ys ++ (Vertex.y <$> boundingPoints vertexes vs)).
Proof.
  intros Hvs. revert xs ys.
  induction Hvs as [|v vs Hv _ IH]; intros xs ys.
  - simpl. by rewrite !app_nil_r.
  - cbn [sectorPoints]. unfold boundingPoints. cbn [omap list_omap].
    fold (boundingPoints vertexes vs).
    destruct (decide (v < len vertexes)) as [Hlt|Hge].
    + destruct (py_index_Ok_nonneg vertexes v ltac:(lia)) as (a & Ha & ->).
      cbn [mbind result_bind]. rewrite decide_True by lia. rewrite Ha.
      rewrite IH, !fmap_cons, <- !app_assoc. done.
    + rewrite decide_False by lia. apply IH.
Qed.

Lemma foldl_max_spec (l : list Z) (a : Z) :
  (∀ x, x ∈ a :: l → x ≤ foldl Z.max a l) ∧ foldl Z.max a l ∈ a :: l.
Proof.
  revert a. induction l as [|b l IH]; intros a.
  - simpl. split; [|by left]. intros x ->%list_elem_of_singleton. lia.
  - cbn [foldl]. destruct (IH (Z.max a b)) as [Hub Hin]. split.
    + intros x Hx. pose proof (Hub (Z.max a b) ltac:(by left)).
      apply elem_of_cons in Hx as [->|Hx]; [lia|].
      apply elem_of_cons in Hx as [->|Hx]; [lia|].
      apply Hub. by right.
    + apply elem_of_cons in Hin as [Heq|Hin]; [|by do 2 right].
      rewrite Heq. destruct (Z.max_spec a b) as [[_ ->]|[_ ->]];
        [right|]; by left.
Qed.

Lemma foldl_min_spec (l : list Z) (a : Z) :
  (∀ x, x ∈ a :: l → foldl Z.min a l ≤ x) ∧ foldl Z.min a l ∈ a :: l.
Proof.
  revert a. induction l as [|b l IH]; intros a.
  - simpl. split; [|by left]. intros x ->%list_elem_of_singleton. lia.
  - cbn [foldl]. destruct (IH (Z.min a b)) as [Hlb Hin]. split.
    + intros x Hx. pose proof (Hlb (Z.min a b) ltac:(by left)).
      apply elem_of_cons in Hx as [->|Hx]; [lia|].
      apply elem_of_cons in Hx as [->|Hx]; [lia|].
      apply Hlb. by right.
    + apply elem_of_cons in Hin as [Heq|Hin]; [|by do 2 right].
      rewrite Heq. destruct (Z.min_spec a b) as [[_ ->]|[_ ->]];
        [|right]; by left.
Qed.

(** The spread [max(l) - min(l)] of a list that is not empty. *)
Lemma spread_lt (l : list Z) (w : Z) :
  l ≠ [] → py_max l - py_min l < w ↔ ∀ a b, a ∈ l → b ∈ l → a - b < w.
Proof.
  destruct l as [|c l]; [done|]. intros _. unfold py_max, py_min.
  destruct (foldl_max_spec l c) as [Hub Hmax].
  destruct (foldl_min_spec l c) as [Hlb Hmin]. split.
  - intros H a b Ha Hb. specialize (Hub a Ha). specialize (Hlb b Hb). lia.
  - intros H. by apply H.
Qed.

Lemma checkSector_spec vertexes s :
  Forall (λ v, 0 ≤ v) (Sector.listOfVerteces s) →
  ∃ s', checkSector vertexes s = Ok s'
        ∧ (degenerate vertexes (Sector.listOfVerteces s) → s' = failHOM s)
        ∧ (¬ degenerate vertexes (Sector.listOfVerteces s) → s' = s).
Proof.
  intros Hvs. unfold checkSector, degenerate.
  destruct (decide (len (Sector.listOfVerteces s) < 6)) as [Hlen|Hlen].
  { exists (failHOM s). split; [done|]. split; [done|]. intros Hn. tauto. }
  rewrite sectorPoints_spec by done. cbn [mbind result_bind fst snd app].
  set (pts := boundingPoints vertexes (Sector.listOfVerteces s)).
  assert ((len (Vertex.x <$> pts) = 0
           ∨ py_max (Vertex.x <$> pts) - py_min (Vertex.x <$> pts) < 2
           ∨ py_max (Vertex.y <$> pts) - py_min (Vertex.y <$> pts) < 2)
          ↔ ((∀ a b, a ∈ pts → b ∈ pts → Vertex.x a - Vertex.x b < 2)
             ∨ (∀ a b, a ∈ pts → b ∈ pts → Vertex.y a - Vertex.y b < 2)))
    as Hiff.
  { destruct pts as [|c pts'] eqn:Hpts.
    { split; [|by left]. intros _. left. by intros a b ?%elem_of_nil. }
    rewrite <- Hpts.
    assert (Vertex.x <$> pts ≠ []) as Hx by (by rewrite Hpts).
    assert (Vertex.y <$> pts ≠ []) as Hy by (by rewrite Hpts).
    rewrite (spread_lt _ _ Hx), (spread_lt _ _ Hy).
    assert (len (Vertex.x <$> pts) ≠ 0)
      by (rewrite Hpts; unfold len; simpl; lia).
    split.
    - intros [?|[H1|H1]]; [done|left|right]; intros a b Ha Hb;
        apply H1; by apply list_elem_of_fmap_2.
    - intros [H1|H1]; right; [left|right];
        intros a b (a' & -> & Ha)%list_elem_of_fmap
                   (b' & -> & Hb)%list_elem_of_fmap; by apply H1. }
  case_decide as Hc.
  - exists (failHOM s). split; [done|]. split; [done|].
    intros Hn. exfalso. apply Hn. right. by apply Hiff.
  - exists s. split; [done|]. split; [|done].
    intros [?|Hd]; [done|]. exfalso. apply Hc. by apply Hiff.
Qed.

Lemma checkSectors_spec vertexes sectors :
  Forall (λ s, Forall (λ v, 0 ≤ v) (Sector.listOfVerteces s)) sectors →
  ∃ sectors', checkSectors vertexes sectors = Ok sectors'
    ∧ length sectors' = length sectors
    ∧ ∀ k s, sectors !! k = Some s →
             ∃ s', sectors' !! k = Some s' ∧ checkSector vertexes s = Ok s'.
Proof.
  induction 1 as [|s sectors Hs _ (rest & Hrest & Hlen & IH)].
  - exists []. by split.
  - destruct (checkSector_spec vertexes s Hs) as (s' & Hs' & _).
    exists (s' :: rest). cbn [checkSectors]. rewrite Hs', Hrest.
    split; [done|]. split; [simpl; lia|].
    intros [|k] s0; simpl; [intros [= <-]; by exists s'|apply IH].
Qed.

(** What [checkHOM] does to sectors that come straight from the loader. *)
Lemma checkHOM_spec vertexes linedefs sidedefs sectors :
  Forall wfLinedef linedefs → Forall (wfSidedef sectors) sidedefs →
  Forall freshSector sectors →
  ∃ sectors', checkHOM vertexes linedefs sidedefs sectors = Ok sectors'
    ∧ length sectors' = length sectors
    ∧ ∀ k s', sectors' !! k = Some s' →
        let entries := boundingEntries sidedefs linedefs (Z.of_nat k) in
        Sector.listOfVerteces s' = entries
        ∧ (degenerate vertexes entries → Sector.HOMpassed s' = false)
        ∧ (¬ degenerate vertexes entries → Sector.HOMpassed s' = true).
Proof.
  intros Hld Hsd Hfresh. unfold checkHOM.
  rewrite collectVertices_spec by done. cbn [mbind result_bind].
  set (sectors1 := imap _ sectors).
  assert (∀ k s1, sectors1 !! k = Some s1 →
            Sector.listOfVerteces s1
            = boundingEntries sidedefs linedefs (Z.of_nat k)
            ∧ Sector.HOMpassed s1 = true) as H1.
  { intros k s1. unfold sectors1. rewrite list_lookup_imap.
    destruct (sectors !! k) as [s|] eqn:Hk; [|done]. simpl. intros [= <-].
    pose proof (proj1 (Forall_forall _ _) Hfresh s
                  (list_elem_of_lookup_2 _ _ _ Hk)) as [Hl Hh].
    unfold withEntries. simpl. by rewrite Hl. }
  destruct (checkSectors_spec vertexes sectors1) as (sectors' & -> & Hlen & Hk).
  { apply Forall_forall. intros s1 Hin.
    apply list_elem_of_lookup_1 in Hin as [k Hk].
    rewrite (proj1 (H1 _ _ Hk)). by apply boundingEntries_nonneg. }
  exists sectors'. split; [done|].
  split; [rewrite Hlen; unfold sectors1; by rewrite length_imap|].
  intros k s' Hs'.
  destruct (lookup_lt_is_Some_2 sectors1 k) as [s1 Hs1];
    [rewrite <- Hlen; by eapply lookup_lt_Some|].
  destruct (Hk _ _ Hs1) as (s'' & Hs'' & Hcheck).
  assert (s'' = s') as -> by congruence.
  destruct (H1 _ _ Hs1) as [Hl Hh].
  destruct (checkSector_spec vertexes s1) as (s2 & Hs2 & Hdeg & Hok).
  { rewrite Hl. by apply boundingEntries_nonneg. }
  assert (s2 = s') as -> by congruence.
  rewrite Hl in Hdeg, Hok. cbn zeta. split; [|split].
  - destruct (checkSector_spec vertexes s1) as (s3 & Hs3 & _);
      [rewrite Hl; by apply boundingEntries_nonneg|].
    unfold checkSector in Hs2. repeat case_decide;
      try (destruct (sectorPoints _ _ _ _); simpl in Hs2; [|done]);
      repeat case_decide; injection Hs2 as <-; done.
  - intros Hd. by rewrite (Hdeg Hd).
  - intros Hd. by rewrite (Hok Hd).
Qed.

(** ** A rejected sector never reaches the sector-index buffer *)

Lemma seamNeighbours_avoids k bt p ds acc m :
  avoids k bt → acc ≠ k → int16 acc = acc →
  seamNeighbours bt p ds acc = Ok m → m ≠ k ∧ int16 m = m.
Proof.
  intros Hav. revert acc. induction ds as [|d ds IH]; intros acc Hacc Hi.
  - by intros [= <-].
  - cbn [seamNeighbours]. unfold getsector, getpixel.
    destruct (locate (size bt) _) as [q'|] eqn:Hl; [|done].
    cbn [mbind result_bind].
    destruct (Hav q' (locate_Some _ _ _ Hl)) as [Hk Hq].
    case_decide; [|by apply IH].
    apply IH; destruct (Z.max_spec acc (sectorData bt q')) as [[_ ->]|[_ ->]];
      done.
Qed.

Lemma seamPixel_avoids k bt p bt' :
  k ≠ -1 → avoids k bt → seamPixel bt p = Ok bt' →
  size bt' = size bt ∧ avoids k bt'.
Proof.
  intros Hk Hav. unfold seamPixel, getpixel.
  destruct (locate (size bt) p) as [p'|] eqn:Hl; [|done].
  cbn [mbind result_bind]. case_decide; [|by intros [= <-]].
  destruct (seamNeighbours bt p seamDirs (-1)) as [m|] eqn:Hm; [|done].
  cbn [mbind result_bind]. case_decide; [|by intros [= <-]].
  unfold putsector. rewrite Hl. cbn [mbind result_bind].
  unfold putpixel. cbn [size]. rewrite Hl. intros [= <-].
  split; [done|]. intros q Hq. cbn [sectorData size] in *.
  destruct (seamNeighbours_avoids k bt p seamDirs (-1) m Hav
              ltac:(lia) eq_refl Hm) as [Hmk Hmi].
  destruct (decide (p' = q)) as [<-|Hne].
  - rewrite fn_lookup_insert, Hmi. done.
  - rewrite fn_lookup_insert_ne by done. by apply Hav.
Qed.

Lemma fillSeams_avoids k b b' :
  k ≠ -1 → avoids k b → fillSeams b = Ok b' →
  size b' = size b ∧ avoids k b'.
Proof.
  intros Hk. unfold fillSeams. generalize (coords (size b)) as ps.
  intros ps. revert b. induction ps as [|p ps IH]; intros b Hav.
  - by intros [= <-].
  - cbn [seamLoop]. destruct (seamPixel b p) as [b1|] eqn:H1; [|done].
    cbn [mbind result_bind].
    destruct (seamPixel_avoids _ _ _ _ Hk Hav H1) as [Hsz Hav1].
    intros H. apply IH in H as [Hsz' Hav']; [|done].
    split; [congruence|done].
Qed.

Lemma int16_hit s k :
  0 ≤ s < 65536 → 0 ≤ k → int16 s = k → s = k.
Proof.
  intros Hs Hk. destruct (decide (s < 32768)) as [Hlt|Hge].
  - by rewrite int16_small by lia.
  - unfold int16.
    assert ((s + 32768) mod 65536 = s - 32768) as ->
      by (symmetry; apply (Z.mod_unique_pos _ _ 1); lia).
    lia.
Qed.

(** C2 (as the code has it).  On sectors that come from the loader, with
    every side pointing at an existing sector, [checkHOM] returns; a sector
    with fewer than six recorded vertex entries, or whose recorded vertices
    span less than 2 units in x or in y, is marked invalid; [drawMap] then
    starts no flood fill for it, and neither the fill pass nor the seam
    repair writes its index into the sector-index buffer. *)
Theorem checkHOM_excludes (vertexes : list Vertex.t)
    (linedefs : list LineDef.t) (sidedefs : list SideDef.t)
    (sectors : list Sector.t) :
  Forall wfLinedef linedefs → Forall (wfSidedef sectors) sidedefs →
  Forall freshSector sectors →
  ∃ sectors',
    checkHOM vertexes linedefs sidedefs sectors = Ok sectors'
    ∧ ∀ (k : nat) s',
        sectors' !! k = Some s' →
        degenerate vertexes (boundingEntries sidedefs linedefs (Z.of_nat k)) →
        Sector.HOMpassed s' = false
        ∧ (∀ ox oy linedef right sidedef b,
             sideSector sidedefs sidedef = Some (Z.of_nat k) →
             fillSide vertexes sidedefs sectors' ox oy linedef right sidedef b
             = Some (Ok b))
        ∧ (∀ ox oy b,
             freshBlueprint b →
             ∃ r, fillSectors vertexes sidedefs sectors' ox oy linedefs b
                  = Some r
                  ∧ ∀ b1, r = Ok b1 →
                      (∀ q, inside (size b) q → sectorData b1 q ≠ Z.of_nat k)
                      ∧ ∀ b2, fillSeams b1 = Ok b2 →
                              ∀ q, inside (size b) q →
                                   sectorData b2 q ≠ Z.of_nat k).
Proof.
  intros Hld Hsd Hfresh.
  destruct (checkHOM_spec vertexes linedefs sidedefs sectors Hld Hsd Hfresh)
    as (sectors' & Hcheck & Hlen & Hspec).
  exists sectors'. split; [done|]. intros k s' Hk Hdeg.
  destruct (Hspec k s' Hk) as (_ & Hfail & _). specialize (Hfail Hdeg).
  assert (py_index sectors' (Z.of_nat k) = Ok s') as Hpy.
  { rewrite py_index_nonneg by lia. by rewrite Nat2Z.id, Hk. }
  split; [done|]. split.
  - intros ox oy linedef right sidedef b. unfold sideSector, fillSide.
    case_decide; [|done].
    destruct (py_index sidedefs sidedef) as [sd|]; [|done].
    intros [= ->]. by rewrite Hpy, Hfail.
  - intros ox oy b Hb.
    destruct (fillSectors_terminates vertexes sidedefs sectors' ox oy linedefs b)
      as [r Hr].
    exists r. split; [done|]. intros b1 ->.
    set (P := λ s, validSector sectors' s ∧ 0 ≤ s < 65536).
    assert (∀ sd, sd ∈ sidedefs → validSector sectors' (SideDef.sector sd) →
                  P (SideDef.sector sd)) as HP.
    { intros sd Hin Hv. split; [done|].
      by apply (proj1 (Forall_forall _ _) Hsd sd Hin). }
    destruct (fillSectors_inv vertexes sidedefs sectors' ox oy P HP
                linedefs b b1) as (Hinv & Hfrom & Hsz); [| |done|].
    { by apply blueprintInv_initial. }
    { intros q Hq. left. by apply Hb. }
    assert (avoids (Z.of_nat k) b1) as Hav.
    { intros q Hq. destruct (Hfrom q Hq) as [->|(s & [Hv Hs] & ->)].
      - split; [lia|done].
      - split; [|apply int16_idem]. intros Heq.
        apply int16_hit in Heq; [|done|lia]. subst s.
        destruct Hv as (sec & Hsec & Hhom). congruence. }
    split.
    + intros q Hq. apply Hav. by rewrite Hsz.
    + intros b2 H2 q Hq.
      destruct (fillSeams_avoids (Z.of_nat k) _ _ ltac:(lia) Hav H2)
        as [Hsz2 Hav2].
      apply Hav2. by rewrite Hsz2, Hsz.
Qed.

(** ** Wall synthesis *)

Lemma filter_none {A} (P : A → Prop) `{!∀ x, Decision (P x)} (l : list A) :
  Forall (λ x, ¬ P x) l → filter P l = [].
Proof.
  induction 1 as [|x l Hx _ IH]; [done|].
  by rewrite filter_cons, decide_False.
Qed.

Lemma resolves_index {A} (l : list A) i a :
  resolves l i a → py_index l i = Ok a ∧ i < len l.
Proof.
  intros [Hi Hl]. rewrite py_index_nonneg by done. rewrite Hl.
  split; [done|]. apply lookup_lt_Some in Hl. unfold len. lia.
Qed.

Lemma middleWalls_twoSided vertexes sidedefs sectors linedef
    start end_ fsd bsd fs bs isBack :
  twoSided vertexes sidedefs sectors linedef start end_ fsd bsd fs bs →
  middleWalls sidedefs sectors linedef start end_ isBack =
    Ok (if decide (SideDef.middle fsd ≠ noTexture) then
          let floor := Z.max (Sector.floorHeight fs) (Sector.floorHeight bs) in
          let ceiling :=
            Z.min (Sector.ceilingHeight fs) (Sector.ceilingHeight bs) in
          [Wall.Make (Vertex.x start) (Vertex.y start)
             (Vertex.x end_) (Vertex.y end_) floor ceiling
             (SideDef.middle fsd) (SideDef.xOffset fsd) (SideDef.yOffset fsd)
             false Mid (Sector.light fs) isBack;
           Wall.Make (Vertex.x end_) (Vertex.y end_)
             (Vertex.x start) (Vertex.y start) floor ceiling
             (SideDef.middle bsd) (SideDef.xOffset bsd) (SideDef.yOffset bsd)
             false Mid (Sector.light bs) isBack]
        else []).
Proof.
  intros (_ & _ & Hf & Hb & Hb' & Hfs & Hbs).
  apply resolves_index in Hf as [Hf Hfl], Hb as [Hb Hbl].
  apply resolves_index in Hfs as [Hfs _], Hbs as [Hbs _].
  unfold middleWalls. rewrite decide_True by done. rewrite Hf.
  cbn [mbind result_bind]. case_decide; [|done].
  rewrite Hfs. cbn [mbind result_bind]. rewrite decide_True by done.
  rewrite Hb. cbn [mbind result_bind]. rewrite Hbs. done.
Qed.

Lemma stepWalls_twoSided vertexes sidedefs sectors linedef
    start end_ fsd bsd fs bs isBack :
  twoSided vertexes sidedefs sectors linedef start end_ fsd bsd fs bs →
  ∃ bottoms tops,
    stepWalls sidedefs sectors linedef start end_ isBack = Ok (bottoms ++ tops)
    ∧ Forall (λ w, Wall.position w = Bottom) bottoms
    ∧ ((Sector.ceilingHeight fs = Sector.ceilingHeight bs
        ∨ isSkyCeiling bs && isSkyCeiling fs = true) ∧ tops = []
       ∨ (Sector.ceilingHeight fs ≠ Sector.ceilingHeight bs
          ∧ isSkyCeiling bs && isSkyCeiling fs = false
          ∧ ∃ w, tops = [w] ∧ Wall.position w = Top
                 ∧ Wall.floor w = Z.min (Sector.ceilingHeight fs)
                                        (Sector.ceilingHeight bs)
                 ∧ Wall.ceiling w = Z.max (Sector.ceilingHeight fs)
                                          (Sector.ceilingHeight bs)
                 ∧ (Wall.sx w, Wall.sy w, Wall.ex w, Wall.ey w)
                   = (Vertex.x start, Vertex.y start,
                      Vertex.x end_, Vertex.y end_))).
Proof.
  intros (_ & _ & Hf & Hb & Hb' & Hfs & Hbs).
  apply resolves_index in Hf as [Hf Hfl], Hb as [Hb Hbl].
  apply resolves_index in Hfs as [Hfs _], Hbs as [Hbs _].
  unfold stepWalls. rewrite decide_True by done. rewrite Hf, Hb.
  cbn [mbind result_bind]. rewrite Hfs, Hbs. cbn [mbind result_bind].
  fold (isSkyCeiling bs) (isSkyCeiling fs).
  set (bottomPart := if decide (Sector.floorHeight fs ≠ Sector.floorHeight bs)
                     then _ else _).
  assert (∃ bottoms isBack', bottomPart = Ok (bottoms, isBack')
            ∧ Forall (λ w, Wall.position w = Bottom) bottoms)
    as (bottoms & isBack' & -> & Hbottoms).
  { unfold bottomPart. case_decide; [|by exists (@nil Wall.t), isBack].
    case_decide; rewrite ?Hfs, ?Hbs; cbn [mbind result_bind];
      eexists _, _; (split; [done|]); by repeat constructor. }
  cbn [mbind result_bind fst snd]. exists bottoms.
  destruct (decide (Sector.ceilingHeight fs ≠ Sector.ceilingHeight bs))
    as [Hne|Heq]; cycle 1.
  { exists (@nil Wall.t). cbn [mbind result_bind]. rewrite app_nil_r.
    split; [done|]. split; [done|].
    left. split; [|done]. left.
    by destruct (decide (Sector.ceilingHeight fs = Sector.ceilingHeight bs)). }
  destruct (isSkyCeiling bs && isSkyCeiling fs) eqn:Hsky; cbn [negb].
  { exists (@nil Wall.t). cbn [mbind result_bind]. rewrite app_nil_r.
    split; [done|]. split; [done|].
    left. split; [by right|done]. }
  case_decide; rewrite ?Hfs, ?Hbs; cbn [mbind result_bind];
    eexists [_]; (split; [done|]); (split; [done|]);
    right; (split; [done|]); (split; [done|]); eexists; by split.
Qed.

Lemma linedefWalls_twoSided vertexes sidedefs sectors linedef
    start end_ fsd bsd fs bs :
  twoSided vertexes sidedefs sectors linedef start end_ fsd bsd fs bs →
  ∃ middle steps,
    linedefWalls vertexes sidedefs sectors linedef
      = Ok (Some (start, end_, middle ++ steps))
    ∧ middleWalls sidedefs sectors linedef start end_ false = Ok middle
    ∧ stepWalls sidedefs sectors linedef start end_ false = Ok steps.
Proof.
  intros Hts. pose proof Hts as (Hs & He & _).
  apply resolves_index in Hs as [Hs Hsl], He as [He Hel].
  destruct (stepWalls_twoSided _ _ _ _ _ _ _ _ _ _ false Hts)
    as (bottoms & tops & Hstep & _).
  unfold linedefWalls. rewrite decide_False by lia. rewrite Hs, He.
  cbn [mbind result_bind].
  rewrite (middleWalls_twoSided _ _ _ _ _ _ _ _ _ _ false Hts) in *.
  cbn [mbind result_bind]. rewrite Hstep. cbn [mbind result_bind].
  by eexists _, _.
Qed.

(** C5.  For a two-sided linedef whose front side has a middle texture
    other than ["-"], wall synthesis appends exactly two [Mid] walls: the
    first runs from the start to the end vertex, the second has start and
    end swapped, and both span from the higher floor to the lower ceiling
    of the two sectors. *)
Theorem genWalls_mid_pair (vertexes : list Vertex.t)
    (sidedefs : list SideDef.t) (sectors : list Sector.t)
    (linedef : LineDef.t) (start end_ : Vertex.t) (fsd bsd : SideDef.t)
    (fs bs : Sector.t) :
  twoSided vertexes sidedefs sectors linedef start end_ fsd bsd fs bs →
  SideDef.middle fsd ≠ noTexture →
  ∃ ws w1 w2,
    linedefWalls vertexes sidedefs sectors linedef
      = Ok (Some (start, end_, ws))
    ∧ filter (λ w, Wall.position w = Mid) ws = [w1; w2]
    ∧ (Wall.sx w1, Wall.sy w1, Wall.ex w1, Wall.ey w1)
      = (Vertex.x start, Vertex.y start, Vertex.x end_, Vertex.y end_)
    ∧ (Wall.sx w2, Wall.sy w2, Wall.ex w2, Wall.ey w2)
      = (Wall.ex w1, Wall.ey w1, Wall.sx w1, Wall.sy w1)
    ∧ Wall.floor w1 = Z.max (Sector.floorHeight fs) (Sector.floorHeight bs)
    ∧ Wall.ceiling w1
      = Z.min (Sector.ceilingHeight fs) (Sector.ceilingHeight bs)
    ∧ Wall.floor w2 = Wall.floor w1
    ∧ Wall.ceiling w2 = Wall.ceiling w1.
Proof.
  intros Hts Hmid.
  destruct (linedefWalls_twoSided _ _ _ _ _ _ _ _ _ _ Hts)
    as (middle & steps & Hws & Hm & Hs).
  rewrite (middleWalls_twoSided _ _ _ _ _ _ _ _ _ _ false Hts) in Hm.
  rewrite decide_True in Hm by done. cbn zeta in Hm. injection Hm as <-.
  destruct (stepWalls_twoSided _ _ _ _ _ _ _ _ _ _ false Hts)
    as (bottoms & tops & Hs' & Hb & Ht).
  rewrite Hs in Hs'. injection Hs' as ->.
  assert (filter (λ w, Wall.position w = Mid) (bottoms ++ tops) = []) as Hnone.
  { apply filter_none, Forall_app. split.
    - eapply Forall_impl; [exact Hb|]. intros w ->. done.
    - destruct Ht as [[_ ->]|(_ & _ & w & -> & Hw & _)]; [constructor|].
      apply Forall_singleton. by rewrite Hw. }
  eexists _, _, _. split; [exact Hws|].
  rewrite filter_app, Hnone, app_nil_r.
  rewrite !filter_cons, !decide_True by done. rewrite filter_nil.
  by repeat split.
Qed.

(** C7.  For a two-sided linedef, wall synthesis appends no [Top] wall
    when both sectors have the sky ceiling texture, whatever the ceiling
    heights; and when the ceiling heights differ and at least one of the two
    sectors is not sky, it appends exactly one [Top] wall, which spans from
    the lower to the higher ceiling. *)
Theorem genWalls_top_sky (vertexes : list Vertex.t)
    (sidedefs : list SideDef.t) (sectors : list Sector.t)
    (linedef : LineDef.t) (start end_ : Vertex.t) (fsd bsd : SideDef.t)
    (fs bs : Sector.t) :
  twoSided vertexes sidedefs sectors linedef start end_ fsd bsd fs bs →
  ∃ ws,
    linedefWalls vertexes sidedefs sectors linedef
      = Ok (Some (start, end_, ws))
    ∧ (isSkyCeiling fs = true → isSkyCeiling bs = true →
       filter (λ w, Wall.position w = Top) ws = [])
    ∧ (isSkyCeiling fs = false ∨ isSkyCeiling bs = false →
       Sector.ceilingHeight fs ≠ Sector.ceilingHeight bs →
       ∃ w, filter (λ w, Wall.position w = Top) ws = [w]
            ∧ Wall.floor w = Z.min (Sector.ceilingHeight fs)
                                   (Sector.ceilingHeight bs)
            ∧ Wall.ceiling w = Z.max (Sector.ceilingHeight fs)
                                     (Sector.ceilingHeight bs)).
Proof.
  intros Hts.
  destruct (linedefWalls_twoSided _ _ _ _ _ _ _ _ _ _ Hts)
    as (middle & steps & Hws & Hm & Hs).
  rewrite (middleWalls_twoSided _ _ _ _ _ _ _ _ _ _ false Hts) in Hm.
  destruct (stepWalls_twoSided _ _ _ _ _ _ _ _ _ _ false Hts)
    as (bottoms & tops & Hs' & Hb & Ht).
  rewrite Hs in Hs'. injection Hs' as ->.
  assert (filter (λ w, Wall.position w = Top) middle = []) as Hmiddle.
  { injection Hm as <-. case_decide; [|done]. cbn zeta.
    by rewrite !filter_cons, !decide_False. }
  assert (filter (λ w, Wall.position w = Top) bottoms = []) as Hbottoms.
  { apply filter_none. eapply Forall_impl; [exact Hb|]. intros w ->. done. }
  exists (middle ++ bottoms ++ tops). split; [done|].
  rewrite !filter_app, Hmiddle, Hbottoms. cbn [app]. split.
  - intros Hf Hbk. destruct Ht as [[_ ->]|(_ & Hsky & _)]; [done|].
    by rewrite Hf, Hbk in Hsky.
  - intros Hsky Hne.
    destruct Ht as [[[?|Hboth] _]|(_ & _ & w & -> & Hw & Hfl & Hcl & _)].
    + done.
    + apply andb_true_iff in Hboth as [? ?].
      destruct Hsky; congruence.
    + exists w. rewrite filter_cons, decide_True by done.
      by rewrite filter_nil.
Qed.

(** ** The loaders on an absent lump *)

(** C4.  With an absent lump ([None]) the loaders of linedefs, sidedefs,
    sectors and things return the empty list, but [getVertixes] has no
    such guard and raises [AttributeError]. *)
Theorem loaders_absent_lump (upper : string → string) (zStyle : bool) :
  getVertixes None = Raise AttributeError
  ∧ getLineDefs None zStyle = Ok []
  ∧ getSideDefs upper None = Ok []
  ∧ getSectors upper None = Ok []
  ∧ getThings None zStyle = Ok [].
Proof. by repeat split. Qed.

(** ** The sprite rotation index *)

(** C9.  For a facing angle from 0 to 359 the rotation index of
    [parseThings] is [((14 - angle/45) mod 8) + 1], the division being the
    integer division (rounding down or truncating, which agree here), and
    it lies between 1 and 8; the name it is looked up under is one digit. *)
Theorem spriteAngle_range (angle : Z) :
  0 ≤ angle ≤ 359 →
  spriteAngle angle = (14 - angle / 45) mod 8 + 1
  ∧ spriteAngle angle = Z.rem (14 - Z.quot angle 45) 8 + 1
  ∧ 1 ≤ spriteAngle angle ≤ 8
  ∧ String.length (str (spriteAngle angle)) = 1%nat.
Proof.
  intros Ha. unfold spriteAngle. split; [done|].
  assert (0 ≤ angle / 45 ≤ 7) as Hq.
  { split; [apply Z.div_pos; lia|].
    enough (angle / 45 < 8) by lia. apply Z.div_lt_upper_bound; lia. }
  rewrite Z.quot_div_nonneg by lia.
  rewrite Z.rem_mod_nonneg by lia.
  split; [done|].
  pose proof (Z.mod_pos_bound (14 - angle / 45) 8 ltac:(lia)) as Hm.
  split; [lia|].
  assert (∀ n, 1 ≤ n ≤ 8 → String.length (str n) = 1%nat) as Hstr.
  { intros n Hn.
    assert (n = 1 ∨ n = 2 ∨ n = 3 ∨ n = 4 ∨ n = 5 ∨ n = 6 ∨ n = 7 ∨ n = 8)
      as Hcases by lia.
    destruct Hcases as [->|[->|[->|[->|[->|[->|[->| ->]]]]]]]; reflexivity. }
  apply Hstr. lia.
Qed.

(** ** Palette snapping *)

Lemma colorDistance_nonneg pixel pal : 0 ≤ colorDistance pixel pal.
Proof. unfold colorDistance. lia. Qed.

Lemma colorDistance_zero pixel pal : colorDistance pixel pal = 0 → pal = pixel.
Proof.
  destruct pixel as [[r g] b], pal as [[r' g'] b'].
  unfold colorDistance. simpl. intros H.
  assert (r' = r ∧ g' = g ∧ b' = b) as (-> & -> & ->) by lia. done.
Qed.

Lemma colorDistance_self pixel : colorDistance pixel pixel = 0.
Proof. unfold colorDistance. lia. Qed.

(** Once the search holds the pixel itself at distance 0 it keeps it, and
    it gets there when it meets the pixel in the palette. *)
Lemma closestScan_fold pixel (pallete : list color) (st : color * Z) :
  (0 < st.2 ∧ pixel ∈ pallete) ∨ st = (pixel, 0) →
  foldl (λ st pal,
           let distance := colorDistance pixel pal in
           if decide (distance < st.2) then (pal, distance) else st)
        st pallete = (pixel, 0).
Proof.
  revert st. induction pallete as [|pal pallete IH]; intros st Hst.
  - destruct Hst as [[_ Hin]|Hst]; [by apply elem_of_nil in Hin|by subst].
  - cbn [foldl]. apply IH. cbn zeta.
    pose proof (colorDistance_nonneg pixel pal) as Hnn.
    destruct Hst as [[Hpos Hin]|Hst]; [|subst st].
    + case_decide as Hlt.
      * destruct (decide (colorDistance pixel pal = 0)) as [Hz|Hnz].
        -- right. rewrite Hz. by rewrite (colorDistance_zero _ _ Hz).
        -- apply elem_of_cons in Hin as [->|Hin].
           ++ by rewrite colorDistance_self in Hnz.
           ++ left. simpl. split; [lia|done].
      * apply elem_of_cons in Hin as [->|Hin].
        -- rewrite colorDistance_self in Hlt. lia.
        -- left. done.
    + right. simpl. rewrite decide_False by lia. done.
Qed.

Lemma closestScan_member pixel pallete :
  pixel ∈ pallete → closestScan pixel pallete = (pixel, 0).
Proof.
  intros Hin. unfold closestScan. apply closestScan_fold. left.
  split; [simpl; lia|done].
Qed.

Lemma palletizeLoop_lookup pallete mem (im : list pix) (k : nat) p :
  im !! k = Some p →
  ∃ mem', palletizeLoop pallete mem im !! k
          = Some (palletizePixel pallete mem' p).1.
Proof.
  revert mem k. induction im as [|p0 im IH]; intros mem k; [done|].
  cbn [palletizeLoop].
  destruct (palletizePixel pallete mem p0) as [p0' mem0] eqn:Hp0.
  destruct k as [|k]; simpl.
  - intros [= <-]. exists mem. by rewrite Hp0.
  - apply IH.
Qed.

(** C10.  A pixel whose RGB triple is an entry of the palette keeps that
    triple through [palletizePic]; and the nearest-colour search, run on
    such a triple, ends on the triple itself at distance 0. *)
Theorem palletize_idempotent (pallete : list color) (im : list pix)
    (k : nat) (p : pix) :
  im !! k = Some p → rgb p ∈ pallete →
  (∃ p', palletizePic im pallete !! k = Some p' ∧ rgb p' = rgb p)
  ∧ closestScan (rgb p) pallete = (rgb p, 0)
  ∧ (closestPix ∅ (rgb p) pallete).1 = rgb p.
Proof.
  intros Hk Hin. split; [|split].
  - destruct (palletizeLoop_lookup pallete ∅ im k p Hk) as [mem' Hl].
    eexists. split; [exact Hl|].
    unfold palletizePixel. rewrite decide_False by (by intros ?).
    by destruct p.
  - by apply closestScan_member.
  - unfold closestPix. rewrite lookup_empty. simpl.
    by rewrite closestScan_member.
Qed.

(** ** Gamma correction *)

Lemma gamma_roundtrip_check :
  forallb (λ d,
     match truncFloat (PrimFloat.mul
                         (PrimFloat.div (floatOfZ d) (floatOfZ 255))
                         (floatOfZ 255)) with
     | Ok v => v =? d
     | Raise _ => false
     end) (seqZ 0 256) = true.
Proof. vm_compute. reflexivity. Qed.

(** Dividing a band value by 255 and multiplying by 255 again, in double
    precision, truncates back to the value. *)
Lemma gamma_roundtrip d :
  0 ≤ d ≤ 255 →
  truncFloat (PrimFloat.mul (PrimFloat.div (floatOfZ d) (floatOfZ 255))
                            (floatOfZ 255)) = Ok d.
Proof.
  intros Hd. pose proof gamma_roundtrip_check as H.
  rewrite List.forallb_forall in H. specialize (H d).
  destruct (truncFloat _) as [v|e].
  - f_equal. apply Z.eqb_eq. apply H.
    apply list_elem_of_In, elem_of_seqZ. lia.
  - discriminate H. apply list_elem_of_In, elem_of_seqZ. lia.
Qed.

Lemma clip8_small v : 0 ≤ v ≤ 255 → clip8 v = v.
Proof. unfold clip8. lia. Qed.

Section gamma_facts.
Variable pow : float → float → result float.

Lemma gammaPixel_black gamma p :
  rgb p = (0, 0, 0) → gammaPixel pow gamma p = Ok p.
Proof. intros H. unfold gammaPixel. by rewrite decide_True. Qed.

Lemma gammaChannel_one d :
  (∀ x, pow x 1%float = Ok x) → 0 ≤ d ≤ 255 →
  gammaChannel pow 1%float d = Ok d.
Proof.
  intros Hpow Hd. unfold gammaChannel. rewrite Hpow.
  cbn [mbind result_bind]. by apply gamma_roundtrip.
Qed.

Lemma gammaPixel_one p :
  (∀ x, pow x 1%float = Ok x) → byteColor (rgb p) →
  ∃ p', gammaPixel pow 1%float p = Ok p'
        ∧ rgb p' = rgb p ∧ (∀ c, p = RGB c → p' = p).
Proof.
  intros Hpow (Hr & Hg & Hb). unfold gammaPixel.
  case_decide; [by exists p|].
  rewrite !gammaChannel_one by done. cbn [mbind result_bind].
  rewrite !clip8_small by done.
  eexists. split; [done|].
  destruct p as [[[r g] b]|[[r g] b] a]; simpl; by split.
Qed.

(** C8.  With [x ** 1 = x], gamma correction by 1 returns, and every
    pixel keeps its three colour bands (a pixel of an image without alpha
    band, such as the rendered image, is unchanged altogether); for every
    gamma, a pixel whose colour bands are all 0 is left as it is; and a
    band of another pixel becomes [int((data / 255) ** gamma * 255)]. *)
Theorem gammaCorrection_identity :
  (∀ x, pow x 1%float = Ok x) →
  (∀ im, Forall (λ p, byteColor (rgb p)) im →
         ∃ im', gammaCorrection pow im 1%float = Ok im'
                ∧ ∀ (k : nat) p, im !! k = Some p →
                    ∃ p', im' !! k = Some p' ∧ rgb p' = rgb p
                          ∧ (∀ c, p = RGB c → p' = p))
  ∧ (∀ gamma im im', gammaCorrection pow im gamma = Ok im' →
       ∀ (k : nat) p, im !! k = Some p → rgb p = (0, 0, 0) →
                      im' !! k = Some p)
  ∧ (∀ gamma data,
       gammaChannel pow gamma data
       = x ← pow (PrimFloat.div (floatOfZ data) (floatOfZ 255)) gamma;
         truncFloat (PrimFloat.mul x (floatOfZ 255))).
Proof.
  intros Hpow. split; [|split; [|done]].
  - induction 1 as [|p im Hp _ (im' & Him' & IH)].
    + exists []. by split.
    + destruct (gammaPixel_one p Hpow Hp) as (p' & Hp' & Hrgb & Hsame).
      exists (p' :: im'). cbn [gammaCorrection]. rewrite Hp', Him'.
      split; [done|]. intros [|k] p0; simpl.
      * intros [= <-]. by exists p'.
      * apply IH.
  - intros gamma im. induction im as [|p0 im IH]; intros im' H k p Hk Hblack.
    + done.
    + cbn [gammaCorrection] in H.
      destruct (gammaPixel pow gamma p0) as [p0'|] eqn:Hp0; [|done].
      cbn [mbind result_bind] in H.
      destruct (gammaCorrection pow im gamma) as [rest|] eqn:Hrest; [|done].
      injection H as <-. destruct k as [|k]; simpl in *.
      * injection Hk as ->. rewrite gammaPixel_black in Hp0 by done.
        by injection Hp0 as ->.
      * by eapply IH.
Qed.
End gamma_facts.

(** ** The depth test of the painters *)

Lemma writePixel_zBuffer c t col z q :
  zBuffer (writePixel c t col z) q
  = if decide (t = q) then int16 z else zBuffer c q.
Proof. unfold writePixel, insert, fn_insert. simpl. done. Qed.

(** What one painted pixel can do to the canvas. *)
Lemma applyOp_cases c op :
  applyOp c op = c
  ∨ (¬ offCanvas c (opTarget op) ∧ opDepth op > zBuffer c (opTarget op)
     ∧ ((opOpaque op
         ∧ ∃ col, applyOp c op = writePixel c (opTarget op) col (opDepth op))
        ∨ (∃ col, applyOp c op
                  = Canvas (shape c) (<[opTarget op := col]> (px2 c))
                      (zBuffer c)))).
Proof.
  destruct op as [i j hx hy lit|t y fg alpha tr|picX picY physY sp alpha];
    cbn [applyOp opTarget opDepth opOpaque].
  - unfold floorPixel. cbn zeta. case_decide as Hoff; [by left|].
    case_decide as Hz; [|by left]. destruct lit as [col|]; [|by left].
    right. split; [done|]. split; [done|]. left. split; [done|by exists col].
  - unfold wallPixel. cbn zeta. case_decide as Hoff; [by left|].
    case_decide as Hz; [|by left]. case_decide as Ha; [by left|].
    right. split; [done|]. split; [done|].
    case_decide as Ho; [left; split; [done|by eexists]|right; by eexists].
  - unfold thingPixel. cbn zeta. case_decide as Ha; [|by left].
    case_decide as Hoff; [by left|]. case_decide as Hz; [|by left].
    right. split; [done|]. split; [done|]. left. split; [done|by exists sp].
Qed.

Lemma applyOp_shape c op : shape (applyOp c op) = shape c.
Proof.
  destruct (applyOp_cases c op)
    as [->|(_ & _ & [(_ & col & ->)|(col & ->)])]; done.
Qed.

(** The depth test within the range of the buffer.  A painted pixel
    changes the colour or the depth of a position only if it aims at that
    position, the position is inside the image, and its world depth
    strictly exceeds the depth stored there; the depth changes only for a
    pixel that is opaque enough, and becomes the world depth reduced to 16
    bits.  So when the world depth fits the 16-bit cell, the depth stored
    at a position stays or strictly increases, and over a render whose
    depths all fit it never decreases. *)
Theorem depth_test_monotone (c : canvas) (op : paintOp) (q : pixel) :
  (px2 (applyOp c op) q ≠ px2 c q ∨ zBuffer (applyOp c op) q ≠ zBuffer c q →
   q = opTarget op ∧ ¬ offCanvas c q ∧ opDepth op > zBuffer c q)
  ∧ (zBuffer (applyOp c op) q ≠ zBuffer c q →
     opOpaque op ∧ zBuffer (applyOp c op) q = int16 (opDepth op))
  ∧ (fits16 (opDepth op) →
     zBuffer (applyOp c op) q = zBuffer c q
     ∨ (zBuffer (applyOp c op) q = opDepth op
        ∧ zBuffer c q < zBuffer (applyOp c op) q))
  ∧ (∀ ops, Forall (λ op, fits16 (opDepth op)) ops →
            zBuffer c q ≤ zBuffer (render c ops) q).
Proof.
  assert (∀ c op,
    (px2 (applyOp c op) q ≠ px2 c q ∨ zBuffer (applyOp c op) q ≠ zBuffer c q →
     q = opTarget op ∧ ¬ offCanvas c q ∧ opDepth op > zBuffer c q)
    ∧ (zBuffer (applyOp c op) q ≠ zBuffer c q →
       opOpaque op ∧ zBuffer (applyOp c op) q = int16 (opDepth op))) as Hstep.
  { clear c op. intros c op.
    destruct (applyOp_cases c op)
      as [->|(Hoff & Hz & [(Hop & col & ->)|(col & ->)])].
    - split; [intros [?|?]; done|done].
    - split.
      + intros Hch. destruct (decide (opTarget op = q)) as [<-|Hne]; [done|].
        exfalso. unfold writePixel in Hch. simpl in Hch.
        rewrite !fn_lookup_insert_ne in Hch by done. by destruct Hch.
      + rewrite writePixel_zBuffer. case_decide; [done|]. done.
    - simpl. split; [|done].
      intros Hch. destruct (decide (opTarget op = q)) as [<-|Hne]; [done|].
      exfalso. rewrite fn_lookup_insert_ne in Hch by done. by destruct Hch. }
  assert (∀ c op, fits16 (opDepth op) →
    zBuffer (applyOp c op) q = zBuffer c q
    ∨ (zBuffer (applyOp c op) q = opDepth op
       ∧ zBuffer c q < zBuffer (applyOp c op) q)) as Hfit.
  { clear c op. intros c op Hf.
    destruct (decide (zBuffer (applyOp c op) q = zBuffer c q)) as [?|Hne];
      [by left|right].
    destruct (Hstep c op) as [H1 H2].
    destruct (H1 (or_intror Hne)) as (-> & _ & Hz).
    destruct (H2 Hne) as [_ ->]. rewrite int16_small by done. lia. }
  split; [apply Hstep|]. split; [apply Hstep|]. split; [apply Hfit|].
  intros ops Hops. revert c. induction Hops as [|op' ops Hf _ IH]; intros c.
  - done.
  - cbn [render foldl]. specialize (IH (applyOp c op')).
    unfold render in IH. destruct (Hfit c op' Hf) as [Heq|[_ Hlt]]; lia.
Qed.

(** C6.  The depth stored at a pixel does not always increase: the
    buffer has signed 16-bit cells and the painters store the world depth
    in them unchecked.  On a fresh canvas the first sprite pixel stores its
    depth 30000; the second, at depth 40000, passes the test against 30000,
    and the cell then holds -25536, which is neither the depth written nor
    above the depth it replaced.  So the stored depth is not strictly
    increasing across the writes of a render. *)
Lemma depth_test_wraps :
  zBuffer (render (initialCanvas (10, 50000)) [demoFar]) (5, 39990) = 30000
  ∧ zBuffer (render (initialCanvas (10, 50000)) [demoFar; demoNear])
            (5, 39990) = -25536
  ∧ ¬ (∀ sz ops op q,
         let c := render (initialCanvas sz) ops in
         zBuffer (applyOp c op) q ≠ zBuffer c q →
         zBuffer c q < zBuffer (applyOp c op) q).
Proof.
  split; [reflexivity|]. split; [reflexivity|]. intros H.
  specialize (H (10, 50000) [demoFar] demoNear (5, 39990)).
  vm_compute in H. specialize (H ltac:(discriminate)). discriminate H.
Qed.

(** The claim as worded fails on a sector bounded three times by the same
    two points, and on a triangle whose bounding box is exactly 2 by 2:
    both count as degenerate in the claim's words, and [checkHOM] leaves
    both valid. *)
Lemma checkHOM_keeps_claimed_degenerate :
  (claimedDegenerate demoVertexes
     (boundingEntries demoSidedefs demoLinedefs3 0)
   ∧ ∃ s' rest, checkHOM demoVertexes demoLinedefs3 demoSidedefs demoSectors
                = Ok (s' :: rest)
                ∧ Sector.HOMpassed s' = true)
  ∧ (claimedDegenerate demoTriangle
       (boundingEntries demoSidedefs demoTriangleLinedefs 0)
     ∧ ∃ s' rest, checkHOM demoTriangle demoTriangleLinedefs demoSidedefs
                    demoSectors = Ok (s' :: rest)
                  ∧ Sector.HOMpassed s' = true).
Proof.
  split; split.
  - left. vm_compute. lia.
  - eexists _, _. split; [vm_compute; reflexivity|reflexivity].
  - right. left. vm_compute. discriminate.
  - eexists _, _. split; [vm_compute; reflexivity|reflexivity].
Qed.

(** ** The properties at concrete inputs *)

(** On the all-background 3 x 3 blueprint the fill from the centre meets
    the rim, and the reverse fill restores the blueprint. *)
Lemma floodFill_overflow_undone_witness :
  blueprintInv demoBlueprint
  ∧ ∃ b1 b2,
      floodFill 7 (1, 1) false demoBlueprint = Some (Ok (false, b1))
      ∧ floodFill 7 (1, 1) true b1 = Some (Ok (false, b2))
      ∧ sameState demoBlueprint b2.
Proof.
  assert (blueprintInv demoBlueprint) as Hinv.
  { apply blueprintInv_initial. intros q _. split; [by left|done]. }
  split; [exact Hinv|].
  assert (∃ b1, floodFill 7 (1, 1) false demoBlueprint = Some (Ok (false, b1)))
    as [b1 Hb1] by (eexists; vm_compute; reflexivity).
  destruct (proj2 (floodFill_overflow_undone demoBlueprint 7 (1, 1) Hinv)
              b1 Hb1) as (b2 & Hb2 & Hsame).
  by exists b1, b2.
Defined.

(** A sector bounded by a single side is rejected. *)
Lemma checkHOM_excludes_witness :
  (Forall wfLinedef demoLinedefs1
   ∧ Forall (wfSidedef demoSectors) demoSidedefs
   ∧ Forall freshSector demoSectors)
  ∧ ∃ sectors' s',
      checkHOM demoVertexes demoLinedefs1 demoSidedefs demoSectors
      = Ok sectors'
      ∧ sectors' !! 0%nat = Some s' ∧ Sector.HOMpassed s' = false.
Proof.
  assert (Forall wfLinedef demoLinedefs1) as H1
    by (repeat constructor; simpl; lia).
  assert (Forall (wfSidedef demoSectors) demoSidedefs) as H2
    by (repeat constructor; unfold len; simpl; lia).
  assert (Forall freshSector demoSectors) as H3 by (by repeat constructor).
  split; [done|].
  destruct (checkHOM_excludes demoVertexes demoLinedefs1 demoSidedefs
              demoSectors H1 H2 H3) as (sectors' & Hcheck & Hspec).
  assert (∃ s', sectors' !! 0%nat = Some s') as [s' Hs'].
  { vm_compute in Hcheck. injection Hcheck as <-. by eexists. }
  exists sectors', s'. split; [done|]. split; [done|].
  apply (Hspec 0%nat s' Hs'). left. vm_compute. reflexivity.
Defined.

(** The outline pixel next to sector 5 inherits 5. *)
Lemma fillSeams_inherits_witness :
  seamReady demoSeam
  ∧ ∃ b', fillSeams demoSeam = Ok b' ∧ sectorData b' (1, 1) = 5.
Proof.
  assert (seamReady demoSeam) as Hready.
  { unfold seamReady, demoSeam, interior, inside. simpl.
    repeat split; intros;
      repeat (case_decide; simplify_eq); simpl in *; try done; try lia. }
  split; [exact Hready|].
  destruct (fillSeams_inherits demoSeam Hready) as (b' & Hb' & Hp).
  exists b'. split; [done|].
  apply (Hp (1, 1)).
  - unfold inside. simpl. lia.
  - reflexivity.
  - split; [lia|]. split.
    + exists (1, 0). split; [set_solver|]. split; [unfold inside; simpl; lia|done].
    + intros d Hd _. unfold seamDirs in Hd.
      repeat (apply elem_of_cons in Hd as [->|Hd]);
        [by left|by right..|by apply elem_of_nil in Hd].
Defined.

Lemma demoTwoSided_resolved :
  twoSided demoVertexes demoSidedefs demoSectors demoTwoSided
    demoStart demoEnd demoFrontSide demoBackSide
    demoFrontSector demoBackSector.
Proof. unfold twoSided, resolves. simpl. by repeat split. Defined.

(** The two-sided linedef between the two demo sectors yields its pair of
    mid walls, from floor 16 to ceiling 96. *)
Lemma genWalls_mid_pair_witness :
  (twoSided demoVertexes demoSidedefs demoSectors demoTwoSided
     demoStart demoEnd demoFrontSide demoBackSide
     demoFrontSector demoBackSector
   ∧ SideDef.middle demoFrontSide ≠ noTexture)
  ∧ ∃ ws w1 w2,
      linedefWalls demoVertexes demoSidedefs demoSectors demoTwoSided
      = Ok (Some (demoStart, demoEnd, ws))
      ∧ filter (λ w, Wall.position w = Mid) ws = [w1; w2]
      ∧ Wall.floor w1 = 16 ∧ Wall.ceiling w1 = 96.
Proof.
  assert (SideDef.middle demoFrontSide ≠ noTexture) as Hmid by done.
  split; [split; [exact demoTwoSided_resolved|exact Hmid]|].
  destruct (genWalls_mid_pair _ _ _ _ _ _ _ _ _ _ demoTwoSided_resolved Hmid)
    as (ws & w1 & w2 & Hws & Hf & _ & _ & Hfl & Hcl & _).
  by exists ws, w1, w2.
Defined.

(** For the same linedef the ceilings differ and the back sector is not
    sky, so there is one top wall. *)
Lemma genWalls_top_sky_witness :
  twoSided demoVertexes demoSidedefs demoSectors demoTwoSided
    demoStart demoEnd demoFrontSide demoBackSide
    demoFrontSector demoBackSector
  ∧ ∃ ws w,
      linedefWalls demoVertexes demoSidedefs demoSectors demoTwoSided
      = Ok (Some (demoStart, demoEnd, ws))
      ∧ filter (λ w, Wall.position w = Top) ws = [w]
      ∧ Wall.floor w = 96 ∧ Wall.ceiling w = 128.
Proof.
  split; [exact demoTwoSided_resolved|].
  destruct (genWalls_top_sky _ _ _ _ _ _ _ _ _ _ demoTwoSided_resolved)
    as (ws & Hws & _ & Htop).
  destruct (Htop (or_intror eq_refl) ltac:(done)) as (w & Hw & Hfl & Hcl).
  by exists ws, w.
Defined.

(** Gamma 1 on a red and a black pixel, with a power function for which
    [x ** 1 = x]. *)
Lemma gammaCorrection_identity_witness :
  (∀ x, demoPow x 1%float = Ok x)
  ∧ ∃ im', gammaCorrection demoPow [RGB (200, 10, 0); RGB (0, 0, 0)] 1%float
           = Ok im'
           ∧ im' !! 0%nat = Some (RGB (200, 10, 0)).
Proof.
  assert (∀ x, demoPow x 1%float = Ok x) as Hpow by done.
  split; [exact Hpow|].
  destruct (proj1 (gammaCorrection_identity demoPow Hpow)
              [RGB (200, 10, 0); RGB (0, 0, 0)]) as (im' & Him' & Hk).
  { repeat constructor; simpl; lia. }
  exists im'. split; [done|].
  destruct (Hk 0%nat (RGB (200, 10, 0)) eq_refl) as (p' & Hp' & _ & Hsame).
  rewrite Hp'. f_equal. by eapply Hsame.
Defined.

(** A thing facing north (90 degrees) uses rotation 5. *)
Lemma spriteAngle_range_witness :
  0 ≤ 90 ≤ 359 ∧ spriteAngle 90 = 5 ∧ 1 ≤ spriteAngle 90 ≤ 8.
Proof.
  assert (0 ≤ 90 ≤ 359) as H by lia.
  split; [exact H|].
  destruct (spriteAngle_range 90 H) as (_ & _ & Hr & _).
  split; [reflexivity|exact Hr].
Defined.

(** A red pixel of a palette that has red. *)
Lemma palletize_idempotent_witness :
  ([RGBA (255, 0, 0) 90] !! 0%nat = Some (RGBA (255, 0, 0) 90)
   ∧ rgb (RGBA (255, 0, 0) 90) ∈ [(0, 0, 0); (255, 0, 0)])
  ∧ ∃ p', palletizePic [RGBA (255, 0, 0) 90] [(0, 0, 0); (255, 0, 0)] !! 0%nat
          = Some p'
          ∧ rgb p' = (255, 0, 0).
Proof.
  assert (rgb (RGBA (255, 0, 0) 90) ∈ [(0, 0, 0); (255, 0, 0)]) as Hin
    by (right; left).
  split; [by split|].
  exact (proj1 (palletize_idempotent [(0, 0, 0); (255, 0, 0)]
                  [RGBA (255, 0, 0) 90] 0 (RGBA (255, 0, 0) 90) eq_refl Hin)).
Defined.

(** ** The buckets of [genWalls] *)

Section genWalls_facts.
Context {K : Type} `{Countable K}.
Variable distance : Vertex.t → Vertex.t → K.

Lemma appendWalls_grows (walls : gmap K (list Wall.t)) d ws d' l :
  walls !! d' = Some l →
  ∃ post, appendWalls walls d ws !! d' = Some (l ++ post).
Proof.
  intros Hl. unfold appendWalls. destruct ws as [|w ws].
  - exists []. by rewrite app_nil_r.
  - destruct (decide (d = d')) as [->|Hne].
    + rewrite lookup_insert_eq, Hl. by eexists.
    + rewrite lookup_insert_ne by done. exists []. by rewrite app_nil_r.
Qed.

(** Later linedefs only append to a bucket. *)
Lemma genWallsFrom_grows vertexes sidedefs sectors linedefs
    (walls walls' : gmap K (list Wall.t)) d l :
  genWallsFrom distance vertexes sidedefs sectors linedefs walls = Ok walls' →
  walls !! d = Some l → ∃ post, walls' !! d = Some (l ++ post).
Proof.
  revert walls l. induction linedefs as [|ld lds IH]; intros walls l.
  - intros [= <-] Hl. exists []. by rewrite app_nil_r.
  - cbn [genWallsFrom].
    destruct (linedefWalls vertexes sidedefs sectors ld) as [r|]; [|done].
    cbn [mbind result_bind]. destruct r as [[[start end_] ws]|].
    + intros Hrest Hl.
      destruct (appendWalls_grows walls (distance start end_) ws d l Hl)
        as [post1 H1].
      destruct (IH _ _ Hrest H1) as [post2 H2].
      exists (post1 ++ post2). by rewrite app_assoc.
    + apply IH.
Qed.

(** The walls a linedef contributes sit together, in order, in the bucket
    of its draw distance. *)
Lemma genWalls_bucket vertexes linedefs sidedefs sectors walls
    linedef start end_ ws :
  genWalls distance vertexes linedefs sidedefs sectors = Ok walls →
  linedef ∈ linedefs →
  linedefWalls vertexes sidedefs sectors linedef = Ok (Some (start, end_, ws)) →
  ws ≠ [] →
  ∃ pre post, walls !! distance start end_ = Some (pre ++ ws ++ post).
Proof.
  unfold genWalls. generalize (∅ : gmap K (list Wall.t)) as acc.
  induction linedefs as [|ld lds IH]; intros acc Hgen Hin Hws Hne.
  - by apply elem_of_nil in Hin.
  - cbn [genWallsFrom] in Hgen.
    destruct (linedefWalls vertexes sidedefs sectors ld) as [r|] eqn:Hr;
      [|done].
    cbn [mbind result_bind] in Hgen.
    apply elem_of_cons in Hin as [->|Hin].
    + rewrite Hws in Hr. injection Hr as <-.
      assert (appendWalls acc (distance start end_) ws
                !! distance start end_
              = Some (default [] (acc !! distance start end_) ++ ws)) as Hb.
      { unfold appendWalls. destruct ws; [done|]. by rewrite lookup_insert_eq. }
      destruct (genWallsFrom_grows _ _ _ _ _ _ _ _ Hgen Hb) as [post Hpost].
      exists (default [] (acc !! distance start end_)), post.
      by rewrite app_assoc.
    + destruct r as [[[s e] ws0]|]; by eapply IH.
Qed.
End genWalls_facts.

(* ================================================================== *)
(** * Part III. Further properties                                     *)
(* ================================================================== *)

(** ** Lump names *)

Lemma length_nuls n : String.length (nuls n) = n.
Proof. induction n; simpl; congruence. Qed.

Lemma string_app_nil (t : string) : (EmptyString ++ t)%string = t.
Proof. reflexivity. Qed.

Lemma string_app_cons c (s t : string) :
  (String c s ++ t)%string = String c (s ++ t)%string.
Proof. reflexivity. Qed.

Lemma length_string_app (s t : string) :
  String.length (s ++ t) = (String.length s + String.length t)%nat.
Proof.
  induction s; [done|]. rewrite string_app_cons. simpl. congruence.
Qed.

Lemma trailingZeros_nuls n : trailingZeros (nuls n) = nuls n.
Proof.
  destruct n; [done|]. cbn [nuls trailingZeros].
  destruct (decide (NUL = NUL)); [|done]. by rewrite length_nuls.
Qed.

Lemma removeTrailingZeros_nuls n : removeTrailingZeros (nuls n) = EmptyString.
Proof.
  destruct n; [done|]. cbn [nuls removeTrailingZeros].
  by destruct (decide (NUL = NUL)).
Qed.

Lemma removeTrailingZeros_length name :
  (String.length (removeTrailingZeros name) ≤ String.length name)%nat.
Proof. induction name; simpl; [lia|]. case_decide; simpl; lia. Qed.

(** What [trailingZeros] computes: the name up to its first [\x00]
    followed by [\x00] up to the length of the name. *)
Lemma trailingZeros_split name :
  trailingZeros name
  = (removeTrailingZeros name
     ++ nuls (String.length name
              - String.length (removeTrailingZeros name)))%string.
Proof.
  induction name as [|c rest IH]; [done|]. simpl.
  case_decide as Hc.
  - rewrite string_app_nil. subst c. reflexivity.
  - rewrite string_app_cons. simpl. by rewrite IH at 1.
Qed.

Lemma removeTrailingZeros_app_nuls name n :
  removeTrailingZeros (name ++ nuls n) = removeTrailingZeros name.
Proof.
  induction name as [|c rest IH].
  - apply removeTrailingZeros_nuls.
  - rewrite string_app_cons. simpl. case_decide; [done|]. by rewrite IH.
Qed.

Lemma removeTrailingZeros_nulFree name :
  nulFree name → removeTrailingZeros name = name.
Proof.
  induction name as [|c rest IH]; [done|]. simpl. intros [Hc Hrest].
  rewrite decide_False by done. by rewrite IH.
Qed.

Lemma removeTrailingZeros_is_nulFree name : nulFree (removeTrailingZeros name).
Proof. induction name; simpl; [done|]. case_decide; simpl; auto. Qed.




(** ** The pseudo-file *)

Lemma py_slice_any_nonneg {A} (l : list A) a b :
  0 ≤ a ≤ len l → 0 ≤ b ≤ len l → py_slice_any l a b = py_slice l a b.
Proof.
  intros Ha Hb. unfold py_slice_any, py_slice.
  rewrite !decide_False by lia. by rewrite !Z.min_l by lia.
Qed.

Lemma take_drop_clamp {A} (l : list A) (v n : nat) :
  take (n `min` (length l - v)) (drop v l) = take n (drop v l).
Proof.
  destruct (decide (n ≤ length l - v)%nat).
  - by rewrite Nat.min_l by lia.
  - rewrite Nat.min_r by lia.
    rewrite !take_ge; [done| |]; rewrite length_drop; lia.
Qed.

(** Reading at a position that stands for the offset [v]: either the
    position is [v], or both lie beyond the data. *)
Lemma Lump_read_at lump v n :
  0 ≤ Lump.position lump → 0 ≤ n →
  Z.min (Lump.position lump) (len (Lump.data lump))
    = Z.min v (len (Lump.data lump)) →
  Lump_read n lump
  = (py_slice (Lump.data lump) v (v + n),
     Lump.Make (Lump.data lump) (Z.min (v + n) (len (Lump.data lump)))).
Proof.
  intros Hp Hn Hv. destruct lump as [data p]. cbn [Lump.position Lump.data] in *.
  unfold Lump_read. cbn [Lump.position Lump.data].
  assert (0 ≤ len data) by (unfold len; lia).
  assert (Z.min (p + n) (len data) = Z.min (v + n) (len data)) as Hnew by lia.
  f_equal; [|by rewrite Hnew].
  unfold py_slice_any, py_slice. rewrite !decide_False by lia.
  rewrite (Z.min_l (Z.min _ _) (len data)) by lia.
  destruct (decide (v ≤ len data)).
  - assert (Z.min p (len data) = v) as -> by lia.
    replace (Z.to_nat (Z.min (p + n) (len data) - v))
      with (Z.to_nat n `min` (length data - Z.to_nat v))%nat
      by (unfold len in *; lia).
    replace (v + n - v) with n by lia. apply take_drop_clamp.
  - rewrite (drop_ge data (Z.to_nat v)) by (unfold len in *; lia).
    rewrite take_nil.
    replace (Z.to_nat (Z.min (p + n) (len data) - Z.min p (len data)))
      with 0%nat by lia.
    done.
Qed.

Lemma Lump_read_lumpRead lump n :
  0 ≤ Lump.position lump → 0 ≤ Lump.position lump + n →
  Lump_read n lump = lumpRead n lump.
Proof.
  intros Hp Hn. unfold Lump_read, lumpRead. f_equal.
  assert (0 ≤ len (Lump.data lump)) by (unfold len; lia).
  unfold py_slice_any, py_slice. rewrite !decide_False by lia.
  rewrite (Z.min_l (Z.min _ _) (len _)) by lia.
  destruct (decide (Lump.position lump ≤ len (Lump.data lump))).
  - by rewrite (Z.min_l (Lump.position lump)) by lia.
  - rewrite !(drop_ge (Lump.data lump)) by (unfold len in *; lia).
    by rewrite !take_nil.
Qed.

Lemma take_take_drop {A} (l : list A) (n m : nat) :
  take n l ++ take m (drop n l) = take (n + m) l.
Proof.
  revert l. induction n as [|n IH]; intros l; [done|].
  destruct l as [|a l]; [by rewrite drop_nil, !take_nil|]. simpl. by rewrite IH.
Qed.

Lemma py_slice_app {A} (l : list A) a n m :
  0 ≤ a → 0 ≤ n → 0 ≤ m →
  py_slice l a (a + n) ++ py_slice l (a + n) (a + n + m)
  = py_slice l a (a + n + m).
Proof.
  intros Ha Hn Hm. unfold py_slice.
  replace (a + n - a) with n by lia.
  replace (a + n + m - (a + n)) with m by lia.
  replace (a + n + m - a) with (n + m) by lia.
  rewrite (Z2Nat.inj_add n m) by lia.
  rewrite (Z2Nat.inj_add a n) by lia.
  rewrite <- drop_drop. apply take_take_drop.
Qed.

Lemma py_slice_length {A} (l : list A) a b :
  0 ≤ a → len (py_slice l a b) ≤ Z.max (b - a) 0.
Proof.
  intros Ha. unfold py_slice, len. rewrite length_take, length_drop. lia.
Qed.



(** ** The WAD directory *)

Lemma Lump_read_data n lump : Lump.data (Lump_read n lump).2 = Lump.data lump.
Proof. done. Qed.

Lemma directoryLoop_spec n : ∀ fs acc v,
  0 ≤ v → 0 ≤ Lump.position fs →
  Z.min (Lump.position fs) (len (Lump.data fs)) = Z.min v (len (Lump.data fs)) →
  (directoryLoop n fs acc).1
  = acc ++ ((λ k, directoryEntry (Lump.data fs) v k) <$> seq 0 n).
Proof.
  induction n as [|n IH]; intros fs acc v Hv Hp Hpos.
  - simpl. by rewrite app_nil_r.
  - assert (0 ≤ len (Lump.data fs)) by (unfold len; lia).
    cbn [directoryLoop].
    rewrite (Lump_read_at fs v 4) by (done || lia).
    rewrite (Lump_read_at _ (v + 4) 4);
      cbn [Lump.position Lump.data]; [|lia|lia|lia].
    rewrite (Lump_read_at _ (v + 4 + 4) 8);
      cbn [Lump.position Lump.data]; [|lia|lia|lia].
    rewrite (IH _ _ (v + 4 + 4 + 8)); cbn [Lump.position Lump.data];
      [|lia|lia|lia].
    rewrite <- app_assoc. f_equal. cbn [seq fmap list_fmap]. simpl app.
    f_equal.
    + unfold directoryEntry. rewrite Z.mul_0_r, Z.add_0_r.
      by replace (v + 4 + 4) with (v + 8) by lia;
         replace (v + 8 + 8) with (v + 16) by lia.
    + rewrite <- seq_shift, <- list_fmap_compose. apply list_fmap_ext.
      intros _ k _. unfold compose, directoryEntry.
      by replace (v + 4 + 4 + 8 + 16 * Z.of_nat k)
           with (v + 16 * Z.of_nat (S k)) by lia.
Qed.



(** *** [setMap] and [getLump] *)

Lemma findLump_app name l1 l2 :
  findLump name (l1 ++ l2)
  = match findLump name l1 with
    | Some i => Some i
    | None => findLump name l2
    end.
Proof.
  induction l1 as [|i l1 IH]; [done|]. simpl. by case_decide.
Qed.

Lemma findLump_Some name l i :
  findLump name l = Some i → i ∈ l ∧ Info.lumpName i = name.
Proof.
  induction l as [|j l IH]; [done|]. simpl. case_decide.
  - intros [= <-]. split; [left|done].
  - intros Hf. destruct (IH Hf). split; [by right|done].
Qed.

Lemma elem_of_removeFirst x y l :
  y ∈ removeFirst x l → y ∈ l.
Proof.
  induction l as [|z l IH]; [done|]. simpl. case_decide.
  - by right.
  - intros [->|?]%elem_of_cons; [left|right; auto].
Qed.

Lemma removeFirst_other x y l :
  y ∈ l → y ≠ x → y ∈ removeFirst x l.
Proof.
  induction l as [|z l IH]; [done|]. simpl.
  intros [->|Hin]%elem_of_cons Hne.
  - rewrite decide_False by done. left.
  - case_decide; [done|]. right. auto.
Qed.

Lemma removeFirst_NoDup x l :
  NoDup l → NoDup (removeFirst x l) ∧ x ∉ removeFirst x l.
Proof.
  induction 1 as [|z l Hz Hl IH]; simpl.
  - split; [constructor|]. apply not_elem_of_nil.
  - case_decide as Hzx.
    + subst z. done.
    + destruct IH as [IH1 IH2]. split.
      * constructor; [|done]. intros Hin. by apply Hz, elem_of_removeFirst with x.
      * intros [->|?]%elem_of_cons; done.
Qed.

Lemma removeFirst_Permutation x l :
  x ∈ l → l ≡ₚ x :: removeFirst x l.
Proof.
  induction l as [|z l IH]; [by intros ?%elem_of_nil|]. simpl.
  case_decide as Hzx.
  - by subst z.
  - intros [->|Hin]%elem_of_cons; [done|].
    rewrite (IH Hin) at 1. apply Permutation_swap.
Qed.

Lemma removeFirst_nil x l :
  NoDup l → x ∈ l → removeFirst x l = [] → l = [x].
Proof.
  intros Hnd Hin Hnil. pose proof (removeFirst_Permutation x l Hin) as Hp.
  rewrite Hnil in Hp. by apply Permutation_singleton_r in Hp.
Qed.

Lemma len_zero_nil {A} (l : list A) : len l = 0 ↔ l = [].
Proof. unfold len. destruct l; simpl; split; (done || lia). Qed.

(** What the loop of [setMap] computes, from any of its states: the
    entries it adds are the first entries, after the marker, of the names
    still required. *)
Lemma setMapLoop_spec m infos :
  ∀ (mit : list Info.t) (found : bool) (req : list string),
  req ≠ [] → NoDup req → (∀ r, r ∈ req → findLump r mit = None) →
  let tail := if found then infos else fromMarker m infos in
  let res := setMapLoop m infos mit found req in
  (∀ r, r ∈ req → findLump r res.1 = findLump r tail)
  ∧ (∀ r, r ∉ req → findLump r res.1 = findLump r mit)
  ∧ (res.2 = true ↔ ∀ r, r ∈ req → is_Some (findLump r tail))
  ∧ ∃ extra, res.1 = mit ++ extra
             ∧ Forall (λ i, Info.lumpName i ∈ req ∧ i ∈ tail) extra
             ∧ (res.2 = true → Info.lumpName <$> extra ≡ₚ req).
Proof.
  induction infos as [|info rest IH]; intros mit found req Hne Hnd Hmit.
  - cbn zeta. assert ((if found then [] else fromMarker m []) = @nil Info.t)
      as -> by by destruct found.
    cbn [setMapLoop fst snd findLump]. split; [auto|]. split; [done|]. split.
    + split; [done|]. intros Hall. destruct req as [|r req]; [done|].
      destruct (Hall r) as [? [=]]. left.
    + exists []. rewrite app_nil_r. split; [done|]. split; [constructor|done].
  - cbn zeta. cbn [setMapLoop fromMarker].
    destruct (str_in m (Info.lumpName info) || found) eqn:Hf.
    2:{ (* still before the marker *)
      apply orb_false_iff in Hf as [Hs ->]. rewrite Hs.
      cbn [andb]. rewrite decide_False by by rewrite len_zero_nil.
      apply (IH mit false req Hne Hnd Hmit). }
    assert ((if str_in m (Info.lumpName info) then true else found) = true)
      as -> by (by destruct (str_in m (Info.lumpName info)), found).
    assert ((if found then info :: rest
             else if str_in m (Info.lumpName info) then info :: rest
                  else fromMarker m rest) = info :: rest) as ->.
    { destruct found; [done|]. by destruct (str_in m (Info.lumpName info)). }
    cbn [andb]. case_bool_decide as Hin.
    + (* a required lump *)
      destruct (removeFirst_NoDup (Info.lumpName info) req Hnd) as [Hnd1 Hnot1].
      case_decide as Hlen.
      * apply len_zero_nil in Hlen.
        pose proof (removeFirst_nil _ _ Hnd Hin Hlen) as ->.
        cbn [fst snd]. split; [|split; [|split]].
        -- intros r ->%list_elem_of_singleton. rewrite findLump_app.
           rewrite Hmit by left. simpl. by rewrite !decide_True.
        -- intros r Hr. rewrite findLump_app.
           destruct (findLump r mit); [done|]. simpl.
           rewrite decide_False; [done|]. intros <-. apply Hr. left.
        -- split; [|done]. intros _ r ->%list_elem_of_singleton.
           simpl. rewrite decide_True by done. by eexists.
        -- exists [info]. split; [done|]. split; [|done].
           constructor; [|constructor]. split; left.
      * assert (∀ r, r ∈ removeFirst (Info.lumpName info) req →
                     findLump r (mit ++ [info]) = None) as Hmit1.
        { intros r Hr. rewrite findLump_app.
          rewrite Hmit by by eapply elem_of_removeFirst. simpl.
          rewrite decide_False; [done|]. by intros <-. }
        destruct (IH (mit ++ [info]) true _
                    ltac:(by rewrite <- len_zero_nil) Hnd1 Hmit1)
          as (H1 & H2 & H3 & extra & He & Hex & Hperm).
        cbn zeta in *. split; [|split; [|split]].
        -- intros r Hr. destruct (decide (r = Info.lumpName info)) as [->|Hne'].
           ++ rewrite H2 by done. rewrite findLump_app, Hmit by done.
              simpl. by rewrite !decide_True.
           ++ rewrite H1 by by apply removeFirst_other.
              simpl. by rewrite decide_False.
        -- intros r Hr. rewrite H2.
           ++ rewrite findLump_app. destruct (findLump r mit); [done|].
              simpl. rewrite decide_False; [done|]. by intros <-.
           ++ intros ?%elem_of_removeFirst. done.
        -- rewrite H3. split.
           ++ intros Hall r Hr.
              destruct (decide (r = Info.lumpName info)) as [->|Hne'].
              ** simpl. rewrite decide_True by done. by eexists.
              ** simpl. rewrite decide_False by done.
                 by apply Hall, removeFirst_other.
           ++ intros Hall r Hr.
              assert (r ≠ Info.lumpName info) as Hne' by by intros ->.
              specialize (Hall r (elem_of_removeFirst _ _ _ Hr)).
              simpl in Hall. by rewrite decide_False in Hall.
        -- exists (info :: extra). rewrite He, <- app_assoc.
           split; [done|]. split.
           ++ constructor; [split; [done|left]|].
              eapply Forall_impl; [exact Hex|]. intros i [Hi1 Hi2].
              split; [by eapply elem_of_removeFirst|by right].
           ++ intros Hok. rewrite fmap_cons, (Hperm Hok).
              symmetry. by apply removeFirst_Permutation.
    + (* any other lump *)
      rewrite decide_False by by rewrite len_zero_nil.
      destruct (IH mit true req Hne Hnd Hmit)
        as (H1 & H2 & H3 & extra & He & Hex & Hperm).
      cbn zeta in *. split; [|split; [|split]].
      * intros r Hr. rewrite (H1 r Hr). simpl.
        rewrite decide_False; [done|]. by intros <-.
      * done.
      * rewrite H3. split; intros Hall r Hr; specialize (Hall r Hr);
          simpl in *; (rewrite decide_False in * by by intros <-); done.
      * exists extra. split; [done|]. split; [|done].
        eapply Forall_impl; [exact Hex|]. intros i [Hi1 Hi2].
        split; [done|by right].
Qed.

Lemma requiredLumps_NoDup : NoDup requiredLumps.
Proof. apply (bool_decide_unpack _). vm_compute. exact I. Qed.

Lemma mapLumpNames_required lumpName :
  lumpName ∈ mapLumpNames → addTrailingZeros lumpName ∈ requiredLumps.
Proof.
  unfold mapLumpNames. rewrite !elem_of_cons, elem_of_nil.
  intros [->|[->|[->|[->|[->|[]]]]]];
    apply (bool_decide_unpack _); vm_compute; exact I.
Qed.

Lemma setMap_first_after_marker_aux (wad : WADData.t) (mapName : string) :
  let tail := fromMarker (addTrailingZeros mapName) (WADData.infoTable wad) in
  let r := setMap wad mapName in
  (r.1 = true ↔ ∀ name, name ∈ requiredLumps → is_Some (findLump name tail))
  ∧ (∀ name, name ∈ requiredLumps →
       findLump name (WADData.mapInfoTable r.2) = findLump name tail)
  ∧ WADData.fs r.2 = WADData.fs wad.
Proof.
  cbn zeta. unfold setMap. cbn [fst snd WADData.mapInfoTable WADData.fs].
  destruct (setMapLoop_spec (addTrailingZeros mapName) (WADData.infoTable wad)
              [] false requiredLumps ltac:(done) requiredLumps_NoDup
              ltac:(done)) as (H1 & _ & H3 & _).
  cbn zeta in *. done.
Qed.




(** ** Palette, colour map and the lighting tables *)

Lemma fromBytes_range bs : 0 ≤ fromBytes bs < 256 ^ len bs.
Proof.
  unfold fromBytes, len. induction bs as [|b bs IH]; [simpl; lia|].
  cbn [foldr length]. rewrite Nat2Z.inj_succ, Z.pow_succ_r by lia.
  pose proof (Byte.to_N_bounded b). lia.
Qed.

Lemma Lump_read_one_length lump : (length (Lump_read 1 lump).1 ≤ 1)%nat.
Proof.
  unfold Lump_read, py_slice_any. cbn [fst].
  rewrite length_take. unfold len.
  repeat case_decide; lia.
Qed.

Lemma readByte_range lump : 0 ≤ (readByte lump).1 ≤ 255.
Proof.
  unfold readByte. pose proof (Lump_read_one_length lump) as Hlen.
  destruct (Lump_read 1 lump) as [bs lump']. cbn [fst] in *.
  pose proof (fromBytes_range bs) as Hr. unfold len in Hr.
  destruct bs as [|b [|? ?]]; simpl in *; lia.
Qed.

Lemma readByte_at lump v :
  0 ≤ v → 0 ≤ Lump.position lump →
  Z.min (Lump.position lump) (len (Lump.data lump))
    = Z.min v (len (Lump.data lump)) →
  readByte lump
  = (byteAt (Lump.data lump) v,
     Lump.Make (Lump.data lump) (Z.min (v + 1) (len (Lump.data lump)))).
Proof.
  intros Hv Hp Hpos. unfold readByte.
  by rewrite (Lump_read_at lump v 1) by (done || lia).
Qed.

Lemma byteAt_range data a : 0 ≤ byteAt data a ≤ 255.
Proof.
  unfold byteAt. pose proof (fromBytes_range (py_slice data a (a + 1))) as Hr.
  assert (len (py_slice data a (a + 1)) ≤ 1) as Hlen.
  { unfold py_slice, len. rewrite length_take. lia. }
  assert (0 ≤ len (py_slice data a (a + 1))) by (unfold len; lia).
  assert (len (py_slice data a (a + 1)) = 0 ∨ len (py_slice data a (a + 1)) = 1)
    as [Heq|Heq] by lia; rewrite Heq in Hr; simpl in Hr; lia.
Qed.

Lemma byteAt_beyond data a : len data ≤ a → byteAt data a = 0.
Proof.
  intros Ha. unfold byteAt, py_slice.
  rewrite drop_ge by (unfold len in *; lia). by rewrite take_nil.
Qed.

Lemma palleteLoop_shape n : ∀ lump acc,
  Forall byteColor acc →
  Forall byteColor (palleteLoop n lump acc)
  ∧ length (palleteLoop n lump acc) = (length acc + n)%nat.
Proof.
  induction n as [|n IH]; intros lump acc Hacc.
  - simpl. split; [done|lia].
  - cbn [palleteLoop].
    pose proof (readByte_range lump) as Hr.
    destruct (readByte lump) as [r lump1].
    pose proof (readByte_range lump1) as Hg.
    destruct (readByte lump1) as [g lump2].
    pose proof (readByte_range lump2) as Hb.
    destruct (readByte lump2) as [b lump3]. cbn [fst] in *.
    destruct (IH lump3 (acc ++ [(r, g, b)])) as [IH1 IH2].
    { apply Forall_app. split; [done|].
      constructor; [unfold byteColor; simpl; lia|constructor]. }
    split; [done|]. rewrite IH2, length_app. simpl. lia.
Qed.

Lemma palleteLoop_at n : ∀ lump acc (k0 : nat),
  0 ≤ Lump.position lump →
  Z.min (Lump.position lump) (len (Lump.data lump))
    = Z.min (3 * Z.of_nat k0) (len (Lump.data lump)) →
  palleteLoop n lump acc
  = acc ++ (palleteEntry (Lump.data lump) <$> seq k0 n).
Proof.
  induction n as [|n IH]; intros lump acc k0 Hp Hpos.
  - simpl. by rewrite app_nil_r.
  - assert (0 ≤ len (Lump.data lump)) by (unfold len; lia).
    cbn [palleteLoop].
    rewrite (readByte_at lump (3 * Z.of_nat k0)) by (done || lia).
    rewrite (readByte_at _ (3 * Z.of_nat k0 + 1));
      cbn [Lump.position Lump.data]; [|lia|lia|lia].
    rewrite (readByte_at _ (3 * Z.of_nat k0 + 1 + 1));
      cbn [Lump.position Lump.data]; [|lia|lia|lia].
    rewrite (IH _ _ (S k0)); cbn [Lump.position Lump.data]; [|lia|lia].
    rewrite <- app_assoc. f_equal. cbn [seq fmap list_fmap]. simpl app.
    f_equal. unfold palleteEntry.
    by replace (3 * Z.of_nat k0 + 1 + 1) with (3 * Z.of_nat k0 + 2) by lia.
Qed.

Lemma getPallete_shape lump :
  length (getPallete (Some lump)) = 256%nat
  ∧ Forall byteColor (getPallete (Some lump)).
Proof.
  unfold getPallete.
  destruct (palleteLoop_shape 256 lump [] ltac:(constructor)) as [H1 H2].
  split; [by rewrite H2|done].
Qed.


Lemma colorMapRow_shape n : ∀ lump acc,
  Forall (λ v, 0 ≤ v ≤ 255) acc →
  Forall (λ v, 0 ≤ v ≤ 255) (colorMapRow n lump acc).1
  ∧ length (colorMapRow n lump acc).1 = (length acc + n)%nat.
Proof.
  induction n as [|n IH]; intros lump acc Hacc.
  - simpl. split; [done|lia].
  - cbn [colorMapRow].
    pose proof (readByte_range lump) as Hr.
    destruct (readByte lump) as [v lump1]. cbn [fst] in *.
    destruct (IH lump1 (acc ++ [v])) as [IH1 IH2].
    { apply Forall_app. split; [done|]. constructor; [lia|constructor]. }
    split; [done|]. rewrite IH2, length_app. simpl. lia.
Qed.

Lemma colorMapLoop_shape n : ∀ lump acc,
  Forall (λ row, length row = 256%nat ∧ Forall (λ v, 0 ≤ v ≤ 255) row) acc →
  Forall (λ row, length row = 256%nat ∧ Forall (λ v, 0 ≤ v ≤ 255) row)
         (colorMapLoop n lump acc)
  ∧ length (colorMapLoop n lump acc) = (length acc + n)%nat.
Proof.
  induction n as [|n IH]; intros lump acc Hacc.
  - simpl. split; [done|lia].
  - cbn [colorMapLoop].
    destruct (colorMapRow_shape 256 lump [] ltac:(constructor)) as [H1 H2].
    destruct (colorMapRow 256 lump []) as [row lump1]. cbn [fst] in *.
    destruct (IH lump1 (acc ++ [row])) as [IH1 IH2].
    { apply Forall_app. split; [done|]. constructor; [done|constructor]. }
    split; [done|]. rewrite IH2, length_app. simpl. lia.
Qed.

Lemma py_index_lookup {A} (l : list A) (i : Z) :
  0 ≤ i < len l → ∃ a, py_index l i = Ok a ∧ l !! Z.to_nat i = Some a.
Proof.
  intros Hi. destruct (py_index_Ok_nonneg l i Hi) as (a & ? & ?).
  by exists a.
Qed.

Lemma py_index_nil {A} (i : Z) : py_index (@nil A) i = Raise IndexError.
Proof. unfold py_index. by repeat case_decide. Qed.

Lemma py_index_Raise {A} (l : list A) (i : Z) e :
  py_index l i = Raise e → e = IndexError.
Proof.
  unfold py_index. repeat case_decide; try congruence;
    destruct (l !! _); congruence.
Qed.

Lemma conversionRow_no_pallete colorMap i j js conv :
  conversionRow [] colorMap i (j :: js) conv = Raise IndexError.
Proof.
  cbn [conversionRow].
  destruct (py_index colorMap i) as [row|e] eqn:Hrow; cbn [mbind result_bind].
  - destruct (py_index row j) as [idx|e] eqn:Hidx; cbn [mbind result_bind].
    + rewrite (py_index_nil idx). reflexivity.
    + by rewrite (py_index_Raise _ _ _ Hidx).
  - by rewrite (py_index_Raise _ _ _ Hrow).
Qed.

(** One light level of the table, on a palette of 256 colours and a row
    of 256 byte entries. *)
Lemma conversionRow_spec pallete colorMap i row :
  length pallete = 256%nat →
  py_index colorMap i = Ok row →
  length row = 256%nat → Forall (λ v, 0 ≤ v ≤ 255) row →
  ∀ js conv,
    Forall (λ j, 0 ≤ j < 256) js →
    (∀ c v, conv !! c = Some v → v ∈ pallete) →
    ∃ conv', conversionRow pallete colorMap i js conv = Ok conv'
      ∧ (∀ c v, conv' !! c = Some v → v ∈ pallete)
      ∧ (∀ c, is_Some (conv' !! c)
              ↔ is_Some (conv !! c)
                ∨ ∃ j, j ∈ js ∧ pallete !! Z.to_nat j = Some c).
Proof.
  intros Hpal Hrow Hlen Hbytes.
  induction js as [|j js IH]; intros conv Hjs Hconv.
  - exists conv. split; [done|]. split; [done|]. intros c. split; [auto|].
    intros [?|(j & []%elem_of_nil & _)]. done.
  - apply Forall_cons_1 in Hjs as [Hj Hjs].
    cbn [conversionRow]. rewrite Hrow. cbn [mbind result_bind].
    destruct (py_index_lookup row j) as (idx & -> & Hidx);
      [unfold len; lia|].
    cbn [mbind result_bind].
    assert (0 ≤ idx ≤ 255) as Hidxr.
    { rewrite Forall_forall in Hbytes. apply Hbytes.
      by eapply list_elem_of_lookup_2. }
    destruct (py_index_lookup pallete idx) as (v & -> & Hv);
      [unfold len; lia|].
    destruct (py_index_lookup pallete j) as (k & -> & Hk);
      [unfold len; lia|].
    cbn [mbind result_bind].
    destruct (IH (<[k := v]> conv) Hjs) as (conv' & -> & Hvals & Hkeys).
    { intros c w. destruct (decide (c = k)) as [->|Hne].
      - rewrite lookup_insert_eq. intros [= <-].
        by eapply list_elem_of_lookup_2.
      - rewrite lookup_insert_ne by done. apply Hconv. }
    exists conv'. split; [done|]. split; [done|]. intros c.
    rewrite Hkeys. split.
    + intros [Hin|(j' & Hj' & Hc)].
      * destruct (decide (c = k)) as [->|Hne].
        -- right. exists j. split; [left|done].
        -- left. by rewrite lookup_insert_ne in Hin.
      * right. exists j'. split; [by right|done].
    + intros [Hin|(j' & Hj' & Hc)].
      * left. destruct (decide (c = k)) as [->|Hne].
        -- rewrite lookup_insert_eq. by eexists.
        -- by rewrite lookup_insert_ne.
      * apply elem_of_cons in Hj' as [->|Hj'].
        -- left. assert (c = k) as -> by congruence.
           rewrite lookup_insert_eq. by eexists.
        -- right. by exists j'.
Qed.

(** A table all of whose entries lead from palette colours to palette
    colours, with an entry for every palette colour. *)
Lemma conversionLoop_spec pallete colorMap :
  length pallete = 256%nat →
  Forall (λ row, length row = 256%nat ∧ Forall (λ v, 0 ≤ v ≤ 255) row)
         colorMap →
  ∀ levels acc,
    Forall (λ i, 0 ≤ i < len colorMap) levels →
    ∃ new, conversionLoop pallete colorMap levels acc = Ok (acc ++ new)
      ∧ length new = length levels
      ∧ Forall (λ table : gmap color color,
                  (∀ c, is_Some (table !! c) ↔ c ∈ pallete)
                  ∧ (∀ c v, table !! c = Some v → v ∈ pallete)) new.
Proof.
  intros Hpal Hrows. induction levels as [|i levels IH]; intros acc Hlv.
  - exists []. rewrite app_nil_r. split; [done|]. split; [done|constructor].
  - apply Forall_cons_1 in Hlv as [Hi Hlv].
    cbn [conversionLoop].
    destruct (py_index_lookup colorMap i Hi) as (row & Hrow & Hrow').
    rewrite Forall_forall in Hrows.
    destruct (Hrows row) as [Hlen Hbytes]; [by eapply list_elem_of_lookup_2|].
    destruct (conversionRow_spec pallete colorMap i row Hpal Hrow Hlen Hbytes
                (seqZ 0 256) ∅) as (conv & -> & Hvals & Hkeys).
    { apply Forall_forall. intros j Hj%elem_of_seqZ. lia. }
    { intros c v. by rewrite lookup_empty. }
    cbn [mbind result_bind].
    destruct (IH (acc ++ [conv]) Hlv) as (new & -> & Hlen' & Hnew).
    exists (conv :: new). rewrite <- app_assoc. split; [done|].
    split; [simpl; lia|]. constructor; [|done]. split; [|done].
    intros c. rewrite Hkeys. split.
    + intros [[? Hc]|(j & Hj & Hc)]; [by rewrite lookup_empty in Hc|].
      by eapply list_elem_of_lookup_2.
    + intros Hc. right. apply list_elem_of_lookup in Hc as [k Hk].
      exists (Z.of_nat k). rewrite Nat2Z.id. split; [|done].
      apply elem_of_seqZ. apply lookup_lt_Some in Hk. lia.
Qed.

Lemma getColorMap_shape lump :
  length (getColorMap (Some lump)) = 34%nat
  ∧ Forall (λ row, length row = 256%nat ∧ Forall (λ v, 0 ≤ v ≤ 255) row)
           (getColorMap (Some lump)).
Proof.
  unfold getColorMap.
  destruct (colorMapLoop_shape 34 lump [] ltac:(constructor)) as [H1 H2].
  split; [by rewrite H2|done].
Qed.

Lemma genColorConversion_total pallete colorMap :
  length pallete = 256%nat → length colorMap = 34%nat →
  Forall (λ row, length row = 256%nat ∧ Forall (λ v, 0 ≤ v ≤ 255) row)
         colorMap →
  ∃ colorConv, genColorConversion pallete colorMap = Ok colorConv
    ∧ length colorConv = 34%nat
    ∧ Forall (λ table : gmap color color,
                (∀ c, is_Some (table !! c) ↔ c ∈ pallete)
                ∧ (∀ c v, table !! c = Some v → v ∈ pallete)) colorConv.
Proof.
  intros Hpal Hlen Hrows. unfold genColorConversion.
  destruct (conversionLoop_spec pallete colorMap Hpal Hrows (seqZ 0 34) [])
    as (new & -> & Hn & Hnew).
  { apply Forall_forall. intros j Hj%elem_of_seqZ. unfold len. lia. }
  exists new. split; [done|]. split; [|done].
  rewrite Hn. by rewrite length_seqZ.
Qed.


Lemma clipColor_byte c : byteColor c → clipColor c = c.
Proof.
  destruct c as [[r g] b]. unfold byteColor, clipColor. simpl.
  intros (? & ? & ?). by rewrite !clip8_small by lia.
Qed.

Lemma lightLevel_range light : 0 ≤ light ≤ 255 → 0 ≤ lightLevel light ≤ 31.
Proof.
  intros Hl. unfold lightLevel.
  assert (0 ≤ light / 8) by (apply Z.div_pos; lia).
  assert (light / 8 < 32) by (apply Z.div_lt_upper_bound; lia). lia.
Qed.

Lemma lightImage_ok pallete colorConv level table im :
  Forall byteColor pallete →
  py_index colorConv level = Ok table →
  (∀ c, is_Some (table !! c) ↔ c ∈ pallete) →
  (∀ c v, table !! c = Some v → v ∈ pallete) →
  palletized pallete im →
  ∃ im', lightImage im level colorConv = Returns im'
    ∧ palletized pallete im'
    ∧ Forall2 (λ p p', ∃ c c' a, p = RGBA c a ∧ p' = RGBA c' a
                                  ∧ table !! c = Some c') im im'.
Proof.
  intros Hbytes Htable Hkeys Hvals. induction 1 as [|p im Hp Him IH].
  - exists []. split; [done|]. split; constructor.
  - destruct Hp as (c & a & -> & Hc).
    destruct IH as (im' & Heq & Hpal' & Hrel).
    destruct (proj2 (Hkeys c) Hc) as [v Hv].
    exists (RGBA v a :: im'). cbn [lightImage lightPixel].
    rewrite Htable, Hv, Heq.
    rewrite Forall_forall in Hbytes.
    rewrite clipColor_byte by (eapply Hbytes, Hvals, Hv).
    split; [done|]. split.
    + constructor; [|done]. exists v, a. split; [done|]. by eapply Hvals.
    + constructor; [|done]. by exists c, v, a.
Qed.



(** ** [getBasicData] *)

Lemma sameWAD_refl w : sameWAD w w.
Proof. by repeat split. Qed.

Lemma getLump_sameWAD w1 w2 name :
  sameWAD w1 w2 →
  (getLump w1 name).1 = (getLump w2 name).1
  ∧ sameWAD (getLump w1 name).2 w2.
Proof.
  intros (Hd & Hi & Hm & Hf). unfold getLump. rewrite Hi, Hm.
  destruct (findLump _ _) as [info|]; [|by repeat split].
  unfold Lump_read, Lump_seek. cbn [fst snd Lump.data Lump.position].
  rewrite Hd. by repeat split.
Qed.

Lemma getLump_Some_after_setMap wad wad' mapName lumpName :
  setMap wad mapName = (true, wad') → lumpName ∈ mapLumpNames →
  is_Some (getLump wad' lumpName).1.
Proof.
  intros Hset Hname.
  pose proof (setMap_first_after_marker_aux wad mapName) as Haux.
  rewrite Hset in Haux. cbn [fst snd] in Haux.
  destruct Haux as (Hok & Hfind & Hfs).
  pose proof (mapLumpNames_required _ Hname) as Hreq.
  destruct (proj1 Hok eq_refl _ Hreq) as [info Hinfo].
  unfold getLump. rewrite bool_decide_true by done.
  rewrite (Hfind _ Hreq), Hinfo. destruct (Lump_read _ _). by eexists.
Qed.



(** ** The record layout of the level lumps *)

Lemma lumpRead_at lump v n :
  0 ≤ Lump.position lump → 0 ≤ n →
  Z.min (Lump.position lump) (len (Lump.data lump))
    = Z.min v (len (Lump.data lump)) →
  lumpRead n lump
  = (py_slice (Lump.data lump) v (v + n),
     Lump.Make (Lump.data lump) (Z.min (v + n) (len (Lump.data lump)))).
Proof.
  intros Hp Hn Hv. rewrite <- Lump_read_lumpRead by lia.
  by apply Lump_read_at.
Qed.

Ltac read_at v :=
  rewrite (lumpRead_at (Lump.Make _ _) v); cbn [Lump.position Lump.data snd];
  [|lia|lia|lia].

Lemma land_bit a n :
  0 ≤ n → Z.land a (2 ^ n) / 2 ^ n = Z.b2z (Z.testbit a n).
Proof.
  intros Hn. rewrite <- Z.shiftr_div_pow2, Z.shiftr_land by done.
  rewrite (Z.shiftr_div_pow2 (2 ^ n)), Z.div_same by lia.
  change 1 with (Z.ones 1). rewrite Z.land_ones by lia.
  rewrite Z.pow_1_r, <- Z.bit0_mod, Z.shiftr_spec by lia. done.
Qed.

Lemma land_bit3 a : Z.land a 8 / 8 = Z.b2z (Z.testbit a 3).
Proof. apply (land_bit a 3). lia. Qed.

Lemma land_bit4 a : Z.land a 16 / 16 = Z.b2z (Z.testbit a 4).
Proof. apply (land_bit a 4). lia. Qed.

Lemma vertexLoop_at n : ∀ lump acc (k0 : nat),
  0 ≤ Lump.position lump →
  Z.min (Lump.position lump) (len (Lump.data lump))
    = Z.min (4 * Z.of_nat k0) (len (Lump.data lump)) →
  vertexLoop n lump acc = acc ++ (vertexAt (Lump.data lump) <$> seq k0 n).
Proof.
  induction n as [|n IH]; intros [data p] acc k0 Hp Hpos;
    cbn [Lump.position Lump.data] in *.
  - simpl. by rewrite app_nil_r.
  - assert (0 ≤ len data) by (unfold len; lia).
    cbn [vertexLoop].
    read_at (4 * Z.of_nat k0). read_at (4 * Z.of_nat k0 + 2).
    rewrite (IH _ _ (S k0)); cbn [Lump.position Lump.data]; [|lia|lia].
    by rewrite <- app_assoc.
Qed.


Lemma lineDefLoop_at (zStyle : bool) n : ∀ lump acc (k0 : nat),
  0 ≤ Lump.position lump →
  Z.min (Lump.position lump) (len (Lump.data lump))
    = Z.min ((if zStyle then 16 else 14) * Z.of_nat k0) (len (Lump.data lump)) →
  lineDefLoop zStyle n lump acc
  = acc ++ (lineDefAt zStyle (Lump.data lump) <$> seq k0 n).
Proof.
  induction n as [|n IH]; intros [data p] acc k0 Hp Hpos;
    cbn [Lump.position Lump.data] in *.
  - simpl. by rewrite app_nil_r.
  - assert (0 ≤ len data) by (unfold len; lia).
    cbn [lineDefLoop]. destruct zStyle; cbn beta iota in Hpos.
    + read_at (16 * Z.of_nat k0). read_at (16 * Z.of_nat k0 + 2).
      read_at (16 * Z.of_nat k0 + 2 + 2). read_at (16 * Z.of_nat k0 + 2 + 2 + 2).
      read_at (16 * Z.of_nat k0 + 2 + 2 + 2 + 4).
      read_at (16 * Z.of_nat k0 + 2 + 2 + 2 + 4 + 2).
      read_at (16 * Z.of_nat k0 + 2 + 2 + 2 + 4 + 2 + 2).
      rewrite (IH _ _ (S k0)); cbn [Lump.position Lump.data]; [|lia|lia].
      rewrite <- app_assoc. f_equal. cbn [seq fmap list_fmap]. simpl app.
      f_equal. unfold lineDefAt, u16At.
      rewrite !land_bit3, !land_bit4. cbn zeta. repeat (f_equal; try lia).
    + read_at (14 * Z.of_nat k0). read_at (14 * Z.of_nat k0 + 2).
      read_at (14 * Z.of_nat k0 + 2 + 2). read_at (14 * Z.of_nat k0 + 2 + 2 + 2).
      read_at (14 * Z.of_nat k0 + 2 + 2 + 2 + 4).
      read_at (14 * Z.of_nat k0 + 2 + 2 + 2 + 4 + 2).
      rewrite (IH _ _ (S k0)); cbn [Lump.position Lump.data]; [|lia|lia].
      rewrite <- app_assoc. f_equal. cbn [seq fmap list_fmap]. simpl app.
      f_equal. unfold lineDefAt, u16At.
      rewrite !land_bit3, !land_bit4. cbn zeta. repeat (f_equal; try lia).
Qed.

Lemma py_slice_len2 {A} (l : list A) a : 0 ≤ len (py_slice l a (a + 2)) ≤ 2.
Proof. unfold py_slice, len. rewrite length_take. lia. Qed.

Lemma u16At_range data a : 0 ≤ u16At data a < 65536.
Proof.
  unfold u16At. pose proof (fromBytes_range (py_slice data a (a + 2))) as Hr.
  pose proof (py_slice_len2 data a) as Hl.
  assert (256 ^ len (py_slice data a (a + 2)) ≤ 256 ^ 2)
    by (apply Z.pow_le_mono_r; lia).
  lia.
Qed.

Lemma fromBytesSigned_range bs :
  len bs ≤ 2 → -32768 ≤ fromBytesSigned bs < 32768.
Proof.
  intros Hl. unfold fromBytesSigned.
  pose proof (fromBytes_range bs) as Hr.
  assert (0 ≤ len bs) by (unfold len; lia).
  assert (len bs = 0 ∨ len bs = 1 ∨ len bs = 2) as [Heq|[Heq|Heq]] by lia;
    rewrite Heq in *; cbn zeta; repeat case_decide; simpl in *; lia.
Qed.

Lemma s16At_range data a : -32768 ≤ s16At data a < 32768.
Proof.
  apply fromBytesSigned_range. pose proof (py_slice_len2 data a). lia.
Qed.


Lemma thingLoop_at (zStyle : bool) n : ∀ lump acc (k0 : nat),
  0 ≤ Lump.position lump →
  Z.min (Lump.position lump) (len (Lump.data lump))
    = Z.min ((if zStyle then 20 else 10) * Z.of_nat k0) (len (Lump.data lump)) →
  thingLoop zStyle n lump acc
  = acc ++ (thingAt zStyle (Lump.data lump) <$> seq k0 n).
Proof.
  induction n as [|n IH]; intros [data p] acc k0 Hp Hpos;
    cbn [Lump.position Lump.data] in *.
  - simpl. by rewrite app_nil_r.
  - assert (0 ≤ len data) by (unfold len; lia).
    cbn [thingLoop]. destruct zStyle; cbn beta iota in Hpos.
    + read_at (20 * Z.of_nat k0). read_at (20 * Z.of_nat k0 + 2).
      read_at (20 * Z.of_nat k0 + 2 + 2).
      read_at (20 * Z.of_nat k0 + 2 + 2 + 2).
      read_at (20 * Z.of_nat k0 + 2 + 2 + 2 + 2).
      read_at (20 * Z.of_nat k0 + 2 + 2 + 2 + 2 + 2).
      read_at (20 * Z.of_nat k0 + 2 + 2 + 2 + 2 + 2 + 2).
      read_at (20 * Z.of_nat k0 + 2 + 2 + 2 + 2 + 2 + 2 + 2).
      rewrite (IH _ _ (S k0)); cbn [Lump.position Lump.data]; [|lia|lia].
      rewrite <- app_assoc. f_equal. cbn [seq fmap list_fmap]. simpl app.
      f_equal. unfold thingAt, s16At. cbn zeta. repeat (f_equal; try lia).
    + read_at (10 * Z.of_nat k0). read_at (10 * Z.of_nat k0 + 2).
      read_at (10 * Z.of_nat k0 + 2 + 2).
      read_at (10 * Z.of_nat k0 + 2 + 2 + 2).
      read_at (10 * Z.of_nat k0 + 2 + 2 + 2 + 2).
      rewrite (IH _ _ (S k0)); cbn [Lump.position Lump.data]; [|lia|lia].
      rewrite <- app_assoc. f_equal. cbn [seq fmap list_fmap]. simpl app.
      f_equal. unfold thingAt, s16At. cbn zeta. repeat (f_equal; try lia).
Qed.


(** *** Sectors *)

Lemma lumpRead_len lump n :
  0 ≤ n → len (lumpRead n lump).1 ≤ n.
Proof.
  intros Hn. unfold lumpRead, py_slice, len. cbn [fst].
  rewrite length_take. lia.
Qed.

Lemma sectorLoop_shape upper n : ∀ lump acc,
  Forall (λ s, freshSector s ∧ 0 ≤ Sector.light s ≤ 255
               ∧ -32768 ≤ Sector.floorHeight s < 32768
               ∧ -32768 ≤ Sector.ceilingHeight s < 32768) acc →
  Forall (λ s, freshSector s ∧ 0 ≤ Sector.light s ≤ 255
               ∧ -32768 ≤ Sector.floorHeight s < 32768
               ∧ -32768 ≤ Sector.ceilingHeight s < 32768)
         (sectorLoop upper n lump acc)
  ∧ length (sectorLoop upper n lump acc) = (length acc + n)%nat.
Proof.
  induction n as [|n IH]; intros lump acc Hacc.
  - simpl. split; [done|lia].
  - cbn [sectorLoop].
    pose proof (lumpRead_len lump 2 ltac:(lia)) as H1.
    destruct (lumpRead 2 lump) as [b1 lump1].
    pose proof (lumpRead_len lump1 2 ltac:(lia)) as H2.
    destruct (lumpRead 2 lump1) as [b2 lump2].
    destruct (readName upper lump2) as [n1 lump3].
    destruct (readName upper lump3) as [n2 lump4].
    pose proof (lumpRead_len lump4 2 ltac:(lia)) as H3.
    destruct (lumpRead 2 lump4) as [b3 lump5].
    destruct (lumpRead 4 lump5) as [b4 lump6]. cbn [fst] in *.
    match goal with |- context [sectorLoop upper n lump6 (acc ++ [?s])] =>
      destruct (IH lump6 (acc ++ [s])) as [IH1 IH2] end.
    { apply Forall_app. split; [done|]. constructor; [|constructor].
      cbn [Sector.light Sector.floorHeight Sector.ceilingHeight].
      pose proof (fromBytesSigned_range b1 H1).
      pose proof (fromBytesSigned_range b2 H2).
      split; [done|]. lia. }
    split; [done|]. rewrite IH2, length_app. simpl. lia.
Qed.


(** ** What a fill paints *)

Lemma connected_black orig p0 q :
  inside (size orig) p0 → px orig p0 = black → connected orig p0 q →
  inside (size orig) q ∧ px orig q = black.
Proof. intros Hin Hc. by induction 1. Qed.

Lemma interior_no_border sz p :
  interior sz p → ¬ Exists (λ d, onBorder sz (nbr p d)) fillDirs.
Proof.
  intros [Hx Hy] (d & Hd & Hb)%Exists_exists.
  unfold fillDirs in Hd.
  repeat (apply elem_of_cons in Hd as [->|Hd]);
    [unfold onBorder, nbr in Hb; simpl in Hb; lia..|by apply elem_of_nil in Hd].
Qed.

Lemma filledFrom_refl b sector : filledFrom b sector b.
Proof. split; [done|]. by left. Qed.

(** The pixels a scan pushes are background neighbours of the pixel it
    was started on. *)
Lemma scan_pushes_neighbours orig sector b2 p q :
  filledFrom orig sector b2 → inside (size orig) p →
  ¬ Exists (λ d, onBorder (size orig) (nbr p d)) fillDirs →
  q ∈ reverse (filter (λ q, px b2 q = currColor false) (nbr p <$> fillDirs)) →
  ∃ d, d ∈ fillDirs ∧ q = nbr p d ∧ inside (size orig) q ∧ px orig q = black.
Proof.
  intros [Hsz Hb2] Hp He
    [Hq (d & -> & Hd)%list_elem_of_fmap]%elem_of_reverse%list_elem_of_filter.
  exists d. split; [done|]. split; [done|]. split.
  - apply nbr_inside; [done..|]. intros Hbd. apply He, Exists_exists.
    by exists d.
  - simpl in Hq. destruct (Hb2 (nbr p d)) as [Hc|(_ & Hc & _)]; [|done].
    apply cell_eq in Hc as [Hc _]. congruence.
Qed.

(** A forward fill changes pixels of the region of its start pixel only,
    and comes back with [False] only from a pixel of the region that
    touches the rim; it never raises. *)
Lemma fwd_reach orig sector p0 n : ∀ b toGo r,
  filledFrom orig sector b → stackOk orig toGo →
  (∀ q, cell b q ≠ cell orig q → connected orig p0 q) →
  Forall (connected orig p0) toGo →
  fillLoop n sector false b toGo = Some r →
  ∃ ok G, r = Ok (ok, G)
    ∧ (∀ q, cell G q ≠ cell orig q → connected orig p0 q)
    ∧ (ok = false → ∃ q, connected orig p0 q ∧ ¬ interior (size orig) q).
Proof.
  induction n as [|n IH]; intros b toGo r Hb Hst Hpainted Hstack H; [done|].
  destruct toGo as [|p rest].
  { injection H as <-. exists true, b. by repeat split. }
  apply Forall_cons_1 in Hst as [[Hp Hc] Hrest].
  apply Forall_cons_1 in Hstack as [Hp0 Hstack].
  assert (locate (size b) p = Some p) as Hl
    by (apply locate_inside; by rewrite (proj1 Hb)).
  rewrite (fillLoop_step _ _ _ _ _ _ _ Hl) in H.
  cbn beta iota zeta delta [fillColor] in H.
  pose proof (filledFrom_paint _ _ _ _ Hb Hp Hc) as Hb2.
  set (b2 := paint b p cyan sector) in *.
  assert (size b2 = size orig) as Hsz2 by apply Hb2.
  assert (∀ q, cell b2 q ≠ cell orig q → connected orig p0 q) as Hpainted2.
  { intros q Hq. destruct (decide (p = q)) as [<-|Hne]; [done|].
    apply Hpainted. unfold b2 in Hq. by rewrite cell_paint_ne in Hq. }
  rewrite scan_fillDirs in H by (by rewrite Hsz2). rewrite Hsz2 in H.
  destruct (decide (Exists _ fillDirs)) as [He|He].
  - injection H as <-. exists false, b2. split; [done|]. split; [done|].
    intros _. exists p. split; [done|]. intros Hi.
    by apply (interior_no_border _ _ Hi).
  - eapply IH; [exact Hb2| | | |exact H].
    + apply Forall_app. split; [|done]. apply Forall_forall. intros q Hq.
      destruct (scan_pushes_neighbours _ _ _ _ _ Hb2 Hp He Hq)
        as (d & _ & _ & ? & ?). done.
    + done.
    + apply Forall_app. split; [|done]. apply Forall_forall. intros q Hq.
      destruct (scan_pushes_neighbours _ _ _ _ _ Hb2 Hp He Hq)
        as (d & Hd & -> & Hin & Hblack).
      by apply connected_step.
Qed.

(** After a fill that returned [True] the whole region is painted. *)
Lemma region_painted orig sector p0 G q :
  inside (size orig) p0 → px orig p0 = black →
  filledFrom orig sector G → frontier orig G [] →
  cell G p0 = (cyan, int16 sector) →
  connected orig p0 q → cell G q = (cyan, int16 sector).
Proof.
  intros Hin Hc [Hsz HG] Hfr Hstart. induction 1 as [|q d Hq IH Hd Hn Hblack];
    [done|].
  destruct (connected_black _ _ _ Hin Hc Hq) as [Hqin Hqb].
  destruct (HG (nbr q d)) as [He|(_ & _ & He)]; [|done].
  exfalso. apply cell_eq in He as [He _].
  assert (cell G q ≠ cell orig q) as Hne.
  { rewrite IH. unfold cell. intros [= Heq _]. rewrite Hqb in Heq. colours. }
  pose proof (Hfr q d Hqin Hd Hn Hne ltac:(congruence)) as Hx.
  by apply elem_of_nil in Hx.
Qed.



(** ** [getImageSizeOffset] *)

Lemma extends_refl bd : extends bd bd.
Proof. unfold extends. lia. Qed.

Lemma extends_trans bd1 bd2 bd3 :
  extends bd1 bd2 → extends bd2 bd3 → extends bd1 bd3.
Proof. unfold extends. lia. Qed.

Lemma covers_extends bd bd' x y : covers bd x y → extends bd bd' → covers bd' x y.
Proof. unfold covers, extends. lia. Qed.

Section getImageSizeOffset_facts.
Context (vertexes : list Vertex.t) (sidedefs : list SideDef.t)
        (sectors : list Sector.t) (margins : Z) (hCoefX hCoefY : float).

Lemma accountVertex_spec height bd vertex bd' :
  accountVertex vertexes hCoefX hCoefY height bd vertex = Ok bd' →
  extends bd bd'
  ∧ (vertex < len vertexes →
     ∃ v x y, py_index vertexes vertex = Ok v
       ∧ project (Vertex.x v) height hCoefX = Ok x
       ∧ project (Vertex.y v) height hCoefY = Ok y
       ∧ covers bd' (Vertex.x v) (Vertex.y v) ∧ covers bd' x y).
Proof.
  unfold accountVertex. case_decide as Hv.
  - intros [= <-]. split; [apply extends_refl|lia].
  - destruct (py_index vertexes vertex) as [v|] eqn:Hpv; [|done].
    cbn [mbind result_bind].
    destruct (project (Vertex.x v) height hCoefX) as [x|] eqn:Hx; [|done].
    destruct (project (Vertex.y v) height hCoefY) as [y|] eqn:Hy; [|done].
    cbn [mbind result_bind]. intros [= <-].
    split; [unfold extends; simpl; lia|].
    intros _. exists v, x, y. repeat split; try done; simpl; lia.
Qed.

Lemma accountSide_spec linedef bd sidedef bd' :
  accountSide vertexes sidedefs sectors hCoefX hCoefY linedef bd sidedef
    = Ok bd' →
  extends bd bd'
  ∧ (sidedef ≠ 65535 → sidedef < len sidedefs →
     ∃ sd sector,
       py_index sidedefs sidedef = Ok sd
       ∧ py_index sectors (SideDef.sector sd) = Ok sector
       ∧ ∀ vertex height,
           vertex = LineDef.beg linedef ∨ vertex = LineDef.end_ linedef →
           height = Sector.floorHeight sector
           ∨ height = Sector.ceilingHeight sector →
           vertex < len vertexes →
           ∃ v x y, py_index vertexes vertex = Ok v
             ∧ project (Vertex.x v) height hCoefX = Ok x
             ∧ project (Vertex.y v) height hCoefY = Ok y
             ∧ covers bd' (Vertex.x v) (Vertex.y v) ∧ covers bd' x y).
Proof.
  unfold accountSide. case_decide as Hs.
  - intros [= <-]. split; [apply extends_refl|lia].
  - destruct (py_index sidedefs sidedef) as [sd|] eqn:Hsd; [|done].
    cbn [mbind result_bind].
    destruct (py_index sectors _) as [sector|] eqn:Hsec; [|done].
    cbn [mbind result_bind].
    destruct (accountVertex _ _ _ _ bd _) as [bd1|] eqn:H1; [|done].
    cbn [mbind result_bind].
    destruct (accountVertex _ _ _ _ bd1 _) as [bd2|] eqn:H2; [|done].
    cbn [mbind result_bind].
    destruct (accountVertex _ _ _ _ bd2 _) as [bd3|] eqn:H3; [|done].
    cbn [mbind result_bind]. intros H4.
    apply accountVertex_spec in H1 as [E1 C1].
    apply accountVertex_spec in H2 as [E2 C2].
    apply accountVertex_spec in H3 as [E3 C3].
    apply accountVertex_spec in H4 as [E4 C4].
    split; [by repeat (eapply extends_trans; [|eassumption])|].
    intros _ _. exists sd, sector. split; [done|]. split; [done|].
    intros vertex height [->| ->] [->| ->] Hlt.
    + destruct (C1 Hlt) as (v & x & y & ? & ? & ? & ? & ?).
      exists v, x, y. repeat split; try done;
        (eapply covers_extends; [eassumption|]);
        by repeat (eapply extends_trans; [eassumption|]).
    + destruct (C3 Hlt) as (v & x & y & ? & ? & ? & ? & ?).
      exists v, x, y. repeat split; try done;
        (eapply covers_extends; [eassumption|]); done.
    + destruct (C2 Hlt) as (v & x & y & ? & ? & ? & ? & ?).
      exists v, x, y. repeat split; try done;
        (eapply covers_extends; [eassumption|]);
        by repeat (eapply extends_trans; [eassumption|]).
    + destruct (C4 Hlt) as (v & x & y & ? & ? & ? & ? & ?).
      by exists v, x, y.
Qed.

(** What the loop has accounted for when it returns: every vertex of every
    live side, as it is and projected at floor and at ceiling height, lies
    within the extrema. *)
Lemma accountLinedefs_spec linedefs : ∀ bd bd',
  accountLinedefs vertexes sidedefs sectors hCoefX hCoefY linedefs bd
    = Ok bd' →
  extends bd bd'
  ∧ ∀ linedef sidedef,
      linedef ∈ linedefs → liveSide sidedefs linedef sidedef →
      ∃ sd sector,
        py_index sidedefs sidedef = Ok sd
        ∧ py_index sectors (SideDef.sector sd) = Ok sector
        ∧ ∀ vertex height,
            vertex = LineDef.beg linedef ∨ vertex = LineDef.end_ linedef →
            height = Sector.floorHeight sector
            ∨ height = Sector.ceilingHeight sector →
            vertex < len vertexes →
            ∃ v x y, py_index vertexes vertex = Ok v
              ∧ project (Vertex.x v) height hCoefX = Ok x
              ∧ project (Vertex.y v) height hCoefY = Ok y
              ∧ covers bd' (Vertex.x v) (Vertex.y v) ∧ covers bd' x y.
Proof.
  induction linedefs as [|l ls IH]; intros bd bd'.
  - intros [= <-]. split; [apply extends_refl|].
    by intros ? ? ?%elem_of_nil.
  - cbn [accountLinedefs].
    destruct (accountSide _ _ _ _ _ l bd _) as [bd1|] eqn:H1; [|done].
    cbn [mbind result_bind].
    destruct (accountSide _ _ _ _ _ l bd1 _) as [bd2|] eqn:H2; [|done].
    cbn [mbind result_bind]. intros H3.
    apply accountSide_spec in H1 as [E1 C1].
    apply accountSide_spec in H2 as [E2 C2].
    apply IH in H3 as [E3 C3].
    split; [by repeat (eapply extends_trans; [|eassumption])|].
    intros linedef sidedef [->|Hin]%elem_of_cons Hlive; [|by apply C3].
    destruct Hlive as ([->| ->] & Hne & Hlt).
    + destruct (C1 Hne Hlt) as (sd & sector & ? & ? & Hv).
      exists sd, sector. split; [done|]. split; [done|].
      intros vertex height Hvx Hh Hlt'.
      destruct (Hv vertex height Hvx Hh Hlt') as (v & x & y & ? & ? & ? & ? & ?).
      exists v, x, y. repeat split; try done;
        (eapply covers_extends; [eassumption|]);
        by repeat (eapply extends_trans; [eassumption|]).
    + destruct (C2 Hne Hlt) as (sd & sector & ? & ? & Hv).
      exists sd, sector. split; [done|]. split; [done|].
      intros vertex height Hvx Hh Hlt'.
      destruct (Hv vertex height Hvx Hh Hlt') as (v & x & y & ? & ? & ? & ? & ?).
      exists v, x, y. repeat split; try done;
        (eapply covers_extends; [eassumption|]); done.
Qed.
End getImageSizeOffset_facts.

Lemma getImageSizeOffset_margins_aux (vertexes : list Vertex.t)
    (sidedefs : list SideDef.t) (sectors : list Sector.t) (margins : Z)
    (hCoefX hCoefY : float) (linedefs : list LineDef.t) (w h ox oy : Z) :
  getImageSizeOffset vertexes sidedefs sectors margins hCoefX hCoefY linedefs
    = Ok (w, h, ox, oy) →
  ∀ linedef sidedef,
     linedef ∈ linedefs → liveSide sidedefs linedef sidedef →
     ∃ sd sector,
       py_index sidedefs sidedef = Ok sd
       ∧ py_index sectors (SideDef.sector sd) = Ok sector
       ∧ ∀ vertex height,
           vertex = LineDef.beg linedef ∨ vertex = LineDef.end_ linedef →
           height = Sector.floorHeight sector
           ∨ height = Sector.ceilingHeight sector →
           vertex < len vertexes →
           ∃ v x y, py_index vertexes vertex = Ok v
             ∧ project (Vertex.x v) height hCoefX = Ok x
             ∧ project (Vertex.y v) height hCoefY = Ok y
             ∧ margins ≤ Vertex.x v + ox ≤ w - margins
             ∧ margins ≤ Vertex.y v + oy ≤ h - margins
             ∧ margins ≤ x + ox ≤ w - margins
             ∧ margins ≤ y + oy ≤ h - margins.
Proof.
  unfold getImageSizeOffset. intros H.
  destruct (accountLinedefs _ _ _ _ _ linedefs _) as [bd|] eqn:Hbd; [|done].
  cbn [mbind result_bind] in H. injection H as <- <- <- <-.
  apply accountLinedefs_spec in Hbd as [_ Hall].
  intros linedef sidedef Hin Hlive.
  destruct (Hall linedef sidedef Hin Hlive) as (sd & sector & ? & ? & Hv).
  exists sd, sector. split; [done|]. split; [done|].
  intros vertex height Hvx Hh Hlt.
  destruct (Hv vertex height Hvx Hh Hlt)
    as (v & x & y & ? & ? & ? & Hc1 & Hc2).
  exists v, x, y. unfold covers in *. repeat split; try done; lia.
Qed.



(** ** The fill pass inside the margins *)

(** A fill attempt from a pixel inside the raster comes back without
    raising and keeps the invariant of the fill pass. *)
Lemma fillAttempt_total b sector startPix :
  blueprintInv b → inside (size b) startPix →
  ∃ b', fillAttempt sector startPix b = Some (Ok b')
        ∧ blueprintInv b' ∧ size b' = size b.
Proof.
  intros Hinv Hin. unfold fillAttempt, andThen.
  destruct (floodFill sector startPix false b) as [[[ok b1]|e]|] eqn:Hf.
  - destruct ok; cbn [fst snd].
    + destruct (fill_success_inv _ _ _ _ Hinv Hf) as [Hinv' [Hsz _]].
      by exists b1.
    + destruct Hinv as (Hclear & Hleak & Hrest).
      destruct (floodFill_undo _ _ _ _ Hclear Hleak Hf) as (b2 & -> & Hsame).
      exists b2. split; [done|]. split; [|apply Hsame].
      by eapply blueprintInv_sameState.
  - exfalso. revert Hf. unfold floodFill, floodFillFrom, getpixel.
    rewrite (locate_inside _ _ Hin).
    case_decide as Hc; simpl in Hc.
    + intros Hf.
      destruct (fwd_reach b sector startPix _ b [startPix] _
                  (filledFrom_refl _ _) ltac:(by apply Forall_singleton)
                  ltac:(by intros q) ltac:(by repeat constructor) Hf)
        as (? & ? & [=] & _).
    + unfold fillBudget. rewrite Nat.add_succ_r. done.
  - destruct (floodFill_terminates sector startPix false b) as [? Hs].
    by rewrite Hf in Hs.
Qed.

Lemma findFloodPoint_between linedef vertexes right v1 v2 :
  LineDef.beg linedef < len vertexes → LineDef.end_ linedef < len vertexes →
  py_index vertexes (LineDef.beg linedef) = Ok v1 →
  py_index vertexes (LineDef.end_ linedef) = Ok v2 →
  ∃ x y, findFloodPoint linedef vertexes right = Ok (x, y)
    ∧ (x ≠ noPoint →
       Z.min (Vertex.x v1) (Vertex.x v2) - 1 ≤ x
         ≤ Z.max (Vertex.x v1) (Vertex.x v2) + 1
       ∧ Z.min (Vertex.y v1) (Vertex.y v2) - 1 ≤ y
         ≤ Z.max (Vertex.y v1) (Vertex.y v2) + 1).
Proof.
  intros Hb He H1 H2. unfold findFloodPoint.
  rewrite decide_False by lia. rewrite H1, H2. cbn [mbind result_bind].
  case_decide; [by eexists _, _|].
  assert (Z.min (Vertex.x v1) (Vertex.x v2)
            ≤ (Vertex.x v1 + Vertex.x v2) / 2
            ≤ Z.max (Vertex.x v1) (Vertex.x v2)) as Hx.
  { split; [apply Z.div_le_lower_bound|apply Z.div_le_upper_bound]; lia. }
  assert (Z.min (Vertex.y v1) (Vertex.y v2)
            ≤ (Vertex.y v1 + Vertex.y v2) / 2
            ≤ Z.max (Vertex.y v1) (Vertex.y v2)) as Hy.
  { split; [apply Z.div_le_lower_bound|apply Z.div_le_upper_bound]; lia. }
  destruct right; eexists _, _; (split; [reflexivity|]); intros _;
    repeat case_decide; lia.
Qed.

Section fill_pass_safe.
Context (vertexes : list Vertex.t) (sidedefs : list SideDef.t)
        (sectors : list Sector.t) (margins : Z) (hCoefX hCoefY : float)
        (allLinedefs : list LineDef.t) (w h ox oy : Z).
Hypothesis Hsize :
  getImageSizeOffset vertexes sidedefs sectors margins hCoefX hCoefY allLinedefs
    = Ok (w, h, ox, oy).
Hypothesis Hmargins : 2 ≤ margins.

Lemma fillSide_safe linedef right sidedef b :
  linedef ∈ allLinedefs →
  sidedef = LineDef.front linedef ∨ sidedef = LineDef.back linedef →
  size b = (w, h) → blueprintInv b →
  ∃ b', fillSide vertexes sidedefs sectors ox oy linedef right sidedef b
          = Some (Ok b')
        ∧ blueprintInv b' ∧ size b' = size b.
Proof.
  intros Hin Hside Hsz Hinv. unfold fillSide.
  case_decide as Hlive; [|by exists b].
  destruct (getImageSizeOffset_margins_aux _ _ _ _ _ _ _ _ _ _ _ Hsize
              linedef sidedef Hin ltac:(by split))
    as (sd & sector & -> & -> & Hv).
  destruct (Sector.HOMpassed sector); [|by exists b].
  destruct (decide (LineDef.beg linedef < len vertexes
                    ∧ LineDef.end_ linedef < len vertexes)) as [[Hb He]|Hout].
  - destruct (Hv (LineDef.beg linedef) (Sector.floorHeight sector)
                ltac:(by left) ltac:(by left) Hb)
      as (v1 & _ & _ & Hv1 & _ & _ & Hx1 & Hy1 & _).
    destruct (Hv (LineDef.end_ linedef) (Sector.floorHeight sector)
                ltac:(by right) ltac:(by left) He)
      as (v2 & _ & _ & Hv2 & _ & _ & Hx2 & Hy2 & _).
    destruct (findFloodPoint_between linedef vertexes right v1 v2 Hb He Hv1 Hv2)
      as (x & y & -> & Hxy).
    case_decide as Hno; [by exists b|].
    apply fillAttempt_total; [done|].
    destruct (Hxy Hno) as [Hx Hy]. rewrite Hsz. unfold inside. simpl. lia.
  - unfold findFloodPoint. rewrite decide_True by lia.
    rewrite decide_True by done. by exists b.
Qed.

Lemma fillSectors_safe_aux linedefs : ∀ b,
  linedefs ⊆ allLinedefs → size b = (w, h) → blueprintInv b →
  ∃ b', fillSectors vertexes sidedefs sectors ox oy linedefs b = Some (Ok b')
        ∧ blueprintInv b' ∧ size b' = size b.
Proof.
  induction linedefs as [|l ls IH]; intros b Hsub Hsz Hinv; [by exists b|].
  cbn [fillSectors]. unfold fillLinedef, andThen.
  assert (l ∈ allLinedefs) as Hl by (apply Hsub; left).
  destruct (fillSide_safe l true (LineDef.front l) b Hl ltac:(by left) Hsz Hinv)
    as (b1 & -> & Hinv1 & Hsz1).
  destruct (fillSide_safe l false (LineDef.back l) b1 Hl ltac:(by right)
              ltac:(congruence) Hinv1) as (b2 & -> & Hinv2 & Hsz2).
  destruct (IH b2) as (b' & -> & Hinv' & Hsz');
    [intros x Hx; apply Hsub; by right|congruence|done|].
  exists b'. split; [done|]. split; [done|]. congruence.
Qed.
End fill_pass_safe.



(** ** The palette search finds a nearest colour *)

Lemma closestScan_inv pixel (pallete : list color) (st : color * Z) :
  let r := foldl (λ st pal,
             let distance := colorDistance pixel pal in
             if decide (distance < st.2) then (pal, distance) else st)
           st pallete in
  r.2 ≤ st.2
  ∧ (∀ pal, pal ∈ pallete → r.2 ≤ colorDistance pixel pal)
  ∧ (r = st ∨ (r.1 ∈ pallete ∧ r.2 = colorDistance pixel r.1)).
Proof.
  revert st. induction pallete as [|pal pallete IH]; intros st; cbn zeta.
  - simpl. split; [lia|]. split; [by intros ? ?%elem_of_nil|by left].
  - cbn [foldl]. specialize (IH (if decide (colorDistance pixel pal < st.2)
                                  then (pal, colorDistance pixel pal) else st)).
    cbn zeta in IH. destruct IH as (Hle & Hmin & Hwho).
    case_decide as Hlt; simpl in Hle.
    + split; [lia|]. split.
      * intros c [->|Hc]%elem_of_cons; [done|by apply Hmin].
      * right. destruct Hwho as [->|[Hin Hd]]; simpl.
        -- split; [left|done].
        -- split; [by right|done].
    + split; [done|]. split.
      * intros c [->|Hc]%elem_of_cons; [lia|by apply Hmin].
      * destruct Hwho as [Heq|[Hin Hd]]; [by left|right].
        split; [by right|done].
Qed.

Lemma colorDistance_byte pixel pal :
  byteColor pixel → byteColor pal → colorDistance pixel pal ≤ 765.
Proof. unfold byteColor, colorDistance. lia. Qed.

Lemma closestScan_nearest pixel pallete :
  pallete ≠ [] → Forall byteColor pallete → byteColor pixel →
  nearest pallete pixel (closestScan pixel pallete).1.
Proof.
  intros Hne Hpal Hpix. unfold closestScan.
  destruct (closestScan_inv pixel pallete ((0, 0, 0), 256 * 4))
    as (Hle & Hmin & Hwho).
  cbn zeta in *. destruct Hwho as [Heq|[Hin Hd]].
  - exfalso. destruct pallete as [|pal pallete]; [done|].
    apply Forall_cons_1 in Hpal as [Hpal _].
    pose proof (Hmin pal ltac:(left)) as Hm. rewrite Heq in Hm. simpl in Hm.
    pose proof (colorDistance_byte pixel pal Hpix Hpal). lia.
  - split; [done|]. intros pal Hpal'. rewrite <- Hd. by apply Hmin.
Qed.

Lemma palletizePixel_cache pallete mem p :
  cacheOk pallete mem →
  (palletizePixel pallete mem p).1 = (palletizePixel pallete ∅ p).1
  ∧ cacheOk pallete (palletizePixel pallete mem p).2.
Proof.
  intros Hmem. unfold palletizePixel. case_decide as Hin; [|done].
  unfold closestPix. rewrite lookup_empty.
  destruct (mem !! rgb p) as [c|] eqn:Hc; cbn [fst snd].
  - by rewrite (Hmem _ _ Hc).
  - split; [done|]. intros k c'.
    destruct (decide (k = rgb p)) as [->|Hne].
    + rewrite lookup_insert_eq. by intros [= <-].
    + rewrite lookup_insert_ne by done. apply Hmem.
Qed.

(** The cache of [closestPix] does not change what [palletizePic]
    computes. *)
Lemma palletizeLoop_pure pallete (im : list pix) : ∀ mem,
  cacheOk pallete mem →
  palletizeLoop pallete mem im = (λ p, (palletizePixel pallete ∅ p).1) <$> im.
Proof.
  induction im as [|p im IH]; intros mem Hmem; [done|].
  cbn [palletizeLoop].
  destruct (palletizePixel_cache pallete mem p Hmem) as [H1 H2].
  destruct (palletizePixel pallete mem p) as [p' mem']. cbn [fst snd] in *.
  rewrite fmap_cons, <- H1. f_equal. by apply IH.
Qed.



(** ** Flats *)

Lemma createFlatColumn_spec pallete rawFlat n : ∀ (k : nat) column,
  length pallete = 256%nat → (k + n ≤ length rawFlat)%nat →
  ∃ new, createFlatColumn pallete rawFlat n (Z.of_nat k) column
         = Ok (column ++ new, Z.of_nat (k + n))
    ∧ length new = n
    ∧ ∀ j, (j < n)%nat →
           Some <$> new !! j = (λ i, pallete !! Z.to_nat i) <$> rawIndex rawFlat (k + j).
Proof.
  induction n as [|n IH]; intros k column Hpal Hk.
  - exists []. rewrite app_nil_r, Nat.add_0_r. split; [done|]. split; [done|].
    lia.
  - cbn [createFlatColumn].
    destruct (py_index_lookup rawFlat (Z.of_nat k)) as (b & -> & Hb);
      [unfold len; lia|].
    rewrite Nat2Z.id in Hb. cbn [mbind result_bind].
    pose proof (Byte.to_N_bounded b) as Hbb.
    destruct (py_index_lookup pallete (Z.of_N (Byte.to_N b)))
      as (c & -> & Hc); [unfold len; lia|].
    cbn [mbind result_bind].
    replace (Z.of_nat k + 1) with (Z.of_nat (S k)) by lia.
    destruct (IH (S k) (column ++ [c]) Hpal ltac:(lia))
      as (new & -> & Hlen & Hnew).
    exists (c :: new). rewrite <- app_assoc. split.
    { do 3 f_equal. lia. }
    split; [simpl; lia|]. intros j Hj. destruct j as [|j].
    + rewrite Nat.add_0_r. unfold rawIndex. rewrite Hb. simpl. by rewrite Hc.
    + simpl. rewrite (Hnew j) by lia. do 2 f_equal. lia.
Qed.

Lemma createFlatLoop_spec pallete rawFlat height n : ∀ (i0 : nat) out,
  length pallete = 256%nat → ((i0 + n) * height ≤ length rawFlat)%nat →
  ∃ new, createFlatLoop pallete rawFlat height n (Z.of_nat (i0 * height)) out
         = Ok (out ++ new)
    ∧ length new = n
    ∧ ∀ i column, new !! i = Some column →
        length column = height
        ∧ ∀ j, (j < height)%nat →
               Some <$> column !! j
               = (λ v, pallete !! Z.to_nat v)
                   <$> rawIndex rawFlat ((i0 + i) * height + j).
Proof.
  induction n as [|n IH]; intros i0 out Hpal Hk.
  - exists []. rewrite app_nil_r. split; [done|]. split; [done|]. done.
  - cbn [createFlatLoop].
    destruct (createFlatColumn_spec pallete rawFlat height (i0 * height) []
                Hpal ltac:(lia)) as (col & -> & Hlen & Hcol).
    cbn [mbind result_bind fst snd app].
    replace (i0 * height + height)%nat with (S i0 * height)%nat by lia.
    destruct (IH (S i0) (out ++ [col]) Hpal ltac:(lia))
      as (new & -> & Hlen' & Hnew).
    exists (col :: new). rewrite <- app_assoc. split; [done|].
    split; [simpl; lia|]. intros i column Hi. destruct i as [|i].
    + injection Hi as <-. rewrite Nat.add_0_r. done.
    + simpl in Hi. destruct (Hnew i column Hi) as [H1 H2]. split; [done|].
      intros j Hj. rewrite (H2 j Hj). do 2 f_equal. lia.
Qed.



(** *** [flat2pic] and [pic2flat] *)

Lemma flat2picLoop_spec flat ps : ∀ im,
  (∀ p, p ∈ ps → 0 ≤ p.1 ∧ 0 ≤ p.2
        ∧ ∃ column c, flat !! Z.to_nat p.1 = Some column
                      ∧ column !! Z.to_nat p.2 = Some c) →
  (∀ p, ∃ c, imPx im p = RGB c) →
  ∃ im', flat2picLoop flat ps im = Ok im'
    ∧ imSize im' = imSize im
    ∧ ∀ p, (p ∈ ps → imPx im' p = RGB (clipColor (flatAt flat p)))
           ∧ (p ∉ ps → imPx im' p = imPx im p).
Proof.
  induction ps as [|p0 ps IH]; intros im Hps Hrgb.
  - exists im. split; [done|]. split; [done|]. intros p.
    split; [by intros ?%elem_of_nil|done].
  - destruct (Hps p0 ltac:(left)) as (Hx & Hy & column & c & Hcol & Hc).
    assert (flat2picLoop flat (p0 :: ps) im
            = flat2picLoop flat ps (setRGB im p0 c)) as Hstep.
    { cbn [flat2picLoop]. rewrite (py_index_nonneg flat) by done.
      rewrite Hcol. cbn [mbind result_bind].
      rewrite (py_index_nonneg column) by done. by rewrite Hc. }
    assert (flatAt flat p0 = c) as Hat.
    { unfold flatAt. by rewrite Hcol, Hc. }
    assert (∀ p, imPx (setRGB im p0 c) p
                 = if decide (p0 = p) then RGB (clipColor c) else imPx im p)
      as Hset.
    { intros p. unfold setRGB. cbn [imPx]. case_decide as Hp.
      - subst p. rewrite fn_lookup_insert. by destruct (Hrgb p0) as [c0 ->].
      - by rewrite fn_lookup_insert_ne. }
    destruct (IH (setRGB im p0 c)) as (im' & Hloop & Hsz & Hpx).
    { intros p Hp. apply Hps. by right. }
    { intros p. rewrite Hset. case_decide; [by eexists|apply Hrgb]. }
    exists im'. split; [by rewrite Hstep|]. split; [done|]. intros p. split.
    + intros [->|Hp]%elem_of_cons.
      * destruct (decide (p0 ∈ ps)) as [Hin|Hout].
        -- by apply Hpx.
        -- rewrite (proj2 (Hpx p0) Hout), Hset, decide_True by done.
           by rewrite Hat.
      * by apply Hpx.
    + intros Hp. apply not_elem_of_cons in Hp as [Hne Hp].
      rewrite (proj2 (Hpx p) Hp), Hset. by rewrite decide_False.
Qed.



(** ** Pictures in the Doom format *)

Lemma readByte_eof lump :
  len (Lump.data lump) ≤ Lump.position lump →
  readByte lump = (0, Lump.Make (Lump.data lump) (len (Lump.data lump))).
Proof.
  intros Hp. assert (0 ≤ len (Lump.data lump)) by (unfold len; lia).
  rewrite (readByte_at lump (Lump.position lump)) by lia.
  rewrite byteAt_beyond by done. f_equal. f_equal. lia.
Qed.

Lemma Lump_read_eof lump n :
  0 ≤ n → len (Lump.data lump) ≤ Lump.position lump →
  (Lump_read n lump).2 = Lump.Make (Lump.data lump) (len (Lump.data lump)).
Proof.
  intros Hn Hp. unfold Lump_read. cbn [snd]. f_equal. lia.
Qed.

(** At the end of the data the loop reads 0 for [topdelta] and for
    [length], draws nothing and starts over: it never ends. *)
Lemma postLoop_eof pallete i im fuel : ∀ lump,
  len (Lump.data lump) ≤ Lump.position lump →
  postLoop fuel pallete i im lump = None.
Proof.
  induction fuel as [|fuel IH]; intros lump Hp; [done|].
  cbn [postLoop]. rewrite (readByte_eof lump Hp).
  rewrite decide_False by done.
  rewrite readByte_eof by (cbn [Lump.position Lump.data]; lia).
  cbn [Lump.data].
  pose proof (Lump_read_eof (Lump.Make (Lump.data lump) (len (Lump.data lump)))
                1 ltac:(lia) ltac:(cbn [Lump.position Lump.data]; lia)) as Hr.
  destruct (Lump_read 1 _) as [bs lump1]. cbn [snd Lump.data] in Hr. subst lump1.
  cbn [Z.to_nat postPixels].
  pose proof (Lump_read_eof (Lump.Make (Lump.data lump) (len (Lump.data lump)))
                1 ltac:(lia) ltac:(cbn [Lump.position Lump.data]; lia)) as Hr.
  destruct (Lump_read 1 _) as [bs' lump1]. cbn [snd Lump.data] in Hr. subst lump1.
  apply IH. cbn [Lump.position Lump.data]. lia.
Qed.

Lemma postOffsetsLoop_at n : ∀ lump acc v,
  0 ≤ v → 0 ≤ Lump.position lump →
  Z.min (Lump.position lump) (len (Lump.data lump)) = Z.min v (len (Lump.data lump)) →
  postOffsetsLoop n lump acc
  = (acc ++ ((λ k, fromBytes (py_slice (Lump.data lump) (v + 4 * Z.of_nat k)
                                        (v + 4 * Z.of_nat k + 4))) <$> seq 0 n),
     Lump.Make (Lump.data lump)
       (if decide (n = 0%nat) then Lump.position lump
        else Z.min (v + 4 * Z.of_nat n) (len (Lump.data lump)))).
Proof.
  induction n as [|n IH]; intros [data p] acc v Hv Hp Hpos;
    cbn [Lump.position Lump.data] in *.
  - simpl. by rewrite app_nil_r.
  - assert (0 ≤ len data) by (unfold len; lia).
    cbn [postOffsetsLoop].
    rewrite (Lump_read_at (Lump.Make data p) v 4) by (done || lia).
    cbn [Lump.data].
    rewrite (IH _ _ (v + 4)); cbn [Lump.position Lump.data]; [|lia|lia|lia].
    rewrite <- app_assoc. f_equal.
    + f_equal. cbn [seq fmap list_fmap]. simpl app. f_equal.
      * by rewrite Z.mul_0_r, Z.add_0_r.
      * rewrite <- seq_shift, <- list_fmap_compose. apply list_fmap_ext.
        intros _ k _. unfold compose.
        by replace (v + 4 + 4 * Z.of_nat k) with (v + 4 * Z.of_nat (S k)) by lia.
    + f_equal. rewrite (decide_False (P := S n = 0%nat)) by done.
      case_decide; [subst n; lia|lia].
Qed.



(** *** A loop that ends, ends within the length of the lump *)

Lemma Lump_read_advances lump n :
  0 ≤ n → 0 ≤ Lump.position lump ≤ len (Lump.data lump) →
  advances lump (Lump_read n lump).2.
Proof.
  intros Hn Hp. unfold advances, Lump_read. cbn [snd Lump.data Lump.position].
  split; [done|lia].
Qed.

Lemma readByte_advances lump :
  0 ≤ Lump.position lump ≤ len (Lump.data lump) →
  advances lump (readByte lump).2
  ∧ (Lump.position lump < len (Lump.data lump) →
     Lump.position (readByte lump).2 = Lump.position lump + 1).
Proof.
  intros Hp. unfold readByte.
  pose proof (Lump_read_advances lump 1 ltac:(lia) Hp) as Ha.
  assert (Lump.position lump < len (Lump.data lump) →
          Lump.position (Lump_read 1 lump).2 = Lump.position lump + 1) as Hs.
  { intros Hlt. unfold Lump_read. cbn [snd Lump.position]. lia. }
  by destruct (Lump_read 1 lump).
Qed.

Lemma advances_trans l1 l2 l3 : advances l1 l2 → advances l2 l3 → advances l1 l3.
Proof. unfold advances. intros [Hd1 Hp1] [Hd2 Hp2]. rewrite Hd1 in *. split; [congruence|lia]. Qed.

Lemma advances_range l1 l2 :
  0 ≤ Lump.position l1 → advances l1 l2 →
  0 ≤ Lump.position l2 ≤ len (Lump.data l2).
Proof. unfold advances. intros Hp [-> ?]. lia. Qed.

Lemma patchPixel_new pallete sz p : patchPixel pallete (imPx (newRGBA sz) p).
Proof. by left. Qed.

Lemma putRGB_patch pallete im p c im' :
  (∀ q, patchPixel pallete (imPx im q)) → c ∈ pallete →
  putRGB im p c = Ok im' →
  imSize im' = imSize im ∧ ∀ q, patchPixel pallete (imPx im' q).
Proof.
  intros Him Hc. unfold putRGB. destruct (locate _ _) as [q0|]; [|done].
  intros [= <-]. split; [done|]. intros q. unfold setRGB. cbn [imPx].
  destruct (decide (q0 = q)) as [->|Hne].
  - rewrite fn_lookup_insert. right. exists c. split; [done|].
    by destruct (Him q) as [->|(c0 & _ & ->)].
  - rewrite fn_lookup_insert_ne by done. apply Him.
Qed.

Lemma postPixels_spec pallete i topdelta n : ∀ j im lump im' lump',
  0 ≤ Lump.position lump ≤ len (Lump.data lump) →
  (∀ q, patchPixel pallete (imPx im q)) →
  postPixels pallete i topdelta n j im lump = Ok (im', lump') →
  advances lump lump' ∧ imSize im' = imSize im
  ∧ ∀ q, patchPixel pallete (imPx im' q).
Proof.
  induction n as [|n IH]; intros j im lump im' lump' Hp Him.
  - intros [= <- <-]. split; [unfold advances; split; [done|lia]|done].
  - cbn [postPixels].
    destruct (readByte_advances lump Hp) as [Ha _].
    destruct (readByte lump) as [pixel lump1]. cbn [snd] in Ha.
    destruct (py_index pallete pixel) as [c|] eqn:Hc; [|done].
    cbn [mbind result_bind].
    destruct (putRGB im (i, topdelta + j) c) as [im1|] eqn:Hput; [|done].
    cbn [mbind result_bind]. intros Hrest.
    destruct (putRGB_patch pallete _ _ _ _ Him (py_index_elem _ _ _ Hc) Hput)
      as [Hsz1 Him1].
    apply IH in Hrest as (Ha' & Hsz' & Him');
      [|apply (advances_range lump); [lia|done]|done].
    split; [by eapply advances_trans|]. split; [congruence|done].
Qed.

Lemma postLoop_mono pallete i n : ∀ m im lump r,
  postLoop n pallete i im lump = Some r → (n ≤ m)%nat →
  postLoop m pallete i im lump = Some r.
Proof.
  induction n as [|n IH]; intros m im lump r H Hm; [done|].
  destruct m as [|m]; [lia|]. cbn [postLoop] in *.
  destruct (readByte lump) as [topdelta lump1].
  case_decide; [done|].
  destruct (readByte lump1) as [length lump2].
  destruct (Lump_read 1 lump2) as [? lump3].
  destruct (postPixels _ _ _ _ _ _ _) as [[im' lump4]|]; [|done].
  destruct (Lump_read 1 lump4) as [? lump5].
  apply IH; [done|lia].
Qed.

(** What a column loop that ends has done, and how many turns that can
    take at most. *)
Lemma postLoop_spec pallete i n : ∀ im lump r,
  0 ≤ Lump.position lump →
  (∀ q, patchPixel pallete (imPx im q)) →
  postLoop n pallete i im lump = Some r →
  postLoop (S (Z.to_nat (len (Lump.data lump) - Lump.position lump)))
    pallete i im lump = Some r
  ∧ ∀ im' lump', r = Ok (im', lump') →
      Lump.data lump' = Lump.data lump
      ∧ imSize im' = imSize im
      ∧ ∀ q, patchPixel pallete (imPx im' q).
Proof.
  induction n as [|n IH]; intros im lump r Hp0 Him H; [done|].
  destruct (decide (len (Lump.data lump) ≤ Lump.position lump)) as [Heof|Hlt].
  { by rewrite postLoop_eof in H. }
  assert (0 ≤ Lump.position lump ≤ len (Lump.data lump)) as Hp by lia.
  cbn [postLoop] in H |- *.
  destruct (readByte_advances lump Hp) as [Ha1 Hs1].
  specialize (Hs1 ltac:(lia)).
  destruct (readByte lump) as [topdelta lump1]. cbn [snd] in *.
  case_decide.
  { split; [done|]. intros im' lump' Hr. injection H as <-.
    injection Hr as <- <-. split; [apply Ha1|done]. }
  pose proof (advances_range _ _ Hp0 Ha1) as Hp1.
  destruct (readByte_advances lump1 Hp1) as [Ha2 _].
  destruct (readByte lump1) as [length lump2]. cbn [snd] in *.
  pose proof (advances_range _ _ (proj1 Hp1) Ha2) as Hp2.
  pose proof (Lump_read_advances lump2 1 ltac:(lia) Hp2) as Ha3.
  destruct (Lump_read 1 lump2) as [? lump3]. cbn [snd] in *.
  pose proof (advances_range _ _ (proj1 Hp2) Ha3) as Hp3.
  destruct (postPixels _ _ _ _ _ _ _) as [[im4 lump4]|] eqn:Hpix.
  2:{ split; [done|]. intros im' lump' Hr. injection H as <-. done. }
  destruct (postPixels_spec _ _ _ _ _ _ _ _ _ Hp3 Him Hpix)
    as (Ha4 & Hsz4 & Him4).
  pose proof (advances_range _ _ (proj1 Hp3) Ha4) as Hp4.
  pose proof (Lump_read_advances lump4 1 ltac:(lia) Hp4) as Ha5.
  destruct (Lump_read 1 lump4) as [? lump5]. cbn [snd] in *.
  pose proof (advances_range _ _ (proj1 Hp4) Ha5) as Hp5.
  pose proof (advances_trans _ _ _ Ha1
                (advances_trans _ _ _ Ha2
                   (advances_trans _ _ _ Ha3
                      (advances_trans _ _ _ Ha4 Ha5)))) as Hall.
  destruct (IH im4 lump5 r (proj1 Hp5) Him4 H) as [Hfuel Hres].
  split.
  - eapply postLoop_mono; [exact Hfuel|].
    destruct Hall as [Hd Hpos]. destruct Ha1 as [Hd1 Hpos1].
    destruct Ha2 as [Hd2 Hpos2]. destruct Ha3 as [Hd3 Hpos3].
    destruct Ha4 as [Hd4 Hpos4]. destruct Ha5 as [Hd5 Hpos5].
    rewrite Hd. rewrite Hd1, Hd2, Hd3, Hd4 in *. lia.
  - intros im' lump' Hr. destruct (Hres im' lump' Hr) as (Hd & Hsz & Hpx).
    split; [|split; [congruence|done]]. rewrite Hd. apply Hall.
Qed.

Lemma columnsLoop_spec pallete postOffsets fuel : ∀ columns im lump r,
  Forall (λ v, 0 ≤ v) postOffsets →
  (∀ q, patchPixel pallete (imPx im q)) →
  columnsLoop fuel pallete postOffsets columns im lump = Some r →
  columnsLoop (S (length (Lump.data lump))) pallete postOffsets columns im lump
    = Some r
  ∧ ∀ im', r = Ok im' →
      imSize im' = imSize im ∧ ∀ q, patchPixel pallete (imPx im' q).
Proof.
  induction columns as [|i columns IH]; intros im lump r Hoff Him.
  - cbn [columnsLoop]. intros [= <-]. split; [done|]. by intros im' [= <-].
  - cbn [columnsLoop].
    destruct (py_index postOffsets i) as [offset|e] eqn:Hi.
    2:{ intros [= <-]. split; [done|]. done. }
    assert (0 ≤ offset) as Hoffset.
    { rewrite Forall_forall in Hoff. by eapply Hoff, py_index_elem. }
    destruct (postLoop fuel pallete i im (Lump_seek offset lump))
      as [r0|] eqn:Hloop; [|done].
    destruct (postLoop_spec _ _ _ _ (Lump_seek offset lump) _ Hoffset Him Hloop)
      as [Hfuel Hres].
    cbn [Lump_seek Lump.data Lump.position] in Hfuel.
    rewrite (postLoop_mono _ _ _ (S (length (Lump.data lump))) _ _ _ Hfuel)
      by (unfold len; lia).
    destruct r0 as [[im1 lump1]|e].
    + destruct (Hres im1 lump1 eq_refl) as (Hd & Hsz & Hpx).
      cbn [Lump_seek Lump.data] in Hd. intros Hrest.
      destruct (IH im1 lump1 r Hoff Hpx Hrest) as [Hfuel' Hres'].
      rewrite Hd in Hfuel'. split; [done|].
      intros im' Hr. destruct (Hres' im' Hr) as [Hsz' Hpx'].
      split; [congruence|done].
    + intros [= <-]. split; [done|]. done.
Qed.

Lemma postOffsetsLoop_nonneg n : ∀ lump acc,
  Forall (λ v, 0 ≤ v) acc →
  Forall (λ v, 0 ≤ v) (postOffsetsLoop n lump acc).1
  ∧ Lump.data (postOffsetsLoop n lump acc).2 = Lump.data lump.
Proof.
  induction n as [|n IH]; intros lump acc Hacc; [done|].
  cbn [postOffsetsLoop].
  pose proof (Lump_read_data 4 lump) as Hd.
  destruct (Lump_read 4 lump) as [b lump1]. cbn [snd] in Hd.
  destruct (IH lump1 (acc ++ [fromBytes b])) as [H1 H2].
  { apply Forall_app. split; [done|]. constructor; [|constructor].
    apply fromBytes_range. }
  split; [done|congruence].
Qed.

Lemma getPictureFuel_spec png2pic fuel data pallete r :
  getPictureFuel png2pic fuel (Some (Lump.Make data 0)) pallete = Some r →
  getPicture png2pic (Some (Lump.Make data 0)) pallete = Some r
  ∧ (py_slice_any data 1 4 ≠ pngMark →
     ∀ im, r = Ok (Some im) →
       imSize im = (u16At data 0, u16At data 2)
       ∧ u16At data 0 ≤ 2000 ∧ u16At data 2 ≤ 2000
       ∧ ∀ q, patchPixel pallete (imPx im q)).
Proof.
  unfold getPicture, getPictureFuel. cbn [Lump.data].
  case_decide as Hpng; [done|].
  assert (0 ≤ len data) by (unfold len; lia).
  rewrite (Lump_read_at _ 0 2); cbn [Lump.position Lump.data]; [|lia..].
  rewrite (Lump_read_at _ 2 2); cbn [Lump.position Lump.data]; [|lia..].
  fold (u16At data 0). fold (u16At data 2).
  case_decide as Hbig; [by intros [= <-]|].
  pose proof (Lump_read_data 4 (Lump.Make data (Z.min (2 + 2) (len data))))
    as Hd4.
  destruct (Lump_read 4 _) as [? lump3]. cbn [snd Lump.data] in Hd4.
  destruct (postOffsetsLoop_nonneg (Z.to_nat (u16At data 0)) lump3 []
              ltac:(constructor)) as [Hnn Hd5].
  destruct (postOffsetsLoop _ lump3 []) as [postOffsets lump4].
  cbn [fst snd] in Hnn, Hd5.
  destruct (columnsLoop fuel _ _ _ _ _) as [r0|] eqn:Hcols; [|done].
  destruct (columnsLoop_spec _ _ _ _ _ _ _ Hnn
              (patchPixel_new pallete _) Hcols) as [Hfuel Hres].
  rewrite Hd5, Hd4 in Hfuel. rewrite Hfuel. intros Hr. split; [done|].
  intros _ im ->. destruct r0 as [im0|]; [|done]. injection Hr as <-.
  destruct (Hres im0 eq_refl) as [Hsz Hpx].
  split; [done|]. split; [lia|]. split; [lia|done].
Qed.



(** ** [parseThings] *)

Lemma findSprite_lump allLumps sprite angle :
  findSprite allLumps sprite angle = EmptyString
  ∨ findSprite allLumps sprite angle ∈ allLumps.
Proof.
  unfold findSprite.
  assert (∀ lumps found,
            found = EmptyString ∨ found ∈ allLumps → lumps ⊆ allLumps →
            let r := foldl (λ found lumpName,
                       if str_in sprite lumpName && str_in angle lumpName then
                         if bool_decide (found = EmptyString)
                            || (bool_decide (str_slice lumpName 6 8 = nuls 2)
                                && negb (bool_decide
                                           (str_slice found 6 8 = nuls 2)))
                         then lumpName else found
                       else found) found lumps in
            r = EmptyString ∨ r ∈ allLumps) as Hgen.
  { induction lumps as [|l ls IH]; intros found Hf Hsub; [done|].
    cbn [foldl]. apply IH; [|intros x Hx; apply Hsub; by right].
    assert (l ∈ allLumps) by (apply Hsub; by left).
    destruct (_ && _); [|done]. destruct (_ || _); [by right|done]. }
  apply Hgen; [by left|done].
Qed.

Lemma resolveSprite_spec allLumps thingName sprite0 count thing :
  sprite0 = EmptyString ∨ sprite0 ∈ allLumps →
  let r := (resolveSprite allLumps thingName sprite0 count thing).1 in
  Thing.x r = Thing.x thing ∧ Thing.y r = Thing.y thing
  ∧ Thing.angle r = Thing.angle thing ∧ Thing.type r = Thing.type thing
  ∧ Thing.options r = Thing.options thing
  ∧ (Thing.sprite r = EmptyString ∨ Thing.sprite r ∈ allLumps).
Proof.
  intros H0. unfold resolveSprite.
  set (first := if decide (String.length thingName = 4%nat) then _ else _).
  assert (first = EmptyString ∨ first ∈ allLumps) as Hfirst.
  { unfold first. repeat case_decide; auto using findSprite_lump. }
  destruct (if decide (first = EmptyString) then _ else _)
    as [sprite count'] eqn:Hsel.
  assert (sprite = EmptyString ∨ sprite ∈ allLumps) as Hsprite.
  { repeat case_decide; injection Hsel as <- <-;
      auto using findSprite_lump. }
  cbn. by repeat split.
Qed.

Lemma placed_app tl1 tl2 : placed (tl1 ++ tl2) = placed tl1 ++ placed tl2.
Proof. unfold placed. by rewrite bind_app. Qed.

Lemma placed_cons k l tl :
  placed ((k, l) :: tl) = ((λ thing, (k, thing)) <$> l) ++ placed tl.
Proof. done. Qed.

(** A thing goes to one entry, whose key is its distance or compares
    equal to it. *)
Lemma addThing_placed tl d thing :
  ∃ k, (k = d ∨ PrimFloat.eqb k d = true)
       ∧ placed (addThing tl d thing) ≡ₚ placed tl ++ [(k, thing)].
Proof.
  unfold addThing.
  destruct (list_find _ tl) as [[i [k l]]|] eqn:Hfind.
  - apply list_find_Some in Hfind as (Hi & Hk & _). cbn [fst] in Hk.
    exists k. split; [by right|].
    rewrite insert_take_drop by (by eapply lookup_lt_Some).
    rewrite <- (take_drop_middle tl i (k, l)) at 3 by done.
    rewrite !placed_app, !placed_cons, fmap_app. cbn [fmap list_fmap].
    rewrite <- ?app_assoc. do 2 apply Permutation_app_head.
    apply Permutation_app_comm.
  - exists d. split; [by left|].
    rewrite placed_app, placed_cons. cbn. done.
Qed.

Lemma thingDistance_position hCoefX hCoefY t t' :
  Thing.x t' = Thing.x t → Thing.y t' = Thing.y t →
  thingDistance hCoefX hCoefY t' = thingDistance hCoefX hCoefY t.
Proof. unfold thingDistance. by intros -> ->. Qed.

Section parseThings_facts.
Variables (allLumps : list string) (hCoefX hCoefY : float).
Variables (difficulty : Z) (deathmatch : bool).

Lemma parseLoop_spec things : ∀ st st',
  Parse.sprite st = EmptyString ∨ Parse.sprite st ∈ allLumps →
  parseLoop allLumps hCoefX hCoefY difficulty deathmatch things st = Ok st' →
  ∃ es, Forall2 (enriched allLumps hCoefX hCoefY)
          (filter (λ t, shown deathmatch difficulty t = true) things) es
        ∧ placed (Parse.thingsList st') ≡ₚ placed (Parse.thingsList st) ++ es
        ∧ Parse.sprites st' = Parse.sprites st ∪ spritesOf es.
Proof.
  induction things as [|thing rest IH]; intros st st' Hs0.
  - intros [= <-]. exists []. rewrite filter_nil, app_nil_r.
    split; [constructor|]. split; [done|]. unfold spritesOf. set_solver.
  - cbn [parseLoop]. unfold parseThing, shown.
    rewrite filter_cons.
    destruct (skipThing deathmatch difficulty thing).
    { cbn [negb andb]. rewrite decide_False by done. by apply IH. }
    destruct (spriteMap deathmatch !! Thing.type thing) as [thingName|]
      eqn:Hname.
    2:{ rewrite decide_False; [by apply IH|].
        cbn [negb andb]. rewrite bool_decide_eq_true. by intros [? [=]]. }
    rewrite decide_True
      by (cbn [negb andb]; rewrite bool_decide_eq_true; by eexists).
    pose proof (resolveSprite_spec allLumps thingName (Parse.sprite st)
                  (Parse.spriteFrameCount st) thing Hs0) as Hres.
    destruct (resolveSprite _ _ _ _ _) as [thing' count'].
    cbn [fst] in Hres. destruct Hres as (Hx & Hy & Ha & Ht & Ho & Hsp).
    destruct (thingDistance hCoefX hCoefY thing') as [d|e] eqn:Hd; [|done].
    intros Hrest.
    apply IH in Hrest as (es & Hes & Hperm & Hsprites); [|exact Hsp].
    cbn [Parse.thingsList Parse.sprites] in Hperm, Hsprites.
    destruct (addThing_placed (Parse.thingsList st) d thing')
      as (k & Hk & Hadd).
    exists ((k, thing') :: es). split; [|split].
    + constructor; [|done]. unfold enriched. cbn [fst snd].
      repeat split; try done. exists d. split; [|done].
      by rewrite <- (thingDistance_position _ _ thing thing').
    + rewrite Hperm, Hadd, <- app_assoc. done.
    + rewrite Hsprites. unfold spritesOf. cbn [fmap list_fmap snd].
      rewrite list_to_set_cons. set_solver.
Qed.

Lemma countThing_lookup stats thingName type c :
  countThing stats thingName type !! c
  = match statsNames !! thingName with
    | Some commonName =>
        if decide ((if decide (type = 58) then "27Spectre"
                    else commonName) = c)
        then Some (default 0 (stats !! c) + 1) else stats !! c
    | None => stats !! c
    end.
Proof.
  unfold countThing. destruct (statsNames !! thingName) as [cn|]; [|done].
  set (name := if decide (type = 58) then _ else _).
  destruct (decide (name = c)) as [<-|Hne].
  - destruct (stats !! name) as [n|] eqn:Hn;
      rewrite lookup_insert_eq; cbn [default]; f_equal.
  - destruct (stats !! name); by rewrite lookup_insert_ne.
Qed.

Lemma counted_nonneg c things : 0 ≤ counted deathmatch difficulty c things.
Proof. unfold counted, len. lia. Qed.

Lemma parseLoop_stats c things : ∀ st st',
  parseLoop allLumps hCoefX hCoefY difficulty deathmatch things st = Ok st' →
  Parse.stats st' !! c
  = if decide (counted deathmatch difficulty c things = 0)
    then Parse.stats st !! c
    else Some (default 0 (Parse.stats st !! c)
               + counted deathmatch difficulty c things).
Proof.
  induction things as [|thing rest IH]; intros st st'.
  - intros [= <-]. done.
  - cbn [parseLoop]. unfold parseThing, counted.
    rewrite filter_cons.
    remember (countedAs deathmatch difficulty thing) as ca eqn:Hca.
    unfold countedAs in Hca.
    destruct (skipThing deathmatch difficulty thing).
    { subst ca. rewrite (decide_False (P := None = Some c)) by done.
      apply IH. }
    destruct (spriteMap deathmatch !! Thing.type thing) as [thingName|]
      eqn:Hname; cbn [mbind option_bind] in Hca.
    2:{ subst ca. rewrite (decide_False (P := None = Some c)) by done.
        apply IH. }
    destruct (resolveSprite _ _ _ _ _) as [thing' count'].
    destruct (thingDistance hCoefX hCoefY thing') as [d|e]; [|done].
    intros Hrest. rewrite (IH _ _ Hrest). cbn [Parse.stats].
    rewrite countThing_lookup. fold (counted deathmatch difficulty c rest).
    pose proof (counted_nonneg c rest).
    destruct (statsNames !! thingName) as [cn|];
      cbn [mbind option_bind] in Hca; subst ca.
    2:{ by rewrite (decide_False (P := None = Some c)) by done. }
    destruct (decide ((if decide (Thing.type thing = 58) then _ else cn) = c))
      as [Heq|Hne].
    + rewrite (decide_True (P := Some _ = Some c)) by (by f_equal).
      unfold counted, len in *. cbn [length].
      set (n := length (filter _ rest)) in *. clearbody n.
      rewrite (decide_False (P := Z.of_nat (S n) = 0)) by lia.
      destruct (decide (Z.of_nat n = 0)) as [Hn|Hn];
        cbn [default id]; apply (f_equal Some); lia.
    + by rewrite (decide_False (P := Some _ = Some c)) by (intros [=]; done).
Qed.
End parseThings_facts.





(** ** [getLinePixels] *)

Lemma straight_snoc l q :
  straight l → (∀ p, last l = Some p → straightStep p q) →
  straight (l ++ [q]).
Proof.
  induction l as [|a l IH]; [done|].
  destruct l as [|b l]; cbn [app straight].
  - intros _ H. split; [by apply H|done].
  - intros [Hab Hrest] H. split; [done|]. apply IH; [done|].
    intros p Hp. apply H. done.
Qed.

Lemma py_index_last {A} (l : list A) p :
  last l = Some p → py_index l (-1) = Ok p.
Proof.
  intros Hl. unfold py_index. rewrite (decide_True (P := -1 < 0)) by lia.
  rewrite last_lookup in Hl.
  assert (length l ≠ 0%nat) by (destruct l; [done|cbn; lia]).
  rewrite decide_True by lia.
  replace (Z.to_nat (-1 + Z.of_nat (length l))) with (pred (length l)) by lia.
  by rewrite Hl.
Qed.

Lemma trueDiv_benign a b : b ≠ 0 → benign (trueDiv a b).
Proof.
  intros Hb. unfold trueDiv. rewrite decide_False by done.
  cbv zeta. destruct (Prim2SF _); cbn; auto.
Qed.

Lemma floatOfInt_benign n : benign (floatOfInt n).
Proof. unfold floatOfInt. cbv zeta. destruct (Prim2SF _); cbn; auto. Qed.

Lemma truncFloat_benign x : benign (truncFloat x).
Proof. unfold truncFloat. destruct (Prim2SF _); cbn; auto. Qed.

Lemma interpolate_benign v1 d t dt : dt ≠ 0 → benign (interpolate v1 d t dt).
Proof.
  intros Hdt. unfold interpolate.
  pose proof (trueDiv_benign t dt Hdt) as Hq.
  destruct (trueDiv t dt) as [q|e]; [|done]. cbn [mbind result_bind].
  pose proof (floatOfInt_benign d) as Hd.
  destruct (floatOfInt d) as [fd|e]; [|done]. cbn [mbind result_bind].
  pose proof (floatOfInt_benign v1) as Hv.
  destruct (floatOfInt v1) as [fv|e]; [|done]. cbn [mbind result_bind].
  apply truncFloat_benign.
Qed.


Lemma stepX_turn x1 y1 dx dy s :
  dx ≠ 0 → s ≠ 0 → turn fst x1 s (stepX x1 y1 dx dy).
Proof.
  intros Hdx Hs pixels x Hpre Hst. unfold stepX.
  pose proof (interpolate_benign y1 dy (x - x1) dx Hdx) as Hy.
  destruct (interpolate y1 dy (x - x1) dx) as [y|e]; [|done].
  cbn [mbind result_bind].
  destruct Hpre as [[-> ->]|[Hne (p & Hlast & Hp)]].
  - rewrite decide_False by (intros H; by apply H).
    cbn [mbind result_bind]. exists [(x1, y)], (x1, y).
    rewrite decide_True by done.
    split; [done|]. split; [done|]. split; [unfold len; cbn; lia|].
    split; [done|]. split; [done|]. by right.
  - rewrite decide_True by done. rewrite (py_index_last _ _ Hlast).
    cbn [mbind result_bind]. rewrite !(decide_False (P := x = x1)) by done.
    destruct (decide (x ≠ p.1 ∧ y ≠ p.2)) as [[Hx Hyp]|Hno];
      cbn [mbind result_bind].
    + exists [(p.1, y); (x, y)], (x, y). rewrite <- app_assoc.
      split; [done|]. split.
      { rewrite (assoc_L (++) pixels [_] [_]).
        apply straight_snoc; [apply straight_snoc; [done|]|].
        - intros p' Hp'. assert (p' = p) as -> by congruence.
          left. cbn. split; [done|]. congruence.
        - intros p'. rewrite last_snoc. intros [= <-].
          right. cbn. split; [done|]. congruence. }
      split; [unfold len; cbn; lia|]. split; [done|]. split; [done|].
      left. cbn. by f_equal.
    + exists [(x, y)], (x, y). split; [done|]. split.
      { apply straight_snoc; [done|]. intros p' Hp'.
        assert (p' = p) as -> by congruence.
        right. cbn. assert (p.1 ≠ x) by lia. split; [|done].
        destruct (decide (y = p.2)) as [->|?]; [done|].
        exfalso. apply Hno. split; congruence. }
      split; [unfold len; cbn; lia|]. split; [done|]. split; [done|].
      by right.
Qed.

Lemma stepY_turn x1 y1 dx dy s :
  dy ≠ 0 → s ≠ 0 → turn snd y1 s (stepY x1 y1 dx dy).
Proof.
  intros Hdy Hs pixels y Hpre Hst. unfold stepY.
  pose proof (interpolate_benign x1 dx (y - y1) dy Hdy) as Hx.
  destruct (interpolate x1 dx (y - y1) dy) as [x|e]; [|done].
  cbn [mbind result_bind].
  destruct Hpre as [[-> ->]|[Hne (p & Hlast & Hp)]].
  - rewrite decide_False by (intros H; by apply H).
    cbn [mbind result_bind]. exists [(x, y1)], (x, y1).
    rewrite decide_True by done.
    split; [done|]. split; [done|]. split; [unfold len; cbn; lia|].
    split; [done|]. split; [done|]. by right.
  - rewrite decide_True by done. rewrite (py_index_last _ _ Hlast).
    cbn [mbind result_bind]. rewrite !(decide_False (P := y = y1)) by done.
    destruct (decide (x ≠ p.1 ∧ y ≠ p.2)) as [[Hxp Hy]|Hno];
      cbn [mbind result_bind].
    + exists [(x, p.2); (x, y)], (x, y). rewrite <- app_assoc.
      split; [done|]. split.
      { rewrite (assoc_L (++) pixels [_] [_]).
        apply straight_snoc; [apply straight_snoc; [done|]|].
        - intros p' Hp'. assert (p' = p) as -> by congruence.
          right. cbn. split; [done|]. congruence.
        - intros p'. rewrite last_snoc. intros [= <-].
          left. cbn. split; [done|]. congruence. }
      split; [unfold len; cbn; lia|]. split; [done|]. split; [done|].
      left. cbn. by f_equal.
    + exists [(x, y)], (x, y). split; [done|]. split.
      { apply straight_snoc; [done|]. intros p' Hp'.
        assert (p' = p) as -> by congruence.
        left. cbn. assert (p.2 ≠ y) by lia. split; [|done].
        destruct (decide (x = p.1)) as [->|?]; [done|].
        exfalso. apply Hno. split; congruence. }
      split; [unfold len; cbn; lia|]. split; [done|]. split; [done|].
      by right.
Qed.

Section line_loop_facts.
Variables (main : pixel → Z) (v1 s : Z).
Variable step : list pixel → Z → result (list pixel).
Hypothesis Hturn : turn main v1 s step.
Hypothesis Hs : s ≠ 0.

Lemma line_loop (n : nat) : ∀ i pixels,
  0 ≤ i →
  (i = 0 ∧ pixels = [])
  ∨ (0 < i ∧ ∃ p, last pixels = Some p ∧ main p = v1 + s * (i - 1)) →
  straight pixels →
  match forEach step ((λ j, v1 + s * j) <$> seqZ i (Z.of_nat n)) pixels with
  | Ok pixels' =>
      ∃ more, pixels' = pixels ++ more ∧ straight pixels'
        ∧ Z.of_nat n ≤ len more
        ∧ len more
          ≤ 2 * Z.of_nat n - (if decide (i = 0 ∧ n ≠ 0%nat) then 1 else 0)
        ∧ (n ≠ 0%nat →
           ∃ q, last more = Some q ∧ main q = v1 + s * (i + Z.of_nat n - 1))
        ∧ (n ≠ 0%nat → i = 0 → main <$> head more = Some v1)
        ∧ (∀ j, i ≤ j < i + Z.of_nat n →
                ∃ q, q ∈ more ∧ main q = v1 + s * j)
  | Raise e => e = OverflowError ∨ e = ValueError
  end.
Proof.
  induction n as [|n IH]; intros i pixels Hi Hpre Hst.
  - cbn. exists []. rewrite app_nil_r. cbn.
    rewrite decide_False by (by intros [_ ?]).
    repeat split; try done; try lia.
  - rewrite seqZ_cons by lia. cbn [fmap list_fmap forEach].
    assert ((pixels = [] ∧ v1 + s * i = v1)
            ∨ (v1 + s * i ≠ v1
               ∧ ∃ p, last pixels = Some p ∧ main p = v1 + s * i - s))
      as Hpre'.
    { destruct Hpre as [[-> ->]|[Hpos (p & Hl & Hp)]].
      - left. split; [done|lia].
      - right. split; [nia|]. exists p. split; [done|]. rewrite Hp. lia. }
    pose proof (Hturn pixels (v1 + s * i) Hpre' Hst) as Hone.
    destruct (step pixels (v1 + s * i)) as [pixels1|e]; [|done].
    destruct Hone as (more1 & q1 & -> & Hst1 & Hlen1 & Hlast1 & Hq1 & Hhead1).
    replace (Z.pred (Z.of_nat (S n))) with (Z.of_nat n) by lia.
    assert (last (pixels ++ more1) = Some q1) as Hl1.
    { rewrite last_app, Hlast1. done. }
    specialize (IH (Z.succ i) (pixels ++ more1) ltac:(lia)
                  ltac:(right; split; [lia|]; exists q1; split; [done|];
                        rewrite Hq1; f_equal; lia) Hst1).
    destruct (forEach step _ (pixels ++ more1)) as [pixels'|e]; [|done].
    destruct IH as (more2 & -> & Hst2 & Hlo2 & Hhi2 & Hlast2 & _ & Hall2).
    exists (more1 ++ more2). rewrite app_assoc. split; [done|].
    split; [done|]. unfold len in *. rewrite length_app.
    assert (more1 ≠ []) as Hne1 by (intros ->; cbn in Hlen1; lia).
    rewrite (decide_False (P := Z.succ i = 0 ∧ _)) in Hhi2 by lia.
    split; [lia|]. split.
    { destruct (decide (v1 + s * i = v1)) as [Hv|Hv].
      - assert (i = 0) by nia. rewrite decide_True by done. lia.
      - assert (i ≠ 0) by (intros ->; lia).
        rewrite decide_False by (by intros [? _]). lia. }
    split; [|split].
    + intros _. destruct n as [|n].
      * destruct more2; [|cbn in Hhi2; lia]. rewrite app_nil_r.
        exists q1. split; [done|]. rewrite Hq1. f_equal. lia.
      * destruct (Hlast2 ltac:(done)) as (q2 & Hq2l & Hq2).
        exists q2. split; [by rewrite last_app, Hq2l|].
        rewrite Hq2. f_equal. lia.
    + intros _ ->. destruct more1 as [|a more1]; [done|]. cbn [app head fmap option_fmap option_map] in *.
      rewrite decide_True in Hhead1 by lia.
      destruct Hhead1 as [H|H]; rewrite H; f_equal; lia.
    + intros j Hj. destruct (decide (j = i)) as [->|Hji].
      * exists q1. split; [|done]. apply elem_of_app. left.
        rewrite last_lookup in Hlast1. by eapply list_elem_of_lookup_2.
      * destruct (Hall2 j ltac:(lia)) as (q & Hq & Hmq).
        exists q. split; [|done]. apply elem_of_app. by right.
Qed.
End line_loop_facts.

Lemma sgn_div d : d ≠ 0 → d / Z.abs d = Z.sgn d.
Proof.
  intros Hd. symmetry. apply (Z.div_unique d (Z.abs d) (Z.sgn d) 0); lia.
Qed.

Lemma pyRange_sgn a d :
  d ≠ 0 →
  pyRange a (a + d + Z.sgn d) (Z.sgn d)
  = (λ j, a + Z.sgn d * j) <$> seqZ 0 (Z.of_nat (Z.to_nat (Z.abs d + 1))).
Proof.
  intros Hd. unfold pyRange. rewrite Z2Nat.id by lia.
  destruct (decide (0 < Z.sgn d)).
  - assert (Z.sgn d = 1) as -> by lia. rewrite Z.div_1_r. do 2 f_equal. lia.
  - assert (Z.sgn d = -1) as -> by lia. cbn [Z.opp]. rewrite Z.div_1_r.
    do 2 f_equal. lia.
Qed.

(** The loop of either branch, from its first turn. *)
Lemma line_from_start main v1 d step :
  d ≠ 0 → turn main v1 (Z.sgn d) step →
  match forEach step (pyRange v1 (v1 + d + Z.sgn d) (Z.sgn d)) [] with
  | Ok pixels =>
      straight pixels
      ∧ main <$> head pixels = Some v1
      ∧ main <$> last pixels = Some (v1 + d)
      ∧ Z.abs d + 1 ≤ len pixels ≤ 2 * Z.abs d + 1
      ∧ ∀ v, v1 ≤ v ≤ v1 + d ∨ v1 + d ≤ v ≤ v1 → ∃ q, q ∈ pixels ∧ main q = v
  | Raise e => e = OverflowError ∨ e = ValueError
  end.
Proof.
  intros Hd Hturn. rewrite pyRange_sgn by done.
  pose proof (line_loop main v1 (Z.sgn d) step Hturn ltac:(lia)
                (Z.to_nat (Z.abs d + 1)) 0 [] ltac:(lia)
                ltac:(by left) I) as Hloop.
  destruct (forEach step _ []) as [pixels|e]; [|done].
  destruct Hloop as (more & -> & Hst & Hlo & Hhi & Hlast & Hhead & Hall).
  cbn [app]. rewrite decide_True in Hhi by lia.
  split; [done|]. split; [apply Hhead; lia|]. split.
  { destruct Hlast as (q & -> & Hq); [lia|]. cbn. rewrite Hq. f_equal. nia. }
  split; [lia|]. intros v Hv.
  destruct (Hall ((v - v1) * Z.sgn d) ltac:(nia)) as (q & Hq & Hmq).
  exists q. split; [done|]. rewrite Hmq. nia.
Qed.

Lemma getLinePixels_spec beg end_ :
  match getLinePixels beg end_ with
  | Ok pixels =>
      let main := axis beg end_ in
      straight pixels
      ∧ main <$> head pixels = Some (main beg)
      ∧ main <$> last pixels = Some (main end_)
      ∧ Z.abs (main end_ - main beg) + 1 ≤ len pixels
        ≤ 2 * Z.abs (main end_ - main beg) + 1
      ∧ ∀ v, main beg ≤ v ≤ main end_ ∨ main end_ ≤ v ≤ main beg →
             ∃ q, q ∈ pixels ∧ main q = v
  | Raise e => e = OverflowError ∨ e = ValueError
  end.
Proof.
  unfold getLinePixels. destruct (decide (beg = end_)) as [->|Hne].
  { cbv zeta. split; [done|]. split; [done|]. split; [done|].
    split; [unfold len; cbn [length]; lia|].
    intros v Hv. exists end_. split; [by left|lia]. }
  destruct beg as [x1 y1], end_ as [x2 y2]. unfold axis. cbn [fst snd].
  destruct (decide (Z.abs (x2 - x1) > Z.abs (y2 - y1))) as [Hx|Hy].
  - assert (x2 - x1 ≠ 0) as Hd by lia.
    unfold floorDiv. rewrite decide_False by lia. cbn [mbind result_bind].
    rewrite sgn_div by done.
    pose proof (line_from_start fst x1 (x2 - x1) (stepX x1 y1 (x2 - x1) (y2 - y1))
                  Hd ltac:(apply stepX_turn; lia)) as H.
    replace (x1 + (x2 - x1)) with x2 in H by lia.
    destruct (forEach _ _ []) as [pixels|e]; [|done]. cbn [fst] in *.
    destruct H as (? & ? & ? & ? & ?). done.
  - assert (y2 - y1 ≠ 0) as Hd.
    { intros H0. apply Hne. f_equal; lia. }
    unfold floorDiv. rewrite decide_False by lia. cbn [mbind result_bind].
    rewrite sgn_div by done.
    pose proof (line_from_start snd y1 (y2 - y1) (stepY x1 y1 (x2 - x1) (y2 - y1))
                  Hd ltac:(apply stepY_turn; lia)) as H.
    replace (y1 + (y2 - y1)) with y2 in H by lia.
    destruct (forEach _ _ []) as [pixels|e]; [|done]. cbn [snd] in *.
    destruct H as (? & ? & ? & ? & ?). done.
Qed.




(** ** The sides of a linedef *)

Lemma half_parity a : ∃ r, 0 ≤ r ≤ 1 ∧ 2 * (a / 2) = a - r.
Proof.
  exists (a mod 2). pose proof (Z.mod_pos_bound a 2 ltac:(lia)).
  pose proof (Z.div_mod a 2 ltac:(lia)). lia.
Qed.



(** ** The facing test of [pasteWall] *)

Lemma floatDiv_benign a b :
  PrimFloat.eqb b 0 = false → benign (floatDiv a b).
Proof. intros H. unfold floatDiv. by rewrite H. Qed.

Lemma facesAway_benign x1 y1 x2 y2 hCoefX hCoefY :
  benign (facesAway x1 y1 x2 y2 hCoefX hCoefY).
Proof.
  unfold facesAway. destruct (decide (x2 ≤ x1 ∧ y2 >= y1)) as [|Hfirst]; [done|].
  destruct (PrimFloat.eqb hCoefY 0) eqn:Hzero; cbn [negb andb].
  { done. }
  assert (∀ a b, b ≠ 0 →
            benign (q ← trueDiv a b; r ← floatDiv hCoefX hCoefY;
                    Ok (PrimFloat.ltb r q))
            ∧ benign (q ← trueDiv a b; r ← floatDiv hCoefX hCoefY;
                      Ok (PrimFloat.ltb q r))) as Hdiv.
  { intros a b Hb. pose proof (trueDiv_benign a b Hb) as Hq.
    pose proof (floatDiv_benign hCoefX hCoefY Hzero) as Hr.
    destruct (trueDiv a b) as [q|e]; [|done]. cbn [mbind result_bind].
    by destruct (floatDiv hCoefX hCoefY) as [r|e]. }
  assert (∀ m : result bool, benign m → ∀ second, m = Ok second →
            second = true ∨ second = false) as _ by (intros ? _ []; auto).
  destruct (bool_decide (x2 < x1)) eqn:Hx.
  - apply bool_decide_eq_true in Hx.
    pose proof (proj1 (Hdiv (x1 - x2) (y1 - y2) ltac:(lia))) as H2.
    destruct (q ← trueDiv (x1 - x2) (y1 - y2); r ← floatDiv hCoefX hCoefY;
              Ok (PrimFloat.ltb r q)) as [[|]|e]; [done| |done].
    cbn [mbind result_bind].
    destruct (bool_decide (y2 > y1)) eqn:Hy; [|done].
    apply bool_decide_eq_true in Hy. lia.
  - cbn [mbind result_bind].
    destruct (bool_decide (y2 > y1)) eqn:Hy; [|done].
    apply bool_decide_eq_true in Hy.
    apply (Hdiv (x2 - x1) (y2 - y1)). lia.
Qed.


(** ** The ground of a thing *)

Lemma py_index_in_range {A} (l : list A) i :
  - len l ≤ i < len l → ∃ a, py_index l i = Ok a.
Proof.
  intros Hi. unfold py_index, len in *.
  destruct (decide (i < 0)).
  - rewrite decide_True by lia.
    destruct (lookup_lt_is_Some_2 l (Z.to_nat (i + Z.of_nat (length l))))
      as [a Ha]; [lia|]. exists a. by rewrite Ha.
  - rewrite decide_True by lia.
    destruct (lookup_lt_is_Some_2 l (Z.to_nat i)) as [a Ha]; [lia|].
    exists a. by rewrite Ha.
Qed.

Lemma py_index_range {A} (l : list A) i a :
  py_index l i = Ok a → - len l ≤ i < len l.
Proof.
  unfold py_index, len. intros H.
  destruct (decide (i < 0)).
  - destruct (decide (0 ≤ i + Z.of_nat (length l))); [|done]. lia.
  - destruct (decide (0 ≤ i)); [|done].
    destruct (l !! Z.to_nat i) eqn:Hl; [|done].
    apply lookup_lt_Some in Hl. lia.
Qed.

(** An index that exists still exists once stored in the [int16] buffer. *)
Lemma py_index_int16 {A} (l : list A) s a :
  py_index l s = Ok a → ∃ a', py_index l (int16 s) = Ok a'.
Proof.
  intros H. apply py_index_range in H. apply py_index_in_range.
  pose proof (int16_range s).
  destruct (decide (len l < 32768)); [rewrite int16_small; lia|lia].
Qed.


